(** * Compass trip planner: clustering, routing, budget and scheduling agents

    A shallow embedding of the TypeScript agents of the backend
    (ClusteringAgent, LocationAgent, BudgetAgent, TimeAgent and the
    scheduling stages of AgentOrchestrator), and the properties the
    specification states about them. *)

From Stdlib Require Import ZArith QArith Qcanon Qround String Ascii List Lia.
From Stdlib Require Import Permutation Sorted.
From stdpp Require Import base decidable numbers list gmap strings pretty.

Local Open Scope Z_scope.
Set Warnings "-clear-no-such-hyp".


(** ** JavaScript values used by the agents

    A JS number that holds a cost, a coordinate or a distance is an exact
    rational [Qc] (every finite double is one); rounding error of the
    floating point operations, [NaN] and the infinities are outside the
    model, except where a definition says otherwise.  Integer valued
    numbers (minutes, counts) are [Z]. *)
Module JS.

(** [Math.round x]: the nearest integer, halves towards plus infinity. *)
Definition Math_round (x : Qc) : Z := Qfloor (x + Q2Qc (1 # 2))%Qc.

(** [Math.ceil x]. *)
Definition Math_ceil (x : Qc) : Z := Qceiling x.

(** [Math.max a b]. *)
Definition Math_max (a b : Qc) : Qc := if bool_decide (a < b)%Qc then b else a.

(** An integer as a JS number. *)
Definition ofZ (z : Z) : Qc := Q2Qc (inject_Z z).

(** [x || d] for an optional number: [undefined] and [0] are falsy. *)
Definition orNum (x : option Qc) (d : Qc) : Qc :=
  match x with
  | Some v => if decide (v = 0%Qc) then d else v
  | None => d
  end.

Definition orInt (x : option Z) (d : Z) : Z :=
  match x with
  | Some v => if decide (v = 0) then d else v
  | None => d
  end.

(** [x || d] for an optional string: [undefined] and the empty string
    are falsy. *)
Definition orString (x : option string) (d : string) : string :=
  match x with
  | Some EmptyString | None => d
  | Some v => v
  end.

(** [s.toLowerCase()] on the ASCII letters. *)
Definition lowerChar (c : ascii) : ascii :=
  let n := nat_of_ascii c in
  if ((65 <=? n) && (n <=? 90))%nat then ascii_of_nat (n + 32) else c.

Fixpoint toLowerCase (s : string) : string :=
  match s with
  | EmptyString => EmptyString
  | String c r => String (lowerChar c) (toLowerCase r)
  end.

(** [s.includes(needle)]. *)
Fixpoint includes (s needle : string) : bool :=
  String.prefix needle s ||
  match s with
  | EmptyString => false
  | String _ r => includes r needle
  end.

(** [s.split(sep)] for a one character separator. *)
Fixpoint split (sep : ascii) (s : string) : list string :=
  match s with
  | EmptyString => [EmptyString]
  | String c r =>
      if Ascii.eqb c sep then EmptyString :: split sep r
      else match split sep r with
           | h :: t => String c h :: t
           | [] => [String c EmptyString]
           end
  end.

(** [parts.join(sep)]. *)
Fixpoint join (sep : string) (parts : list string) : string :=
  match parts with
  | [] => EmptyString
  | [p] => p
  | p :: rest => p +:+ sep +:+ join sep rest
  end.

(** White space of the ASCII range: space, tab, line feed, vertical tab,
    form feed, carriage return. *)
Definition isWhiteSpace (c : ascii) : bool :=
  let n := nat_of_ascii c in
  ((n =? 32) || ((9 <=? n) && (n <=? 13)))%nat.

Fixpoint trimStart (s : string) : string :=
  match s with
  | String c r => if isWhiteSpace c then trimStart r else s
  | EmptyString => EmptyString
  end.

Fixpoint trimEnd (s : string) : string :=
  match s with
  | EmptyString => EmptyString
  | String c r =>
      match trimEnd r with
      | EmptyString => if isWhiteSpace c then EmptyString else String c EmptyString
      | r' => String c r'
      end
  end.

Definition trim (s : string) : string := trimEnd (trimStart s).

Definition digitValue (radix : Z) (c : ascii) : option Z :=
  let n := Z.of_nat (nat_of_ascii c) in
  let v := if (48 <=? n) && (n <=? 57) then Some (n - 48)
           else if (97 <=? n) && (n <=? 122) then Some (n - 87)
           else if (65 <=? n) && (n <=? 90) then Some (n - 55)
           else None in
  match v with
  | Some d => if d <? radix then Some d else None
  | None => None
  end.

(** The longest prefix of digits, read in [radix]; [None] when there is
    no digit at all. *)
Fixpoint readDigits (radix : Z) (s : string) (acc : option Z) : option Z :=
  match s with
  | EmptyString => acc
  | String c r =>
      match digitValue radix c with
      | Some d => readDigits radix r (Some (default 0 acc * radix + d))
      | None => acc
      end
  end.

(** [parseInt(s)] without a radix: leading white space, a sign, an
    optional [0x] prefix, then digits.  [None] stands for [NaN]. *)
Definition parseInt (s : string) : option Z :=
  let s := trimStart s in
  let '(sign, s) :=
    match s with
    | String "-" r => (-1, r)
    | String "+" r => (1, r)
    | _ => (1, s)
    end in
  let '(radix, s) :=
    match s with
    | String "0" (String "x" r) => (16, r)
    | String "0" (String "X" r) => (16, r)
    | _ => (10, s)
    end in
  Z.mul sign <$> readDigits radix s None.

(** [n.toString()] of an integer valued number; [None] is [NaN]. *)
Definition toString (n : option Z) : string :=
  match n with
  | Some z => pretty z
  | None => "NaN"
  end.

Fixpoint replicate (n : nat) (c : ascii) : string :=
  match n with
  | O => EmptyString
  | S n => String c (replicate n c)
  end.

(** [s.padStart(len, c)] with a one character filler. *)
Definition padStart (len : nat) (c : ascii) (s : string) : string :=
  replicate (len - String.length s) c +:+ s.

(** [[...l].sort(cmp)]: the sort of an array is stable (ECMAScript 2019),
    so for a consistent comparator its result is the stable insertion
    sort: [a] stays before a later [b] unless [cmp a b > 0]. *)
Section Sort.
Context {A : Type} (cmp : A -> A -> Qc).

Fixpoint insertSorted (x : A) (l : list A) : list A :=
  match l with
  | [] => [x]
  | y :: r => if bool_decide (cmp x y <= 0)%Qc then x :: l else y :: insertSorted x r
  end.

Fixpoint sort (l : list A) : list A :=
  match l with
  | [] => []
  | x :: r => insertSorted x (sort r)
  end.

End Sort.

(** [l.slice(from, to)] for indices that are not negative. *)
Definition slice {A} (from to : Z) (l : list A) : list A :=
  take (Z.to_nat to - Z.to_nat from) (drop (Z.to_nat from) l).

End JS.

(** ** Types (backend/src/types/index.ts) *)
Module Types.

Inductive LocationType :=
  | restaurant | attraction | activity | accommodation | viewpoint
  | market | temple | cafe | other.

#[global] Instance LocationType_eq_dec : EqDecision LocationType.
Proof. solve_decision. Defined.

Record Coordinates := { lat : Qc; lng : Qc }.

(** A [Location]; the fields no modelled function reads (currency,
    openingHours, photos, source, vibeScore) are left out. *)
Record Location := {
  id : string;
  name : string;
  address : option string;
  coordinates : option Coordinates;
  type : LocationType;
  rating : option Qc;
  priceLevel : option Z;
  estimatedCost : option Qc;
  verified : bool
}.

Inductive Companions := solo | partner | friends | family.

Record TripPreferences := {
  budget : Qc;
  currency : string;
  companions : Companions;
  travelStyle : list string;
  startDate : option string;
  endDate : option string;
  startTime : option string;
  endTime : option string
}.

Record ClusterGroup := {
  cg_id : string;
  cg_name : string;
  centroid : Coordinates;
  locations : list Location;
  suggestedDuration : Z
}.

End Types.
Export Types.

(** ** ClusteringAgent (backend/src/agents/clusteringAgent.ts) *)
Module ClusteringAgent.

Definition CLUSTER_RADIUS_KM : Qc := JS.ofZ 3.

(** [durations[location.type] || 45]: the table's [0] for an
    accommodation is falsy, so it too gets 45. *)
Definition estimateDuration (location : Location) : Z :=
  JS.orInt
    (Some match type location with
          | restaurant => 75
          | attraction => 90
          | activity => 120
          | accommodation => 0
          | viewpoint => 30
          | market => 60
          | temple => 60
          | cafe => 45
          | other => 45
          end) 45.

Definition generateClusterName (locations : list Location) : string :=
  match locations with
  | [] => "Unknown Area"
  | firstLocation :: _ =>
      let address := JS.orString (address firstLocation) (name firstLocation) in
      let parts := JS.trim <$> JS.split "," address in
      if bool_decide (2 < length parts)%nat then default "" (parts !! 1%nat)
      else JS.join " " (take 2 (JS.split " " (name firstLocation))) +:+ " Area"
  end.

Definition calculateCentroid (locations : list Location) : Coordinates :=
  let validCoords := omap coordinates locations in
  if bool_decide (length validCoords = 0%nat) then {| lat := 0; lng := 0 |}
  else
    let sum :=
      fold_left (fun acc coord =>
                   {| lat := lat acc + lat coord; lng := lng acc + lng coord |}%Qc)
                validCoords {| lat := 0; lng := 0 |} in
    let n := JS.ofZ (Z.of_nat (length validCoords)) in
    {| lat := lat sum / n; lng := lng sum / n |}%Qc.

Section Clustering.

(** [haversineDistance] is floating point trigonometry; the clustering
    only compares its result, so it is a parameter here. *)
Variable haversineDistance : Coordinates -> Coordinates -> Qc.

(** The body of the inner loop [for (const other of locations)], for the
    cluster seeded at [seed]; the state is the cluster under construction
    and the set [assigned] of ids. *)
Definition addNearby (seed : Coordinates)
    (st : ClusterGroup * gset string) (other : Location) : ClusterGroup * gset string :=
  let '(cluster, assigned) := st in
  match coordinates other with
  | None => st
  | Some oc =>
      if bool_decide (id other ∈ assigned) then st
      else if bool_decide (haversineDistance seed oc <= CLUSTER_RADIUS_KM)%Qc then
        ({| cg_id := cg_id cluster;
            cg_name := cg_name cluster;
            centroid := centroid cluster;
            locations := locations cluster ++ [other];
            suggestedDuration := suggestedDuration cluster + estimateDuration other |},
         assigned ∪ {[ id other ]})
      else st
  end.

(** The body of the outer loop [for (const location of locations)]; the
    state is the array [clusters] and the set [assigned]. *)
Definition startCluster (all : list Location)
    (st : list ClusterGroup * gset string) (location : Location)
    : list ClusterGroup * gset string :=
  let '(clusters, assigned) := st in
  match coordinates location with
  | None => st
  | Some seed =>
      if bool_decide (id location ∈ assigned) then st
      else
        let number := pretty (Z.of_nat (length clusters) + 1) in
        let cluster :=
          {| cg_id := "cluster-" +:+ number;
             cg_name := "Area " +:+ number;
             centroid := seed;
             locations := [location];
             suggestedDuration := estimateDuration location |} in
        let '(cluster, assigned) :=
          fold_left (addNearby seed) all (cluster, assigned ∪ {[ id location ]}) in
        let cluster :=
          {| cg_id := cg_id cluster;
             cg_name := generateClusterName (locations cluster);
             centroid := calculateCentroid (locations cluster);
             locations := locations cluster;
             suggestedDuration := suggestedDuration cluster |} in
        (clusters ++ [cluster], assigned)
  end.

Definition clusterByProximity (all : list Location) : list ClusterGroup :=
  fst (fold_left (startCluster all) all ([], ∅)).

End Clustering.

(** [optimizeClusterOrder] keeps the unvisited locations in a JS [Set],
    which holds object references: an object listed twice is held once.
    [Ref] is the type of references, with reference identity as its
    equality, and [deref] reads the object behind one. *)
Section Routing.

Context {Ref : Type} `{EqDecision Ref}.
Variable deref : Ref -> Location.
Variable haversineDistance : Coordinates -> Coordinates -> Qc.

(** [new Set(items)], as the list of its entries in insertion order. *)
Definition newSet (items : list Ref) : list Ref :=
  fold_left (fun s x => if bool_decide (x ∈ s) then s else s ++ [x]) items [].

(** [remaining.delete(x)]. *)
Definition setDelete (x : Ref) (s : list Ref) : list Ref :=
  filter (fun y => y <> x) s.

(** The body of [for (const loc of remaining)]; the state is [nearest]
    and [nearestDist], whose [None] is [Infinity]. *)
Definition closer (current : Ref)
    (st : option Ref * option Qc) (loc : Ref) : option Ref * option Qc :=
  match coordinates (deref current), coordinates (deref loc) with
  | Some cc, Some lc =>
      let dist := haversineDistance cc lc in
      match snd st with
      | None => (Some loc, Some dist)
      | Some nearestDist =>
          if bool_decide (dist < nearestDist)%Qc then (Some loc, Some dist) else st
      end
  | _, _ => st
  end.

(** The [while (remaining.size > 0)] loop, [current] being the last entry
    of [ordered].  Every round but the last removes one entry of
    [remaining]; [fuel] bounds the number of rounds, and [None] is the
    loop running out of it. *)
Fixpoint visit (fuel : nat) (ordered : list Ref) (current : Ref) (remaining : list Ref)
    : option (list Ref) :=
  match remaining with
  | [] => Some ordered
  | _ :: _ =>
      match fuel with
      | O => None
      | S fuel =>
          match fst (fold_left (closer current) remaining (None, None)) with
          | Some nearest => visit fuel (ordered ++ [nearest]) nearest (setDelete nearest remaining)
          | None => Some (ordered ++ remaining)
          end
      end
  end.

Definition optimizeClusterOrder (locs : list Ref) : option (list Ref) :=
  if bool_decide (length locs <= 2)%nat then Some locs
  else match locs with
       | [] => Some locs
       | first :: rest =>
           let remaining := newSet rest in
           visit (length remaining) [first] first remaining
       end.

End Routing.

(** [optimizeClusterSequence] keeps the unvisited clusters in a [Set] of
    object references, as [optimizeClusterOrder] does for locations. *)
Section Sequencing.

Context {Ref : Type} `{EqDecision Ref}.
Variable deref : Ref -> ClusterGroup.
Variable haversineDistance : Coordinates -> Coordinates -> Qc.

(** The body of [for (const cluster of remaining)]; the state is
    [nearest] and [nearestDist], whose [None] is [Infinity].  A distance
    that is a number is below [Infinity], so the first cluster of
    [remaining] is always taken up; a distance that is [NaN] is below
    nothing, and is outside the model. *)
Definition closerCluster (current : Ref)
    (st : option Ref * option Qc) (cluster : Ref) : option Ref * option Qc :=
  let dist := haversineDistance (centroid (deref current)) (centroid (deref cluster)) in
  match snd st with
  | None => (Some cluster, Some dist)
  | Some nearestDist =>
      if bool_decide (dist < nearestDist)%Qc then (Some cluster, Some dist) else st
  end.

(** The [while (remaining.size > 0)] loop.  It has no [break]: a round
    that finds no nearest cluster leaves the state as it is and the loop
    goes round again.  [fuel] bounds the number of rounds, and [None] is
    the loop running out of it. *)
Fixpoint visitClusters (fuel : nat) (ordered : list Ref) (current : Ref)
    (remaining : list Ref) : option (list Ref) :=
  match remaining with
  | [] => Some ordered
  | _ :: _ =>
      match fuel with
      | O => None
      | S fuel =>
          match fst (fold_left (closerCluster current) remaining (None, None)) with
          | Some nearest =>
              visitClusters fuel (ordered ++ [nearest]) nearest (setDelete nearest remaining)
          | None => visitClusters fuel ordered current remaining
          end
      end
  end.

Definition optimizeClusterSequence (clusters : list Ref) : option (list Ref) :=
  if bool_decide (length clusters <= 2)%nat then Some clusters
  else match clusters with
       | [] => Some clusters
       | first :: rest =>
           let remaining := newSet rest in
           visitClusters (length remaining) [first] first remaining
       end.

End Sequencing.

Section Distance.

Variable haversineDistance : Coordinates -> Coordinates -> Qc.

(** The body of [for (let i = 0; i < locations.length - 1; i++)], for the
    pair of [locations[i]] and [locations[i + 1]]. *)
Definition addLeg (total : Qc) (leg : Location * Location) : Qc :=
  match coordinates (fst leg), coordinates (snd leg) with
  | Some a, Some b => (total + haversineDistance a b)%Qc
  | _, _ => total
  end.

Definition calculateTotalDistance (locs : list Location) : Qc :=
  let total := fold_left addLeg (zip locs (tail locs)) 0%Qc in
  (JS.ofZ (JS.Math_round (total * JS.ofZ 100)) / JS.ofZ 100)%Qc.

End Distance.

End ClusteringAgent.

(** ** LocationAgent (backend/src/agents/locationAgent.ts) *)
Module LocationAgent.

Definition TOKYO : Coordinates :=
  {| lat := Q2Qc (356762 # 10000); lng := Q2Qc (1396503 # 10000) |}.

Definition calculateCentroid (coords : list Coordinates) : Coordinates :=
  if bool_decide (length coords = 0%nat) then TOKYO
  else
    let sum :=
      fold_left (fun acc coord =>
                   {| lat := lat acc + lat coord; lng := lng acc + lng coord |}%Qc)
                coords {| lat := 0; lng := 0 |} in
    let n := JS.ofZ (Z.of_nat (length coords)) in
    {| lat := lat sum / n; lng := lng sum / n |}%Qc.

(** [baseCosts[type] || 15] times [(priceLevel ? priceLevel : 2) / 2]. *)
Definition estimateCost (t : LocationType) (priceLevel : option Z) : Qc :=
  let base :=
    JS.orNum
      (Some (JS.ofZ match t with
                    | restaurant => 25
                    | attraction => 15
                    | activity => 40
                    | accommodation => 100
                    | viewpoint => 0
                    | market => 20
                    | temple => 5
                    | cafe => 15
                    | other => 10
                    end)) (JS.ofZ 15) in
  let multiplier := JS.ofZ (JS.orInt priceLevel 2) in
  (base * (multiplier / JS.ofZ 2))%Qc.

(** What [mapsService.getPlaceDetails] gives for a place, as far as the
    modelled fields of a location go. *)
Record PlaceDetails := {
  detailsAddress : option string;
  detailsCoordinates : option Coordinates
}.

Record LocationEnrichmentOutput := {
  enrichedLocations : list Location;
  destinationCenter : Coordinates;
  destinationName : string
}.

(** [{ ...location, estimatedCost: estimateCost(type, priceLevel) }]. *)
Definition withEstimate (location : Location) : Location :=
  {| id := id location; name := name location; address := address location;
     coordinates := coordinates location; type := type location;
     rating := rating location; priceLevel := priceLevel location;
     estimatedCost := Some (estimateCost (type location) (priceLevel location));
     verified := verified location |}.

Section Enrichment.

(** The places service is a parameter: [None] is a lookup that fails,
    by a result without data or by an exception; the two branches of the
    source build the same location.  The destination name is a display
    string counted through a JS object; it is a parameter too. *)
Variable getPlaceDetails : string -> option PlaceDetails.
Variable inferDestinationName : list Location -> string.

(** The body of [for (const location of locations)]; the state is
    [enrichedLocations] and [allCoordinates]. *)
Definition enrich (st : list Location * list Coordinates) (location : Location)
    : list Location * list Coordinates :=
  let '(enriched, allCoordinates) := st in
  if String.prefix "mock-" (id location) then
    (enriched ++ [withEstimate location],
     match coordinates location with
     | Some c => allCoordinates ++ [c]
     | None => allCoordinates
     end)
  else
    match getPlaceDetails (id location) with
    | Some details =>
        let place :=
          {| id := id location; name := name location;
             address := match detailsAddress details with
                        | None | Some EmptyString => address location
                        | Some a => Some a
                        end;
             coordinates := match detailsCoordinates details with
                            | Some c => Some c
                            | None => coordinates location
                            end;
             type := type location; rating := rating location;
             priceLevel := priceLevel location;
             estimatedCost := Some (estimateCost (type location) (priceLevel location));
             verified := verified location |} in
        (enriched ++ [place],
         match coordinates place with
         | Some c => allCoordinates ++ [c]
         | None => allCoordinates
         end)
    | None => (enriched ++ [withEstimate location], allCoordinates)
    end.

Definition process (locs : list Location) : LocationEnrichmentOutput :=
  let '(enriched, allCoordinates) := fold_left enrich locs ([], []) in
  {| enrichedLocations := enriched;
     destinationCenter := calculateCentroid allCoordinates;
     destinationName := inferDestinationName enriched |}.

End Enrichment.

End LocationAgent.

(** ** BudgetAgent (backend/src/agents/budgetAgent.ts) *)
Module BudgetAgent.

Record BudgetBreakdown := {
  food : Qc;
  activities : Qc;
  transport : Qc;
  accommodationCost : Qc;
  misc : Qc;
  total : Qc
}.

(** An entry of [keep] or of [remove]: [{ location, reason }]. *)
Record Verdict := { location : Location; reason : string }.

Record Replacement := { original : Location; alternative : string; savings : Z }.

Record BudgetOptimization := {
  keep : list Verdict;
  replace : list Replacement;
  remove : list Verdict
}.

Record BudgetOutput := {
  breakdown : BudgetBreakdown;
  isOverBudget : bool;
  overageAmount : Qc;
  optimization : option BudgetOptimization;
  adjustedLocations : option (list Location)
}.

(** [baseCosts[location.type] || 15] times [(priceLevel || 2) / 2]: the
    table's [0] for a viewpoint is falsy, so its base is 15. *)
Definition estimateCost (location : Location) : Qc :=
  let base :=
    JS.orNum
      (Some (JS.ofZ match type location with
                    | restaurant => 25
                    | attraction => 15
                    | activity => 40
                    | accommodation => 100
                    | viewpoint => 0
                    | market => 20
                    | temple => 5
                    | cafe => 15
                    | other => 10
                    end)) (JS.ofZ 15) in
  let multiplier := JS.ofZ (JS.orInt (priceLevel location) 2) in
  (base * (multiplier / JS.ofZ 2))%Qc.

(** The loop of [calculateBreakdown]: one location added to its
    category.  The sums are exact here; the doubles of the engine add
    without rounding when the costs are multiples of one half. *)
Definition addCost (numDays : Z) (b : BudgetBreakdown) (location : Location) : BudgetBreakdown :=
  let cost := JS.orNum (estimatedCost location) (estimateCost location) in
  match type location with
  | restaurant =>
      {| food := food b + cost; activities := activities b; transport := transport b;
         accommodationCost := accommodationCost b; misc := misc b; total := total b |}%Qc
  | accommodation =>
      {| food := food b; activities := activities b; transport := transport b;
         accommodationCost := accommodationCost b + cost * JS.ofZ numDays;
         misc := misc b; total := total b |}%Qc
  | attraction | activity =>
      {| food := food b; activities := activities b + cost; transport := transport b;
         accommodationCost := accommodationCost b; misc := misc b; total := total b |}%Qc
  | _ =>
      {| food := food b; activities := activities b; transport := transport b;
         accommodationCost := accommodationCost b; misc := misc b + cost; total := total b |}%Qc
  end.

Definition calculateBreakdown (locs : list Location) (numDays : Z) : BudgetBreakdown :=
  let b := fold_left (addCost numDays) locs
             {| food := 0; activities := 0; transport := 0;
                accommodationCost := 0; misc := 0; total := 0 |} in
  let transport' := JS.ofZ (JS.Math_round (activities b * Q2Qc (15 # 100))%Qc) in
  let misc' := (misc b + JS.ofZ (JS.Math_round ((food b + activities b) * Q2Qc (1 # 10))))%Qc in
  {| food := food b; activities := activities b; transport := transport';
     accommodationCost := accommodationCost b; misc := misc';
     total := (food b + activities b + transport' + accommodationCost b + misc')%Qc |}.

(** The comparator of the sort: [(b.estimatedCost || 0) - (a.estimatedCost || 0)]. *)
Definition byCostDescending (a b : Location) : Qc :=
  (JS.orNum (estimatedCost b) 0 - JS.orNum (estimatedCost a) 0)%Qc.

(** The body of [for (const location of sorted)]; the state is the
    optimization built so far and [savings].  The products and sums are
    exact here; the doubles of the engine round them (85 * 0.7 is a
    little less than 59.5 there). *)
Definition decide_one (count : nat) (overage : Qc)
    (st : BudgetOptimization * Qc) (loc : Location) : BudgetOptimization * Qc :=
  let '(opt, saved) := st in
  let cost := JS.orNum (estimatedCost loc) 0 in
  if bool_decide (overage <= saved)%Qc then
    ({| keep := keep opt ++ [{| location := loc; reason := "Within budget after adjustments" |}];
        replace := replace opt; remove := remove opt |}, saved)
  else if bool_decide (3 <= JS.orInt (priceLevel loc) 0) (* priceLevel && priceLevel >= 3 *)
          && bool_decide (type loc = restaurant) then
    let s := JS.Math_round (cost * Q2Qc (1 # 2))%Qc in
    ({| keep := keep opt;
        replace := replace opt ++ [{| original := loc;
                                      alternative := "Local eatery with similar cuisine";
                                      savings := s |}];
        remove := remove opt |}, (saved + JS.ofZ s)%Qc)
  else if bool_decide (type loc = activity) && bool_decide (JS.ofZ 50 < cost)%Qc then
    let s := JS.Math_round (cost * Q2Qc (7 # 10))%Qc in
    ({| keep := keep opt;
        replace := replace opt ++ [{| original := loc;
                                      alternative := "Free/cheaper alternative nearby";
                                      savings := s |}];
        remove := remove opt |}, (saved + JS.ofZ s)%Qc)
  else if bool_decide (JS.ofZ 30 < cost)%Qc && bool_decide (5 < count)%nat then
    ({| keep := keep opt; replace := replace opt;
        remove := remove opt ++ [{| location := loc;
                                    reason := "Lowest priority based on ratings and distance" |}] |},
     (saved + cost)%Qc)
  else
    ({| keep := keep opt ++ [{| location := loc; reason := "Good value" |}];
        replace := replace opt; remove := remove opt |}, saved).

Definition simpleOptimization (locs : list Location) (currentTotal targetBudget : Qc)
    : BudgetOptimization :=
  let overage := (currentTotal - targetBudget)%Qc in
  let sorted := JS.sort byCostDescending locs in
  fst (fold_left (decide_one (length locs) overage) sorted
         ({| keep := []; replace := []; remove := [] |}, 0%Qc)).

(** [optimizeBudget] asks the chat service first.  [answer] is what came
    back after parsing: [Some] for a reply that parsed into keep, replace
    and remove lists, [None] for a failed call or a reply that did not
    parse; both of the latter fall back to [simpleOptimization].  Two
    runs are outside the model: the call that throws because no chat
    session could be created, and the reply whose lists do not hold
    entries of the declared shape; both end [process] with
    [success: false]. *)
Definition optimizeBudget (answer : option BudgetOptimization)
    (locs : list Location) (currentTotal targetBudget : Qc) : BudgetOptimization :=
  match answer with
  | Some parsed => parsed
  | None => simpleOptimization locs currentTotal targetBudget
  end.

Definition applyOptimization (locs : list Location) (opt : BudgetOptimization)
    : list Location :=
  let removeIds : gset string := list_to_set ((fun r => id (location r)) <$> remove opt) in
  filter (fun l => id l ∉ removeIds) locs.

Definition process (answer : option BudgetOptimization)
    (locs : list Location) (preferences : TripPreferences) (numDays : Z) : BudgetOutput :=
  let breakdown := calculateBreakdown locs numDays in
  let isOverBudget := bool_decide (budget preferences < total breakdown)%Qc in
  let overageAmount := JS.Math_max 0 (total breakdown - budget preferences)%Qc in
  if isOverBudget then
    let opt := optimizeBudget answer locs (total breakdown) (budget preferences) in
    {| breakdown := breakdown; isOverBudget := isOverBudget; overageAmount := overageAmount;
       optimization := Some opt; adjustedLocations := Some (applyOptimization locs opt) |}
  else
    {| breakdown := breakdown; isOverBudget := isOverBudget; overageAmount := overageAmount;
       optimization := None; adjustedLocations := None |}.

End BudgetAgent.

(** ** TimeAgent (backend/src/agents/timeAgent.ts) *)
Module TimeAgent.

(** The texts of [generateTimeNotes]: "Perfect for sunset views", "Best
    time - fewer crowds", "Freshest produce available" and "Consider
    making a reservation". *)
Inductive TimeNote := PerfectForSunset | FewerCrowds | FreshestProduce | ConsiderReservation.

Record TimeSlot := {
  locationId : string;
  startTime : string;
  endTime : string;
  duration : Z;
  travelTime : Z;
  isOptimalTime : bool;
  notes : option TimeNote
}.

(** [totalDuration] is [None] when it is [NaN]. *)
Record DaySchedule := {
  date : string;
  slots : list TimeSlot;
  totalDuration : option Z;
  restBreaks : Z
}.

Record TimeOrchestratorOutput := {
  schedules : list DaySchedule;
  warnings : list string;
  suggestions : list string
}.

Definition getOptimalStartTime (location : Location) : Z :=
  match type location with
  | viewpoint => 17 * 60
  | market => 10 * 60
  | restaurant =>
      if JS.includes (JS.toLowerCase (name location)) "breakfast" then 8 * 60
      else if JS.includes (JS.toLowerCase (name location)) "dinner" then 19 * 60
      else 12 * 60
  | attraction => 9 * 60
  | _ => 11 * 60
  end.

Definition sortByOptimalTime (locs : list Location) : list Location :=
  JS.sort (fun a b => JS.ofZ (getOptimalStartTime a - getOptimalStartTime b)) locs.

(** [durations[location.type] || 45]: the table's [0] for an
    accommodation is falsy, so it too gets 45. *)
Definition estimateVisitDuration (location : Location) : Z :=
  JS.orInt
    (Some match type location with
          | restaurant => 75
          | attraction => 90
          | activity => 120
          | accommodation => 0
          | viewpoint => 45
          | market => 60
          | temple => 60
          | cafe => 45
          | other => 45
          end) 45.

(** [Math.floor(currentTime / 60)] of a clock that may be [NaN]. *)
Definition hourOf (currentTime : option Z) : option Z := (fun t => t / 60) <$> currentTime.

(** [lo <= hour && hour <= hi], false on [NaN]. *)
Definition hourWithin (hour : option Z) (lo hi : Z) : bool :=
  match hour with
  | Some h => (lo <=? h) && (h <=? hi)
  | None => false
  end.

Definition adjustForMealTime (location : Location) (currentTime : option Z)
    : bool * option Z :=
  if bool_decide (type location <> restaurant) then (false, currentTime)
  else
    let hour := hourOf currentTime in
    match hour with
    | Some h =>
        if (11 <=? h) && (h <? 12) then (true, Some (12 * 60))
        else if (17 <=? h) && (h <? 18) then (true, Some (18 * 60))
        else (false, currentTime)
    | None => (false, currentTime)
    end.

Definition isOptimalVisitTime (location : Location) (currentTime : option Z) : bool :=
  let hour := hourOf currentTime in
  match type location with
  | viewpoint => hourWithin hour 16 19
  | attraction => hourWithin hour 9 11
  | market => hourWithin hour 8 11
  | restaurant => hourWithin hour 12 14 || hourWithin hour 18 21
  | _ => true
  end.

Definition generateTimeNotes (location : Location) (currentTime : option Z) : option TimeNote :=
  let hour := hourOf currentTime in
  if bool_decide (type location = viewpoint) && hourWithin hour 16 18 then Some PerfectForSunset
  else if bool_decide (type location = attraction) && hourWithin hour 9 10 then Some FewerCrowds
  else if bool_decide (type location = market) && hourWithin hour 8 10 then Some FreshestProduce
  else if bool_decide (type location = restaurant) then Some ConsiderReservation
  else None.

(** [%] is the remainder that takes the sign of the dividend. *)
Definition minutesToTime (minutes : option Z) : string :=
  let hours := (fun m => Z.rem (m / 60) 24) <$> minutes in
  let mins := (fun m => Z.rem m 60) <$> minutes in
  JS.padStart 2 "0" (JS.toString hours) +:+ ":" +:+ JS.padStart 2 "0" (JS.toString mins).

(** [preferences.startTime ? parseInt(preferences.startTime.split(':')[0]) : 9];
    [None] is [NaN]. *)
Definition startHourOf (preferences : TripPreferences) : option Z :=
  match Types.startTime preferences with
  | None | Some EmptyString => Some 9
  | Some s => JS.parseInt (default "" (head (JS.split ":" s)))
  end.

Section Scheduling.

(** The distance is floating point trigonometry, and the date of a day
    comes from the JS [Date] of [preferences.startDate], or of the
    present moment, moved by [dayIndex] days: both are parameters.
    [isoDate] is [None] when [startDate] is not a date: [toISOString]
    then throws a [RangeError].  The distance is a number: one that is
    [NaN], which makes the travel time and the clock [NaN], is outside
    the model.  The clock is an exact integer; the doubles of the
    engine hold it exactly below 2^53. *)
Variable haversineDistance : Coordinates -> Coordinates -> Qc.
Variable isoDate : option string -> Z -> option string.

Definition estimateTravelTime (from to : Location) : Z :=
  match coordinates from, coordinates to with
  | Some a, Some b =>
      let distance := haversineDistance a b in
      let timeHours := (distance / JS.ofZ 15)%Qc in
      Z.max 10 (JS.Math_round (timeHours * JS.ofZ 60)%Qc)
  | _, _ => 20
  end.

(** The variables of the loop of [createDaySchedule]. *)
Record Walk := {
  w_slots : list TimeSlot;
  w_currentTime : option Z;
  w_restBreaks : Z
}.

(** One round of [for (let i = 0; i < sortedLocations.length; i++)]. *)
Definition placeLocation (sortedLocations : list Location) (i : nat)
    (location : Location) (w : Walk) : Walk :=
  let duration := estimateVisitDuration location in
  let travelTime :=
    match i, sortedLocations !! (i - 1)%nat with
    | S _, Some previous => estimateTravelTime previous location
    | _, _ => 0
    end in
  let currentTime := Z.add travelTime <$> w_currentTime w in
  let break := bool_decide (0 < i)%nat && bool_decide (i mod 3 = 0)%nat
               && bool_decide (0 < length (w_slots w))%nat in
  let currentTime := if break then Z.add 20 <$> currentTime else currentTime in
  let restBreaks := if break then w_restBreaks w + 1 else w_restBreaks w in
  let mealAdjustment := adjustForMealTime location currentTime in
  let currentTime := if fst mealAdjustment then snd mealAdjustment else currentTime in
  let slot :=
    {| locationId := id location;
       startTime := minutesToTime currentTime;
       endTime := minutesToTime (Z.add duration <$> currentTime);
       duration := duration;
       travelTime := travelTime;
       isOptimalTime := isOptimalVisitTime location currentTime;
       notes := generateTimeNotes location currentTime |} in
  {| w_slots := w_slots w ++ [slot];
     w_currentTime := Z.add duration <$> currentTime;
     w_restBreaks := restBreaks |}.

Fixpoint walk (sortedLocations : list Location) (i : nat) (todo : list Location)
    (w : Walk) : Walk :=
  match todo with
  | [] => w
  | location :: rest => walk sortedLocations (S i) rest (placeLocation sortedLocations i location w)
  end.

(** [None] is the exception of the date. *)
Definition createDaySchedule (locs : list Location) (dayIndex : Z)
    (preferences : TripPreferences) : option DaySchedule :=
  let startHour := startHourOf preferences in
  let start := Z.mul 60 <$> startHour in
  let sortedLocations := sortByOptimalTime locs in
  let w := walk sortedLocations 0 sortedLocations
             {| w_slots := []; w_currentTime := start; w_restBreaks := 0 |} in
  match isoDate (startDate preferences) dayIndex with
  | None => None
  | Some day =>
      Some {| date := day;
              slots := w_slots w;
              totalDuration :=
                match w_currentTime w, start with
                | Some t, Some t0 => Some (t - t0)
                | _, _ => None
                end;
              restBreaks := w_restBreaks w |}
  end.

(** One round of [for (let day = 0; day < numDays; day++)]; the state is
    [schedules] and [warnings], and [None] is an exception. *)
Definition planDay (orderedLocations : list Location) (locationsPerDay : Z)
    (preferences : TripPreferences)
    (st : list DaySchedule * list string) (day : Z)
    : option (list DaySchedule * list string) :=
  let '(schedules, warnings) := st in
  let dayLocations :=
    JS.slice (day * locationsPerDay) ((day + 1) * locationsPerDay) orderedLocations in
  if bool_decide (length dayLocations = 0%nat) then Some st
  else
    match createDaySchedule dayLocations day preferences with
    | None => None
    | Some schedule =>
        let warnings :=
          match totalDuration schedule with
          | Some t =>
              if bool_decide (10 * 60 < t) then
                warnings ++ ["Day " +:+ pretty (day + 1) +:+ " is quite packed ("
                             +:+ pretty (JS.Math_round (JS.ofZ t / JS.ofZ 60)%Qc)
                             +:+ " hours). Consider moving some activities."]
              else warnings
          | None => warnings
          end in
        Some (schedules ++ [schedule], warnings)
    end.

(** The loop over the days; an exception ends it. *)
Fixpoint planDays (orderedLocations : list Location) (locationsPerDay : Z)
    (preferences : TripPreferences) (days : list Z)
    (st : list DaySchedule * list string) : option (list DaySchedule * list string) :=
  match days with
  | [] => Some st
  | day :: rest =>
      match planDay orderedLocations locationsPerDay preferences st day with
      | None => None
      | Some st => planDays orderedLocations locationsPerDay preferences rest st
      end
  end.

(** [process]: the parameter [locs] is declared and never read; the
    locations scheduled are those of [clusters].  [None] is the result
    with [success: false] that the [catch] returns. *)
Definition process (clusters : list ClusterGroup) (locs : list Location)
    (preferences : TripPreferences) (numDays : Z) : option TimeOrchestratorOutput :=
  let orderedLocations := clusters ≫= locations in
  let locationsPerDay :=
    JS.Math_ceil (JS.ofZ (Z.of_nat (length orderedLocations)) / JS.ofZ numDays)%Qc in
  match planDays orderedLocations locationsPerDay preferences (seqZ 0 numDays) ([], []) with
  | None => None
  | Some (schedules, warnings) =>
      let viewpoints :=
        if existsb (fun l => bool_decide (type l = viewpoint)) orderedLocations then
          ["Viewpoints are best visited during golden hour (sunrise/sunset) for the best experience."]
        else [] in
      let restaurants :=
        if bool_decide (3 < length (filter (fun l => type l = restaurant) orderedLocations))%nat then
          ["Consider booking restaurants in advance, especially for dinner."]
        else [] in
      Some {| schedules := schedules; warnings := warnings;
              suggestions := viewpoints ++ restaurants |}
  end.

End Scheduling.

End TimeAgent.

(** ** AgentOrchestrator, stages 6 and 7 (backend/src/agents/orchestrator.ts) *)
Module AgentOrchestrator.

Section Stages.

Variable haversineDistance : Coordinates -> Coordinates -> Qc.
Variable isoDate : option string -> Z -> option string.

(** [Math.max(1, Math.ceil(finalLocations.length / 5))]. *)
Definition numDaysFor (finalLocations : list Location) : Z :=
  Z.max 1 (JS.Math_ceil (JS.ofZ (Z.of_nat (length finalLocations)) / JS.ofZ 5)%Qc).

Record Scheduled := {
  budgetResult : BudgetAgent.BudgetOutput;
  budgetLocations : list Location;
  timeResult : TimeAgent.TimeOrchestratorOutput
}.

(** From the clusters of stage 5 to the schedules of stage 7; [answer] is
    the parsed reply of the chat service (see [BudgetAgent.optimizeBudget]).
    [None] is the run ending in ["Scheduling failed"]. *)
Definition budgetThenTime (answer : option BudgetAgent.BudgetOptimization)
    (clusters : list ClusterGroup) (finalLocations : list Location)
    (preferences : TripPreferences) : option Scheduled :=
  let numDays := numDaysFor finalLocations in
  let budgetResult := BudgetAgent.process answer finalLocations preferences numDays in
  let budgetLocations :=
    default finalLocations (BudgetAgent.adjustedLocations budgetResult) in
  match TimeAgent.process haversineDistance isoDate clusters budgetLocations
          preferences numDays with
  | None => None
  | Some timeResult =>
      Some {| budgetResult := budgetResult;
              budgetLocations := budgetLocations;
              timeResult := timeResult |}
  end.

End Stages.

End AgentOrchestrator.

(** ** Vocabulary of the specification *)
Module Spec.

Definition sumQc (xs : list Qc) : Qc := foldr Qcplus 0%Qc xs.

(** The arithmetic mean of the specification: the sum over the count. *)
Definition arithmeticMean (xs : list Qc) : Qc :=
  (sumQc xs / JS.ofZ (Z.of_nat (length xs)))%Qc.

Definition meanPoint (points : list Coordinates) : Coordinates :=
  {| lat := arithmeticMean (lat <$> points); lng := arithmeticMean (lng <$> points) |}.

(** A centroid function that hands back the default its caller supplies
    on an empty input.  Neither [calculateCentroid] has a parameter for
    one, so the caller's default can only be compared with the result. *)
Definition returnsCallerDefault (centroid : list Coordinates -> Coordinates) : Prop :=
  forall callerDefault : Coordinates, centroid [] = callerDefault.

(** The minute of the day a rendered ["HH:MM"] stands for. *)
Definition minutesOfTime (s : string) : option Z :=
  match JS.split ":" s with
  | [h; m] =>
      match JS.parseInt h, JS.parseInt m with
      | Some h, Some m => Some (h * 60 + m)
      | _, _ => None
      end
  | _ => None
  end.

(** [preferences] with another [endTime]. *)
Definition withEndTime (e : option string) (p : TripPreferences) : TripPreferences :=
  {| budget := budget p; currency := currency p; companions := companions p;
     travelStyle := travelStyle p; startDate := startDate p; endDate := endDate p;
     Types.startTime := Types.startTime p; Types.endTime := e |}.

(** The minutes of visiting that a list of locations asks for. *)
Definition totalVisit (locs : list Location) : Z :=
  foldr (fun l acc => TimeAgent.estimateVisitDuration l + acc) 0 locs.

(** The locations of one day: the slice that [process] takes for it. *)
Definition dayChunk (orderedLocations : list Location) (locationsPerDay day : Z)
    : list Location :=
  JS.slice (day * locationsPerDay) ((day + 1) * locationsPerDay) orderedLocations.

(** The chunks of the days that [process] does not skip. *)
Definition emittedChunks (orderedLocations : list Location) (numDays : Z)
    : list (list Location) :=
  let locationsPerDay :=
    JS.Math_ceil (JS.ofZ (Z.of_nat (length orderedLocations)) / JS.ofZ numDays)%Qc in
  filter (fun chunk => chunk <> [])
         (dayChunk orderedLocations locationsPerDay <$> seqZ 0 numDays).

(** The cost the budget fallback sorts by: [estimatedCost || 0]. *)
Definition cost (l : Location) : Qc := JS.orNum (estimatedCost l) 0.

(** The ids of the locations that the budget optimization removes. *)
Definition removedIds (out : BudgetAgent.BudgetOutput) : list string :=
  match BudgetAgent.optimization out with
  | Some opt => (fun r => id (BudgetAgent.location r)) <$> BudgetAgent.remove opt
  | None => []
  end.

(** The location ids of all slots of all day schedules. *)
Definition slotIds (out : TimeAgent.TimeOrchestratorOutput) : list string :=
  TimeAgent.locationId <$> concat (TimeAgent.slots <$> TimeAgent.schedules out).

(** The members of all clusters, cluster after cluster. *)
Definition members (clusters : list ClusterGroup) : list Location :=
  clusters ≫= locations.

(** The set of the ids of some locations. *)
Definition idsOf (ls : list Location) : gset string := list_to_set (id <$> ls).

(** A cluster that took, when it was seeded, every location within the
    radius of its seed that no earlier cluster held. *)
Definition seeded (haversineDistance : Coordinates -> Coordinates -> Qc)
    (all : list Location) (earlier : list ClusterGroup) (c : ClusterGroup) : Prop :=
  exists seed sc rest,
    locations c = seed :: rest
    /\ coordinates seed = Some sc
    /\ forall o oc,
         o ∈ all -> coordinates o = Some oc ->
         (haversineDistance sc oc <= ClusteringAgent.CLUSTER_RADIUS_KM)%Qc ->
         id o ∈ idsOf (members earlier) ∪ idsOf (locations c).

(** What the outer loop keeps true of [clusters] and [assigned]. *)
Record clustered (haversineDistance : Coordinates -> Coordinates -> Qc)
    (all : list Location) (clusters : list ClusterGroup) (assigned : gset string) : Prop := {
  clustered_assigned : assigned = idsOf (members clusters);
  clustered_NoDup : NoDup (id <$> members clusters);
  clustered_members : forall l, l ∈ members clusters -> l ∈ all /\ is_Some (coordinates l);
  clustered_seeded :
    forall i c, clusters !! i = Some c -> seeded haversineDistance all (take i clusters) c
}.

(** The object at position [i] of an array of locations.  Every entry of
    an array built by the pipeline is an object of its own (the
    clustering pushes a location only when its id is not yet assigned),
    so the position of an entry serves as the reference to its object. *)
Definition objectAt (pois : list Location) (i : nat) : Location :=
  nth i pois
    {| id := ""; name := ""; address := None; coordinates := None; type := other;
       rating := None; priceLevel := None; estimatedCost := None; verified := false |}.

(** [optimizeClusterOrder] on an array whose entries are objects of their
    own: the router of the specification. *)
Definition routeWithinCluster (haversineDistance : Coordinates -> Coordinates -> Qc)
    (pois : list Location) : option (list Location) :=
  match ClusteringAgent.optimizeClusterOrder (objectAt pois) haversineDistance
          (seq 0 (length pois)) with
  | Some order => Some (objectAt pois <$> order)
  | None => None
  end.

(** The same-cluster property as the specification words it: two
    locations within the radius of the seed of a cluster (its first
    member) are members of one cluster. *)
Definition nearSeedSameCluster (haversineDistance : Coordinates -> Coordinates -> Qc)
    (all : list Location) : Prop :=
  forall (c : ClusterGroup) (seed p q : Location) (sc pc qc : Coordinates),
    c ∈ ClusteringAgent.clusterByProximity haversineDistance all ->
    head (locations c) = Some seed -> coordinates seed = Some sc ->
    p ∈ all -> coordinates p = Some pc ->
    q ∈ all -> coordinates q = Some qc ->
    (haversineDistance sc pc <= ClusteringAgent.CLUSTER_RADIUS_KM)%Qc ->
    (haversineDistance sc qc <= ClusteringAgent.CLUSTER_RADIUS_KM)%Qc ->
    exists c', c' ∈ ClusteringAgent.clusterByProximity haversineDistance all
               /\ p ∈ locations c' /\ q ∈ locations c'.

(** A distance for the examples: on the equator the great-circle
    distance of two points is the earth radius times their difference of
    longitude in radians; 355/113 stands for pi (the error is below one
    part in ten million). *)
Definition equatorKm (a b : Coordinates) : Qc :=
  let d := (lng b - lng a)%Qc in
  let d := if bool_decide (d < 0)%Qc then (- d)%Qc else d in
  (JS.ofZ 6371 * (d * Q2Qc (355 # 113) / JS.ofZ 180))%Qc.

(** A date for the examples: the start date and the day's index. *)
Definition dayLabel (start : option string) (dayIndex : Z) : option string :=
  Some (default "today" start +:+ "+" +:+ pretty dayIndex).

(** A location of the examples. *)
Definition poi (i : string) (t : LocationType) (c : option Coordinates)
    (cost : option Qc) : Location :=
  {| id := i; name := i; address := None; coordinates := c; type := t;
     rating := None; priceLevel := None; estimatedCost := cost; verified := true |}.

(** The point of the equator at longitude [thousandths / 1000] degrees. *)
Definition onEquator (thousandths : Z) : option Coordinates :=
  Some {| lat := 0; lng := Q2Qc (thousandths # 1000) |}.

(** Four points of the equator, 2.2 km from one to the next. *)
Definition fourOnALine : list Location :=
  [poi "w" temple (onEquator 0) None;
   poi "x" cafe (onEquator 20) None;
   poi "y" market (onEquator 40) None;
   poi "z" viewpoint (onEquator 60) None].

(** Six attractions of 15 each, some hundred metres apart. *)
Definition sixAttractions : list Location :=
  [poi "a1" attraction (onEquator 0) (Some (JS.ofZ 15));
   poi "a2" attraction (onEquator 1) (Some (JS.ofZ 15));
   poi "a3" attraction (onEquator 2) (Some (JS.ofZ 15));
   poi "a4" attraction (onEquator 3) (Some (JS.ofZ 15));
   poi "a5" attraction (onEquator 4) (Some (JS.ofZ 15));
   poi "a6" attraction (onEquator 5) (Some (JS.ofZ 15))].

(** Five attractions of 15 and a kayak tour of 40, some hundred metres apart. *)
Definition fiveAttractionsAndKayak : list Location :=
  [poi "a1" attraction (onEquator 0) (Some (JS.ofZ 15));
   poi "a2" attraction (onEquator 1) (Some (JS.ofZ 15));
   poi "kayak" activity (onEquator 2) (Some (JS.ofZ 40));
   poi "a3" attraction (onEquator 3) (Some (JS.ofZ 15));
   poi "a4" attraction (onEquator 4) (Some (JS.ofZ 15));
   poi "a5" attraction (onEquator 5) (Some (JS.ofZ 15))].

Definition tripPreferences (b : Z) (start : option string) : TripPreferences :=
  {| budget := JS.ofZ b; currency := "USD"; companions := solo; travelStyle := [];
     startDate := None; endDate := None;
     Types.startTime := start; Types.endTime := Some "21:00" |}.

(** The minutes of visiting that the clustering counts for a list of
    locations. *)
Definition suggestedVisit (locs : list Location) : Z :=
  foldr (fun l acc => ClusteringAgent.estimateDuration l + acc) 0 locs.

(** The minutes of visiting and of travel that the slots of a day
    account for. *)
Definition slotMinutes (slots : list TimeAgent.TimeSlot) : Z :=
  foldr (fun s acc => TimeAgent.duration s + TimeAgent.travelTime s + acc) 0 slots.

(** The locations that a traveller's preferences rule out: a market on
    a family trip, and a place of price level 4, other than a market,
    for the travel style "budget". *)
Definition ruledOut (preferences : TripPreferences) (l : Location) : Prop :=
  (companions preferences = family /\ type l = market)
  \/ ("budget" ∈ travelStyle preferences /\ priceLevel l = Some 4 /\ type l <> market).

(** The partition property as the specification words it: every input
    location that has coordinates is a member of exactly one cluster,
    and a location without coordinates is a member of none. *)
Definition partitionsLocated (haversineDistance : Coordinates -> Coordinates -> Qc)
    (all : list Location) : Prop :=
  let clusters := ClusteringAgent.clusterByProximity haversineDistance all in
  (forall l, l ∈ all -> is_Some (coordinates l) ->
     exists i c, clusters !! i = Some c /\ l ∈ locations c
                 /\ forall j c', clusters !! j = Some c' -> l ∈ locations c' -> j = i)
  /\ (forall l, l ∈ all -> coordinates l = None -> l ∉ members clusters).

(** Two places that carry one id, as the places of the mock search all
    do, some 55 km apart. *)
Definition twoSharingAnId : list Location :=
  [poi "mock-1" temple (onEquator 0) None;
   poi "mock-1" attraction (onEquator 500) None].

(** A cluster created before the cluster at position [i] has a member
    with the id of [p]: [assigned] holds the id when the cluster at [i]
    is built. *)
Definition takenEarlier (haversineDistance : Coordinates -> Coordinates -> Qc)
    (all : list Location) (i : nat) (p : Location) : Prop :=
  exists j c' m,
    (j < i)%nat
    /\ ClusteringAgent.clusterByProximity haversineDistance all !! j = Some c'
    /\ m ∈ locations c' /\ id m = id p.

(** The end of a slot reads earlier in the day than its start. *)
Definition endsBeforeStart (slot : TimeAgent.TimeSlot) : Prop :=
  exists a b,
    minutesOfTime (TimeAgent.startTime slot) = Some a
    /\ minutesOfTime (TimeAgent.endTime slot) = Some b
    /\ b < a.

(** The last clause of the claim as the specification words it: a day
    schedule whose clock, started at [startHour], crosses midnight has a
    slot whose end reads earlier in the day than its start. *)
Definition crossingMidnightShows (s : TimeAgent.DaySchedule) (startHour : Z) : Prop :=
  forall t, TimeAgent.totalDuration s = Some t ->
            60 * startHour < 1440 <= 60 * startHour + t ->
            exists slot, slot ∈ TimeAgent.slots s /\ endsBeforeStart slot.

(** A slot written at the clock value [clock]: its start and its end
    render [clock] and [clock] plus the visit; read back, they are the
    minute [clock mod 1440] of the day and the minute one visit later,
    modulo a day. *)
Definition writtenAt (clock : Z) (slot : TimeAgent.TimeSlot) : Prop :=
  TimeAgent.startTime slot = TimeAgent.minutesToTime (Some clock)
  /\ TimeAgent.endTime slot
     = TimeAgent.minutesToTime (Some (clock + TimeAgent.duration slot))
  /\ 0 < TimeAgent.duration slot <= 120
  /\ minutesOfTime (TimeAgent.startTime slot) = Some (clock mod 1440)
  /\ minutesOfTime (TimeAgent.endTime slot)
     = Some ((clock mod 1440 + TimeAgent.duration slot) mod 1440).

(** A museum and a bar nine kilometres away. *)
Definition nightOut : list Location :=
  [poi "museum" attraction (onEquator 0) None;
   poi "bar" cafe (onEquator 81) None].

(** Costs that the doubles of the engine add and scale without
    rounding: the cost counted for every location is a multiple of one
    half that is not negative, the number of days is a positive integer,
    and the costs of all locations, times the number of days, stay below
    2^50. *)
Definition exactCosts (locs : list Location) (numDays : Z) : Prop :=
  Forall (fun l => exists k : Z,
            0 <= k
            /\ JS.orNum (estimatedCost l) (BudgetAgent.estimateCost l)
               = (JS.ofZ k / JS.ofZ 2)%Qc) locs
  /\ 1 <= numDays
  /\ (sumQc ((fun l => JS.orNum (estimatedCost l) (BudgetAgent.estimateCost l)) <$> locs)
      * JS.ofZ numDays <= JS.ofZ (2 ^ 50))%Qc.

End Spec.

(** ** VibeAgent (backend/src/agents/vibeAgent.ts) *)
Module VibeAgent.

Inductive Aesthetic := luxury | budget | local | touristy | hidden_gem.
Inductive Ambiance := romantic | family_friendly | adventure | relaxed | vibrant.
Inductive CrowdLevel := low | medium | high.

#[global] Instance Aesthetic_eq_dec : EqDecision Aesthetic.
Proof. solve_decision. Defined.

#[global] Instance Ambiance_eq_dec : EqDecision Ambiance.
Proof. solve_decision. Defined.

#[global] Instance Companions_eq_dec : EqDecision Companions.
Proof. solve_decision. Defined.

Record VibeScore := {
  aesthetic : Aesthetic;
  ambiance : Ambiance;
  crowdLevel : CrowdLevel
}.

Definition inferLocationVibe (location : Location) : VibeScore :=
  let aesthetic :=
    if bool_decide (priceLevel location = Some 4) then luxury
    else if bool_decide (priceLevel location = Some 1) then budget
    else local in
  match type location with
  | attraction => {| aesthetic := aesthetic; ambiance := relaxed; crowdLevel := high |}
  | restaurant =>
      {| aesthetic := aesthetic;
         (* priceLevel && priceLevel > 2 *)
         ambiance := if bool_decide (2 < JS.orInt (priceLevel location) 0) then romantic
                     else relaxed;
         crowdLevel := medium |}
  | activity => {| aesthetic := aesthetic; ambiance := adventure; crowdLevel := medium |}
  | viewpoint => {| aesthetic := aesthetic; ambiance := romantic; crowdLevel := low |}
  | market => {| aesthetic := local; ambiance := vibrant; crowdLevel := medium |}
  | _ => {| aesthetic := aesthetic; ambiance := relaxed; crowdLevel := medium |}
  end.

Definition isCompatible (vibe : VibeScore) (preferences : TripPreferences) : bool :=
  let style := travelStyle preferences in
  if bool_decide (companions preferences = family) && bool_decide (ambiance vibe = vibrant)
  then false
  else if bool_decide ("budget" ∈ style) && bool_decide (aesthetic vibe = luxury)
  then false
  else true.

(** The body of [for (const location of locations)] of [process], as far
    as [incompatibleLocations] goes; [preferences] is an optional
    parameter. *)
Definition checkLocation (preferences : option TripPreferences)
    (incompatibleLocations : list string) (location : Location) : list string :=
  let vibe := inferLocationVibe location in
  match preferences with
  | Some p =>
      if isCompatible vibe p then incompatibleLocations
      else incompatibleLocations ++ [id location]
  | None => incompatibleLocations
  end.

Definition incompatibleLocations (locs : list Location)
    (preferences : option TripPreferences) : list string :=
  fold_left (checkLocation preferences) locs [].

End VibeAgent.

(** ** ItineraryAgent (backend/src/agents/itineraryAgent.ts) *)
Module ItineraryAgent.

Inductive TravelMode := walking | driving | transit.

(** The texts of [generateTips], in the order of the source: the optimal
    time, reservations, dress code, tickets, camera, walking shoes, cash,
    souvenirs, highly rated. *)
Inductive Tip :=
  | OptimalTime | Reservations | DressCode | BuyTickets | BringCamera
  | WalkingShoes | BringCash | Souvenirs | HighlyRated.

Record ItineraryItem := {
  location : Location;
  startTime : string;
  endTime : string;
  duration : Z;
  travelTime : Z;
  travelMode : TravelMode;
  notes : option TimeAgent.TimeNote;
  tips : list Tip
}.

Record DayItinerary := {
  date : string;
  dayNumber : Z;
  title : string;
  items : list ItineraryItem;   (* the field [locations] *)
  totalCost : Qc;
  totalDistance : Qc
}.

(** [new Map(locations.map(l => [l.id, l]))]: a later entry replaces an
    earlier one of the same id. *)
Definition locationMap (locs : list Location) : gmap string Location :=
  fold_left (fun m l => <[id l := l]> m) locs ∅.

Definition getLocationsForDay (locs : list Location) (slots : list TimeAgent.TimeSlot)
    : list Location :=
  omap (fun slot => locationMap locs !! TimeAgent.locationId slot) slots.

Definition determineTravelMode (travelTime : Z) : TravelMode :=
  if bool_decide (travelTime <= 15) then walking
  else if bool_decide (travelTime <= 30) then transit
  else driving.

Definition generateTips (location : Location) (slot : TimeAgent.TimeSlot) : list Tip :=
  let timeTips := if TimeAgent.isOptimalTime slot then [OptimalTime] else [] in
  let typeTips :=
    match type location with
    | restaurant =>
        Reservations ::
        (if bool_decide (3 <= JS.orInt (priceLevel location) 0) then [DressCode] else [])
    | attraction => [BuyTickets; BringCamera]
    | temple | viewpoint => [WalkingShoes]
    | market => [BringCash; Souvenirs]
    | _ => []
    end in
  let ratingTips :=
    match rating location with
    | Some r => if bool_decide (Q2Qc (45 # 10) <= r)%Qc then [HighlyRated] else []
    | None => []
    end in
  take 3 (timeTips ++ typeTips ++ ratingTips).

Definition generateDayTitle (locs : list Location) (dayNumber : Z) : string :=
  let types := type <$> locs in
  let day := "Day " +:+ pretty dayNumber in
  if bool_decide (2 <= length (filter (fun t => t = restaurant) types))%nat then
    day +:+ ": Culinary Exploration"
  else if bool_decide (attraction ∈ types) && bool_decide (viewpoint ∈ types) then
    day +:+ ": Sights & Scenery"
  else if bool_decide (2 <= length (filter (fun t => t = activity) types))%nat then
    day +:+ ": Adventure Day"
  else if bool_decide (market ∈ types) || bool_decide (attraction ∈ types) then
    day +:+ ": Culture & Discovery"
  else day +:+ ": Explore & Experience".

Section Writing.

(** [calculateDistance] is the great-circle distance again. *)
Variable calculateDistance : Coordinates -> Coordinates -> Qc.

(** The variables of the loop of [createDayItinerary]. *)
Record Written := {
  w_items : list ItineraryItem;
  w_totalCost : Qc;
  w_totalDistance : Qc
}.

(** One round of [for (let i = 0; i < schedule.slots.length; i++)]:
    [locations[i]] is [undefined] past the end of [locations], and the
    round is skipped. *)
Definition writeItem (locs : list Location) (w : Written)
    (entry : nat * TimeAgent.TimeSlot) : Written :=
  let '(i, slot) := entry in
  match locs !! i with
  | None => w
  | Some location =>
      let item :=
        {| location := location;
           startTime := TimeAgent.startTime slot;
           endTime := TimeAgent.endTime slot;
           duration := TimeAgent.duration slot;
           travelTime := TimeAgent.travelTime slot;
           travelMode := determineTravelMode (TimeAgent.travelTime slot);
           notes := TimeAgent.notes slot;
           tips := generateTips location slot |} in
      let leg :=
        match i with
        | S j =>
            match locs !! j ≫= coordinates, coordinates location with
            | Some a, Some b => calculateDistance a b
            | _, _ => 0%Qc
            end
        | O => 0%Qc
        end in
      {| w_items := w_items w ++ [item];
         w_totalCost := (w_totalCost w + JS.orNum (estimatedCost location) 0)%Qc;
         w_totalDistance := (w_totalDistance w + leg)%Qc |}
  end.

Definition createDayItinerary (schedule : TimeAgent.DaySchedule) (locs : list Location)
    (dayNumber : Z) : DayItinerary :=
  let slots := TimeAgent.slots schedule in
  let w := fold_left (writeItem locs) (zip (seq 0 (length slots)) slots)
             {| w_items := []; w_totalCost := 0; w_totalDistance := 0 |} in
  {| date := TimeAgent.date schedule;
     dayNumber := dayNumber;
     title := generateDayTitle locs dayNumber;
     items := w_items w;
     totalCost := w_totalCost w;
     totalDistance := (JS.ofZ (JS.Math_round (w_totalDistance w * JS.ofZ 100)) / JS.ofZ 100)%Qc |}.

(** The loop of [process] over the schedules: day [i + 1] is written from
    [schedules[i]] and the locations found for its slots. *)
Definition writeDays (locs : list Location) (schedules : list TimeAgent.DaySchedule)
    : list DayItinerary :=
  (fun entry : nat * TimeAgent.DaySchedule =>
     createDayItinerary (snd entry)
       (getLocationsForDay locs (TimeAgent.slots (snd entry)))
       (Z.of_nat (fst entry) + 1))
  <$> zip (seq 0 (length schedules)) schedules.

(** [calculateTotalBudget]. *)
Definition calculateTotalBudget (days : list DayItinerary) : Qc :=
  fold_left (fun sum day => (sum + totalCost day)%Qc) days 0%Qc.

End Writing.

End ItineraryAgent.

(** ** ClusteringAgent.process (backend/src/agents/clusteringAgent.ts) *)
Module ClusteringStage.

(** The result of an agent: [success: true] with its data, or
    [success: false] with an error message. *)
Inductive AgentResult (A : Type) :=
  | success (data : A)
  | failure (error : string).
Arguments success {A} data.
Arguments failure {A} error.

Record ClusteringOutput := {
  clusters : list ClusterGroup;
  optimizedOrder : list Location;
  totalDistance : Qc;
  mapUrl : string
}.

(** The cluster at position [i] of an array of clusters; the clusters
    that [clusterByProximity] builds are objects of their own, so the
    position of an entry serves as the reference to its object. *)
Definition clusterAt (clusters : list ClusterGroup) (i : nat) : ClusterGroup :=
  nth i clusters
    {| cg_id := ""; cg_name := ""; centroid := {| lat := 0; lng := 0 |};
       locations := []; suggestedDuration := 0 |}.

Section Process.

(** The distance, and the route link that [mapsService.generateMapsUrl]
    prints from the coordinates, are parameters. *)
Variable haversineDistance : Coordinates -> Coordinates -> Qc.
Variable generateMapsUrl : list Location -> string.

(** [cluster.locations = await this.optimizeClusterOrder(cluster.locations)];
    [None] is a call that does not return. *)
Definition routeCluster (cluster : ClusterGroup) : option ClusterGroup :=
  match Spec.routeWithinCluster haversineDistance (locations cluster) with
  | Some order =>
      Some {| cg_id := cg_id cluster; cg_name := cg_name cluster;
              centroid := centroid cluster; locations := order;
              suggestedDuration := suggestedDuration cluster |}
  | None => None
  end.

(** [None] is a run that does not return; the [catch] of the source
    has nothing to catch, as no modelled step throws. *)
Definition process (locs : list Location) : option (AgentResult ClusteringOutput) :=
  if bool_decide (length locs = 0%nat) then Some (failure "No locations to cluster")
  else
    let clusters := ClusteringAgent.clusterByProximity haversineDistance locs in
    match mapM routeCluster clusters with
    | None => None
    | Some clusters =>
        match ClusteringAgent.optimizeClusterSequence (clusterAt clusters)
                haversineDistance (seq 0 (length clusters)) with
        | None => None
        | Some sequence =>
            let orderedClusters := clusterAt clusters <$> sequence in
            let optimizedOrder := orderedClusters ≫= locations in
            Some (success
                    {| clusters := orderedClusters;
                       optimizedOrder := optimizedOrder;
                       totalDistance :=
                         ClusteringAgent.calculateTotalDistance haversineDistance optimizedOrder;
                       mapUrl := generateMapsUrl optimizedOrder |})
        end
    end.

End Process.

End ClusteringStage.

(** ** AgentOrchestrator, stages 4 to 7 (backend/src/agents/orchestrator.ts) *)
Module Pipeline.

Section Run.

Variable haversineDistance : Coordinates -> Coordinates -> Qc.
Variable isoDate : option string -> Z -> option string.
Variable generateMapsUrl : list Location -> string.

(** The message of the [RangeError] that [toISOString] throws on a date
    that is none; the time agent hands it on as its error. *)
Variable dateError : string.

(** Stage 4.  [vibeResult] is the [incompatibleLocations] of a vibe
    analysis that succeeded, [None] that of one that failed. *)
Definition finalLocationsOf (vibeResult : option (list string))
    (enrichedLocations : list Location) : list Location :=
  match vibeResult with
  | Some incompatibleLocations =>
      if bool_decide (0 < length incompatibleLocations)%nat
         && bool_decide (length incompatibleLocations < length enrichedLocations)%nat
      then filter (fun l => id l ∉ incompatibleLocations) enrichedLocations
      else enrichedLocations
  | None => enrichedLocations
  end.

Record Planned := {
  finalLocations : list Location;
  clustering : ClusteringStage.ClusteringOutput;
  scheduled : AgentOrchestrator.Scheduled
}.

(** Stages 4 to 7, from the enriched locations to the schedules.  The
    vibe analysis asks the chat service first: [vibeOk] tells whether
    that call returned (with or without a usable reply) or threw, which
    fails the analysis.  [failure] carries the message of the [throw].
    The budget stage is [BudgetAgent.process]: the runs it leaves out
    (see [BudgetAgent.optimizeBudget]), in which the orchestrator throws
    the error of the budget stage, are left out here too. *)
Definition vibeToTime (vibeOk : bool) (answer : option BudgetAgent.BudgetOptimization)
    (enrichedLocations : list Location) (preferences : TripPreferences)
    : option (ClusteringStage.AgentResult Planned) :=
  let vibeResult :=
    if vibeOk then Some (VibeAgent.incompatibleLocations enrichedLocations (Some preferences))
    else None in
  let finalLocations := finalLocationsOf vibeResult enrichedLocations in
  match ClusteringStage.process haversineDistance generateMapsUrl finalLocations with
  | None => None
  | Some (ClusteringStage.failure error) =>
      Some (ClusteringStage.failure (JS.orString (Some error) "Clustering failed"))
  | Some (ClusteringStage.success clusterResult) =>
      match AgentOrchestrator.budgetThenTime haversineDistance isoDate answer
              (ClusteringStage.clusters clusterResult) finalLocations preferences with
      | None =>
          Some (ClusteringStage.failure (JS.orString (Some dateError) "Scheduling failed"))
      | Some result =>
          Some (ClusteringStage.success
                  {| finalLocations := finalLocations;
                     clustering := clusterResult;
                     scheduled := result |})
      end
  end.

End Run.

End Pipeline.

(** * Properties *)

(** ** Centroids *)

Lemma sum_coordinates (cs : list Coordinates) (acc : Coordinates) :
  fold_left (fun acc coord =>
               {| lat := lat acc + lat coord; lng := lng acc + lng coord |}%Qc) cs acc
  = {| lat := lat acc + Spec.sumQc (lat <$> cs);
       lng := lng acc + Spec.sumQc (lng <$> cs) |}%Qc.
Proof.
  revert acc. induction cs as [|c cs IH]; intros [a b];
    cbn [fold_left fmap list_fmap Spec.sumQc foldr lat lng].
  - f_equal; ring.
  - rewrite IH. cbn [lat lng]. unfold Spec.sumQc. f_equal; ring.
Qed.

Lemma LocationAgent_centroid_cases (cs : list Coordinates) :
  LocationAgent.calculateCentroid cs =
  match cs with [] => LocationAgent.TOKYO | _ => Spec.meanPoint cs end.
Proof.
  unfold LocationAgent.calculateCentroid. destruct cs as [|c cs]; [reflexivity|].
  rewrite bool_decide_eq_false_2 by (simpl; lia).
  rewrite sum_coordinates. unfold Spec.meanPoint, Spec.arithmeticMean.
  rewrite !length_fmap. cbn [lat lng]. f_equal; f_equal; ring.
Qed.

Lemma ClusteringAgent_centroid_cases (locs : list Location) :
  ClusteringAgent.calculateCentroid locs =
  match omap coordinates locs with
  | [] => {| lat := 0; lng := 0 |}
  | cs => Spec.meanPoint cs
  end.
Proof.
  unfold ClusteringAgent.calculateCentroid. destruct (omap coordinates locs) as [|c cs]; [reflexivity|].
  rewrite bool_decide_eq_false_2 by (simpl; lia).
  rewrite sum_coordinates. unfold Spec.meanPoint, Spec.arithmeticMean.
  rewrite !length_fmap. cbn [lat lng]. f_equal; f_equal; ring.
Qed.

(** C9, as the specification states it, fails: on an empty input neither
    centroid returns a default chosen by its caller; a caller that wants
    the origin gets Tokyo from [LocationAgent.calculateCentroid]. *)
Lemma centroid_default_not_callers :
  ~ Spec.returnsCallerDefault LocationAgent.calculateCentroid.
Proof.
  intros H. specialize (H {| lat := 0; lng := 0 |}). discriminate H.
Qed.

(** C9, amended: on an input without points each centroid returns its own
    built-in constant (Tokyo, 35.6762 and 139.6503, in LocationAgent; the
    origin in ClusteringAgent, which first drops the locations without
    coordinates), never an undefined quotient; on any other input it
    returns the arithmetic mean of the latitudes and of the longitudes. *)
Theorem centroid_builtin_default_or_mean :
  (forall cs : list Coordinates,
      LocationAgent.calculateCentroid cs =
      match cs with [] => LocationAgent.TOKYO | _ => Spec.meanPoint cs end)
  /\ (forall locs : list Location,
      ClusteringAgent.calculateCentroid locs =
      match omap coordinates locs with
      | [] => {| lat := 0; lng := 0 |}
      | cs => Spec.meanPoint cs
      end).
Proof.
  split; [apply LocationAgent_centroid_cases | apply ClusteringAgent_centroid_cases].
Qed.

(** ** The stable sort *)
Section SortFacts.
Context {A : Type} (cmp : A -> A -> Qc).

Lemma insertSorted_Permutation (x : A) (l : list A) :
  JS.insertSorted cmp x l ≡ₚ x :: l.
Proof.
  induction l as [|y l IH]; simpl; [done|].
  case_bool_decide; [done|].
  rewrite IH. apply Permutation_swap.
Qed.

Lemma sort_Permutation (l : list A) : JS.sort cmp l ≡ₚ l.
Proof.
  induction l as [|x l IH]; simpl; [done|].
  rewrite insertSorted_Permutation. by rewrite IH.
Qed.

Lemma sort_length (l : list A) : length (JS.sort cmp l) = length l.
Proof. apply Permutation_length, sort_Permutation. Qed.

(** Elements that the comparator does not tell apart keep their order. *)
Lemma filter_insertSorted (P : A -> Prop) `{!forall x, Decision (P x)} (x : A) (l : list A) :
  (forall a b, P a -> P b -> (cmp a b <= 0)%Qc) ->
  filter P (JS.insertSorted cmp x l) = filter P (x :: l).
Proof.
  intros Hce. induction l as [|y l IH]; simpl; [done|].
  case_bool_decide as Hxy; [done|].
  rewrite filter_cons, IH, !filter_cons.
  destruct (decide (P y)) as [Hy|Hy]; [|done].
  destruct (decide (P x)) as [Hx|Hx]; [|done].
  destruct Hxy. by apply Hce.
Qed.

Lemma filter_sort (P : A -> Prop) `{!forall x, Decision (P x)} (l : list A) :
  (forall a b, P a -> P b -> (cmp a b <= 0)%Qc) ->
  filter P (JS.sort cmp l) = filter P l.
Proof.
  intros Hce. induction l as [|x l IH]; simpl; [done|].
  rewrite filter_insertSorted by done. by rewrite !filter_cons, IH.
Qed.

Lemma insertSorted_Sorted (x : A) (l : list A) :
  (forall a b, (cmp a b <= 0)%Qc \/ (cmp b a <= 0)%Qc) ->
  Sorted (fun a b => (cmp a b <= 0)%Qc) l ->
  Sorted (fun a b => (cmp a b <= 0)%Qc) (JS.insertSorted cmp x l).
Proof.
  intros Htot. induction l as [|y l IH]; intros Hs; simpl.
  - repeat constructor.
  - case_bool_decide as Hxy.
    + constructor; [done|]. by constructor.
    + inversion Hs as [|? ? Hl Hhd]; subst.
      constructor; [by apply IH|].
      destruct l as [|z l]; simpl.
      * constructor. destruct (Htot x y); [done|done].
      * case_bool_decide.
        -- constructor. destruct (Htot x y); [done|done].
        -- inversion Hhd; subst. by constructor.
Qed.

Lemma sort_Sorted (l : list A) :
  (forall a b, (cmp a b <= 0)%Qc \/ (cmp b a <= 0)%Qc) ->
  Sorted (fun a b => (cmp a b <= 0)%Qc) (JS.sort cmp l).
Proof.
  intros Htot. induction l as [|x l IH]; simpl; [constructor|].
  by apply insertSorted_Sorted.
Qed.

End SortFacts.

(** ** The time scheduler *)
Section TimeFacts.
Variable haversineDistance : Coordinates -> Coordinates -> Qc.
Variable isoDate : option string -> Z -> option string.

Local Abbreviation walk := (TimeAgent.walk haversineDistance).
Local Abbreviation placeLocation := (TimeAgent.placeLocation haversineDistance).
Local Abbreviation createDaySchedule := (TimeAgent.createDaySchedule haversineDistance isoDate).

Lemma estimateVisitDuration_range (l : Location) :
  0 < TimeAgent.estimateVisitDuration l <= 120.
Proof. unfold TimeAgent.estimateVisitDuration. destruct (type l); simpl; lia. Qed.

Lemma estimateTravelTime_nonneg (a b : Location) :
  0 <= TimeAgent.estimateTravelTime haversineDistance a b.
Proof.
  unfold TimeAgent.estimateTravelTime.
  destruct (coordinates a), (coordinates b); lia.
Qed.

Lemma walk_slots_length sorted i todo w :
  length (TimeAgent.w_slots (walk sorted i todo w))
  = (length (TimeAgent.w_slots w) + length todo)%nat.
Proof.
  revert i w. induction todo as [|l todo IH]; intros i w; simpl; [lia|].
  rewrite IH. simpl. rewrite length_app. simpl. lia.
Qed.

Lemma walk_locationIds sorted i todo w :
  TimeAgent.locationId <$> TimeAgent.w_slots (walk sorted i todo w)
  = (TimeAgent.locationId <$> TimeAgent.w_slots w) ++ (id <$> todo).
Proof.
  revert i w. induction todo as [|l todo IH]; intros i w; simpl.
  - by rewrite app_nil_r.
  - rewrite IH. simpl. rewrite fmap_app. simpl. by rewrite <- app_assoc.
Qed.

Lemma adjustForMealTime_later (l : Location) (t : Z) :
  exists t', (let a := TimeAgent.adjustForMealTime l (Some t) in
               if fst a then snd a else Some t) = Some t' /\ t <= t'.
Proof.
  unfold TimeAgent.adjustForMealTime, TimeAgent.hourOf.
  case_bool_decide; simpl; [eexists; split; [done|lia]|].
  destruct ((11 <=? t / 60) && (t / 60 <? 12)) eqn:E1; simpl.
  - eexists; split; [done|].
    apply andb_true_iff in E1 as [_ E1]. apply Z.ltb_lt in E1.
    Z.div_mod_to_equations. lia.
  - destruct ((17 <=? t / 60) && (t / 60 <? 18)) eqn:E2; simpl.
    + eexists; split; [done|].
      apply andb_true_iff in E2 as [_ E2]. apply Z.ltb_lt in E2.
      Z.div_mod_to_equations. lia.
    + eexists; split; [done|lia].
Qed.

Lemma placeLocation_clock sorted i l w t :
  TimeAgent.w_currentTime w = Some t ->
  exists t', TimeAgent.w_currentTime (placeLocation sorted i l w) = Some t'
             /\ t + TimeAgent.estimateVisitDuration l <= t'.
Proof.
  intros Ht. unfold TimeAgent.placeLocation. rewrite Ht. cbn [TimeAgent.w_currentTime].
  match goal with
  | |- context [Z.add ?e <$> Some t] => set (tt := e); assert (Htt : 0 <= tt)
  end.
  { subst tt. destruct i as [|k]; [by destruct (sorted !! (0 - 1)%nat)|].
    destruct (sorted !! (S k - 1)%nat); [apply estimateTravelTime_nonneg|lia]. }
  set (brk := bool_decide (0 < i)%nat && bool_decide (i mod 3 = 0)%nat
              && bool_decide (0 < length (TimeAgent.w_slots w))%nat).
  assert (exists t1, (if brk then Z.add 20 <$> (Z.add tt <$> Some t) else Z.add tt <$> Some t) = Some t1
                     /\ t <= t1) as (t1 & -> & Ht1).
  { destruct brk; simpl; eexists; (split; [done|lia]). }
  destruct (adjustForMealTime_later l t1) as (t2 & Ht2 & Hle). simpl in Ht2.
  rewrite Ht2. simpl. eexists; split; [done|lia].
Qed.

Lemma walk_clock sorted i todo w t :
  TimeAgent.w_currentTime w = Some t ->
  exists t', TimeAgent.w_currentTime (walk sorted i todo w) = Some t'
             /\ t + Spec.totalVisit todo <= t'.
Proof.
  revert i w t. induction todo as [|l todo IH]; intros i w t Ht; simpl.
  - exists t. split; [done|]. unfold Spec.totalVisit. simpl. lia.
  - destruct (placeLocation_clock sorted i l w t Ht) as (t1 & Ht1 & Hle1).
    destruct (IH (S i) _ t1 Ht1) as (t2 & Ht2 & Hle2).
    exists t2. split; [done|]. unfold Spec.totalVisit in *. simpl. lia.
Qed.

Lemma totalVisit_Permutation (l1 l2 : list Location) :
  l1 ≡ₚ l2 -> Spec.totalVisit l1 = Spec.totalVisit l2.
Proof.
  unfold Spec.totalVisit. induction 1; simpl; lia.
Qed.

(** What a day schedule is made of, when the date is there. *)
Lemma createDaySchedule_Some locs day p s :
  createDaySchedule locs day p = Some s ->
  let sorted := TimeAgent.sortByOptimalTime locs in
  let start := Z.mul 60 <$> TimeAgent.startHourOf p in
  let w := walk sorted 0 sorted
             {| TimeAgent.w_slots := []; TimeAgent.w_currentTime := start;
                TimeAgent.w_restBreaks := 0 |} in
  TimeAgent.slots s = TimeAgent.w_slots w
  /\ TimeAgent.totalDuration s
     = match TimeAgent.w_currentTime w, start with
       | Some t, Some t0 => Some (t - t0)
       | _, _ => None
       end.
Proof.
  unfold TimeAgent.createDaySchedule. destruct (isoDate _ _); [|done].
  intros [= <-]. done.
Qed.

Lemma createDaySchedule_returns locs day p d :
  isoDate (startDate p) day = Some d -> is_Some (createDaySchedule locs day p).
Proof. intros Hd. unfold TimeAgent.createDaySchedule. by rewrite Hd. Qed.

Lemma createDaySchedule_slots_length locs day p s :
  createDaySchedule locs day p = Some s -> length (TimeAgent.slots s) = length locs.
Proof.
  intros [-> _]%createDaySchedule_Some.
  rewrite walk_slots_length. simpl. apply sort_length.
Qed.

Lemma createDaySchedule_locationIds locs day p s :
  createDaySchedule locs day p = Some s ->
  TimeAgent.locationId <$> TimeAgent.slots s = id <$> TimeAgent.sortByOptimalTime locs.
Proof. intros [-> _]%createDaySchedule_Some. by rewrite walk_locationIds. Qed.

Lemma createDaySchedule_total locs day p s h :
  createDaySchedule locs day p = Some s ->
  TimeAgent.startHourOf p = Some h ->
  exists t, TimeAgent.totalDuration s = Some t /\ Spec.totalVisit locs <= t.
Proof.
  intros [_ ->]%createDaySchedule_Some Hh. rewrite Hh. simpl.
  edestruct (walk_clock (TimeAgent.sortByOptimalTime locs) 0 (TimeAgent.sortByOptimalTime locs))
    as (t & Ht & Hle); [|rewrite Ht].
  - simpl. reflexivity.
  - eexists. split; [done|].
    rewrite (totalVisit_Permutation _ locs) in Hle by apply sort_Permutation. lia.
Qed.

End TimeFacts.

(** ** Rendering of the clock *)

Lemma minutesToTime_next_day (m : Z) :
  0 <= m ->
  TimeAgent.minutesToTime (Some (m + 1440)) = TimeAgent.minutesToTime (Some m).
Proof.
  intros Hm. unfold TimeAgent.minutesToTime. cbn [fmap option_fmap option_map].
  assert (Z.rem ((m + 1440) / 60) 24 = Z.rem (m / 60) 24) as ->.
  { rewrite !Z.rem_mod_nonneg by (try apply Z.div_pos; lia).
    replace (m + 1440) with (m + 24 * 60) by lia.
    rewrite Z.div_add by lia.
    rewrite Z.add_mod, Z.mod_same, Z.add_0_r, Z.mod_mod by lia. done. }
  assert (Z.rem (m + 1440) 60 = Z.rem m 60) as ->.
  { rewrite !Z.rem_mod_nonneg by lia.
    replace (m + 1440) with (m + 24 * 60) by lia.
    by rewrite Z.mod_add by lia. }
  done.
Qed.

Lemma minutesOfTime_minutesToTime (m : Z) :
  0 <= m < 1440 ->
  Spec.minutesOfTime (TimeAgent.minutesToTime (Some m)) = Some m.
Proof.
  intros Hm.
  assert (Hall : forallb (fun m => bool_decide
                   (Spec.minutesOfTime (TimeAgent.minutesToTime (Some m)) = Some m))
                   (seqZ 0 1440) = true) by (vm_compute; reflexivity).
  rewrite forallb_forall in Hall.
  specialize (Hall m). rewrite bool_decide_eq_true in Hall. apply Hall.
  apply list_elem_of_In, elem_of_seqZ. lia.
Qed.

Lemma planDay_ignores_endTime hav iso ordered perDay p e st day :
  TimeAgent.planDay hav iso ordered perDay (Spec.withEndTime e p) st day
  = TimeAgent.planDay hav iso ordered perDay p st day.
Proof. reflexivity. Qed.

Lemma planDays_ignores_endTime hav iso ordered perDay p e days st :
  TimeAgent.planDays hav iso ordered perDay (Spec.withEndTime e p) days st
  = TimeAgent.planDays hav iso ordered perDay p days st.
Proof.
  revert st. induction days as [|day days IH]; intros st; [done|].
  cbn [TimeAgent.planDays]. rewrite planDay_ignores_endTime.
  destruct (TimeAgent.planDay _ _ _ _ _ _ _); [apply IH|done].
Qed.

Lemma process_ignores_endTime hav iso clusters locs p n e :
  TimeAgent.process hav iso clusters locs (Spec.withEndTime e p) n
  = TimeAgent.process hav iso clusters locs p n.
Proof. unfold TimeAgent.process. by rewrite planDays_ignores_endTime. Qed.

Section ClockFacts.
Variable haversineDistance : Coordinates -> Coordinates -> Qc.
Variable isoDate : option string -> Z -> option string.

Lemma minutesToTime_mod (m : Z) :
  0 <= m ->
  TimeAgent.minutesToTime (Some m) = TimeAgent.minutesToTime (Some (m mod 1440)).
Proof.
  intros Hm. unfold TimeAgent.minutesToTime. cbn [fmap option_fmap option_map].
  assert (Z.rem (m / 60) 24 = Z.rem (m mod 1440 / 60) 24) as ->.
  { rewrite !Z.rem_mod_nonneg by (try apply Z.div_pos; try apply Z.mod_pos_bound; lia).
    Z.div_mod_to_equations. lia. }
  assert (Z.rem m 60 = Z.rem (m mod 1440) 60) as ->; [|done].
  rewrite !Z.rem_mod_nonneg by (try apply Z.mod_pos_bound; lia).
  Z.div_mod_to_equations. lia.
Qed.

(** What is read back from a slot written at a clock value that is not
    negative. *)
Lemma writtenAt_intro (clock : Z) (slot : TimeAgent.TimeSlot) :
  0 <= clock ->
  TimeAgent.startTime slot = TimeAgent.minutesToTime (Some clock) ->
  TimeAgent.endTime slot = TimeAgent.minutesToTime (Some (clock + TimeAgent.duration slot)) ->
  0 < TimeAgent.duration slot <= 120 ->
  Spec.writtenAt clock slot.
Proof.
  intros Hc Hs He Hd. split; [done|]. split; [done|]. split; [done|].
  pose proof (Z.mod_pos_bound clock 1440 ltac:(lia)) as Hm.
  split.
  - rewrite Hs, minutesToTime_mod by done. by apply minutesOfTime_minutesToTime.
  - rewrite He, minutesToTime_mod by lia.
    rewrite <- Z.add_mod_idemp_l by lia.
    apply minutesOfTime_minutesToTime. apply Z.mod_pos_bound. lia.
Qed.

(** The end of a slot reads earlier than its start exactly when the
    visit runs over midnight. *)
Lemma writtenAt_endsBeforeStart (clock : Z) (slot : TimeAgent.TimeSlot) :
  Spec.writtenAt clock slot ->
  Spec.endsBeforeStart slot <-> 1440 <= clock mod 1440 + TimeAgent.duration slot.
Proof.
  intros (_ & _ & Hd & Ha & Hb). destruct (Z.mod_pos_bound clock 1440 ltac:(lia)) as [Hm0 Hm1].
  split.
  - intros (a & b & Ha' & Hb' & Hlt). rewrite Ha in Ha'. rewrite Hb in Hb'.
    injection Ha' as <-. injection Hb' as <-.
    destruct (Z_lt_le_dec (clock mod 1440 + TimeAgent.duration slot) 1440) as [Hin|Hout]; [|done].
    rewrite Z.mod_small in Hlt by lia. lia.
  - intros Hover. eexists _, _. split; [exact Ha|]. split; [exact Hb|].
    replace (clock mod 1440 + TimeAgent.duration slot)
      with ((clock mod 1440 + TimeAgent.duration slot - 1440) + 1 * 1440) by lia.
    rewrite Z.mod_add by lia. rewrite Z.mod_small by lia. lia.
Qed.

(** One round writes its slot at a clock value that is not before the
    clock it starts from, and leaves the clock one visit later. *)
Lemma placeLocation_written sorted i l w t :
  TimeAgent.w_currentTime w = Some t ->
  exists clock slot,
    t <= clock
    /\ TimeAgent.w_slots (TimeAgent.placeLocation haversineDistance sorted i l w)
       = TimeAgent.w_slots w ++ [slot]
    /\ TimeAgent.startTime slot = TimeAgent.minutesToTime (Some clock)
    /\ TimeAgent.endTime slot = TimeAgent.minutesToTime (Some (clock + TimeAgent.duration slot))
    /\ 0 < TimeAgent.duration slot <= 120
    /\ TimeAgent.w_currentTime (TimeAgent.placeLocation haversineDistance sorted i l w)
       = Some (clock + TimeAgent.duration slot).
Proof.
  intros Ht. unfold TimeAgent.placeLocation. rewrite Ht.
  cbn [TimeAgent.w_currentTime TimeAgent.w_slots].
  match goal with
  | |- context [Z.add ?e <$> Some t] => set (tt := e); assert (Htt : 0 <= tt)
  end.
  { subst tt. destruct i as [|k]; [by destruct (sorted !! (0 - 1)%nat)|].
    destruct (sorted !! (S k - 1)%nat); [apply estimateTravelTime_nonneg|lia]. }
  set (brk := bool_decide (0 < i)%nat && bool_decide (i mod 3 = 0)%nat
              && bool_decide (0 < length (TimeAgent.w_slots w))%nat).
  assert (exists t1, (if brk then Z.add 20 <$> (Z.add tt <$> Some t) else Z.add tt <$> Some t) = Some t1
                     /\ t <= t1) as (t1 & -> & Ht1).
  { destruct brk; simpl; eexists; (split; [done|lia]). }
  destruct (adjustForMealTime_later isoDate l t1) as (t2 & Ht2 & Hle). simpl in Ht2.
  rewrite Ht2. eexists t2, _. split; [lia|]. split; [reflexivity|].
  cbn [TimeAgent.startTime TimeAgent.endTime TimeAgent.duration fmap option_fmap option_map].
  rewrite (Z.add_comm (TimeAgent.estimateVisitDuration l) t2).
  split; [done|]. split; [done|]. split; [apply estimateVisitDuration_range|done].
Qed.

Lemma walk_written sorted i todo w t0 t :
  TimeAgent.w_currentTime w = Some t -> t0 <= t ->
  Forall (fun slot => exists clock, t0 <= clock
            /\ TimeAgent.startTime slot = TimeAgent.minutesToTime (Some clock)
            /\ TimeAgent.endTime slot
               = TimeAgent.minutesToTime (Some (clock + TimeAgent.duration slot))
            /\ 0 < TimeAgent.duration slot <= 120)
    (TimeAgent.w_slots w) ->
  Forall (fun slot => exists clock, t0 <= clock
            /\ TimeAgent.startTime slot = TimeAgent.minutesToTime (Some clock)
            /\ TimeAgent.endTime slot
               = TimeAgent.minutesToTime (Some (clock + TimeAgent.duration slot))
            /\ 0 < TimeAgent.duration slot <= 120)
    (TimeAgent.w_slots (TimeAgent.walk haversineDistance sorted i todo w)).
Proof.
  revert i w t. induction todo as [|l todo IH]; intros i w t Ht Hle Hw; [done|].
  cbn [TimeAgent.walk].
  destruct (placeLocation_written sorted i l w t Ht)
    as (clock & slot & Hc & Hslots & Hs & He & Hd & Hnext).
  apply (IH _ _ _ Hnext); [lia|]. rewrite Hslots. apply Forall_app. split; [done|].
  constructor; [|constructor]. exists clock. split; [lia|]. done.
Qed.

(** The slots of a day whose start hour is [h], not negative: each is
    written at a clock value from [60 * h] on. *)
Lemma createDaySchedule_written locs day p s h :
  TimeAgent.createDaySchedule haversineDistance isoDate locs day p = Some s ->
  TimeAgent.startHourOf p = Some h -> 0 <= h ->
  Forall (fun slot => exists clock, 60 * h <= clock /\ Spec.writtenAt clock slot)
    (TimeAgent.slots s).
Proof.
  intros [-> _]%createDaySchedule_Some Hh Hpos. rewrite Hh.
  eapply Forall_impl.
  - apply (walk_written _ 0 _ _ (60 * h) (60 * h)); [done|lia|constructor].
  - intros slot (clock & Hc & Hs & He & Hd). exists clock. split; [done|].
    apply writtenAt_intro; [lia|done..].
Qed.

End ClockFacts.




(** ** A day with a single restaurant *)

(** C3, as the specification states it, fails: with the clock starting at
    09:00, the only slot of a day that holds one restaurant starts at
    09:00, which is before 12:00. *)
Lemma lone_restaurant_starts_before_noon :
  exists s slot,
    TimeAgent.createDaySchedule Spec.equatorKm Spec.dayLabel
      [Spec.poi "bistro" restaurant (Spec.onEquator 0) None] 0
      (Spec.tripPreferences 100 (Some "09:00")) = Some s
    /\ TimeAgent.slots s = [slot]
    /\ Spec.minutesOfTime (TimeAgent.startTime slot) = Some (9 * 60)
    /\ 9 * 60 < 12 * 60.
Proof.
  eexists _, _. split; [vm_compute; reflexivity|]. split; [reflexivity|].
  split; [vm_compute; reflexivity|lia].
Qed.

(** C3, amended: the only slot of a day that holds one restaurant starts
    at the day's start hour; it is moved, to 12:00 or to 18:00, only when
    that hour is 11 or 17.  With the clock starting at 09:00 it starts at
    09:00. *)
Theorem lone_restaurant_start hav iso (r : Location) (day : Z) (p : TripPreferences)
    (d : string) (h : Z) :
  type r = restaurant ->
  iso (startDate p) day = Some d ->
  TimeAgent.startHourOf p = Some h ->
  exists s slot,
    TimeAgent.createDaySchedule hav iso [r] day p = Some s
    /\ TimeAgent.slots s = [slot]
    /\ TimeAgent.locationId slot = id r
    /\ TimeAgent.startTime slot
       = TimeAgent.minutesToTime
           (Some (if bool_decide (h = 11) then 12 * 60
                  else if bool_decide (h = 17) then 18 * 60
                  else 60 * h))
    /\ (h = 9 -> TimeAgent.startTime slot = "09:00").
Proof.
  intros Hr Hd Hh.
  assert (Hstart :
    (let a := TimeAgent.adjustForMealTime r (Some (0 + 60 * h)) in
     if fst a then snd a else Some (0 + 60 * h))
    = Some (if bool_decide (h = 11) then 12 * 60
            else if bool_decide (h = 17) then 18 * 60 else 60 * h)).
  { unfold TimeAgent.adjustForMealTime, TimeAgent.hourOf.
    rewrite bool_decide_eq_false_2 by (intros Hne; by apply Hne).
    cbn [fmap option_fmap option_map].
    replace ((0 + 60 * h) / 60) with h by (Z.div_mod_to_equations; lia).
    repeat case_bool_decide; subst; try reflexivity;
      destruct (11 <=? h) eqn:E1, (h <? 12) eqn:E2,
               (17 <=? h) eqn:E3, (h <? 18) eqn:E4; simpl; try reflexivity; lia. }
  unfold TimeAgent.createDaySchedule. rewrite Hh, Hd.
  eexists _, _. split; [reflexivity|]. split; [reflexivity|]. split; [reflexivity|].
  split; [exact (f_equal TimeAgent.minutesToTime Hstart)|].
  intros ->. exact (f_equal TimeAgent.minutesToTime Hstart).
Qed.

Lemma lone_restaurant_start_witness :
  exists s slot,
    TimeAgent.createDaySchedule Spec.equatorKm Spec.dayLabel
      [Spec.poi "bistro" restaurant (Spec.onEquator 0) None] 0
      (Spec.tripPreferences 100 (Some "11:30")) = Some s
    /\ TimeAgent.slots s = [slot]
    /\ TimeAgent.startTime slot = "12:00".
Proof.
  destruct (lone_restaurant_start Spec.equatorKm Spec.dayLabel
              (Spec.poi "bistro" restaurant (Spec.onEquator 0) None) 0
              (Spec.tripPreferences 100 (Some "11:30")) _ 11 eq_refl eq_refl eq_refl)
    as (s & slot & Hs & Hslots & _ & Ht & _).
  exists s, slot. split; [exact Hs|]. split; [exact Hslots|exact Ht].
Defined.

(** ** Day allocation *)

Lemma Math_ceil_div (n d : Z) :
  0 < d -> JS.Math_ceil (JS.ofZ n / JS.ofZ d)%Qc = - ((- n) / d).
Proof.
  intros Hd. unfold JS.Math_ceil, JS.ofZ.
  assert (Heq : ((Q2Qc (inject_Z n) / Q2Qc (inject_Z d))%Qc : Q) == n # Z.to_pos d).
  { unfold Qcdiv, Qcmult, Qcinv. cbn [this Q2Qc].
    rewrite !Qred_correct.
    unfold Qeq, Qmult, Qinv, inject_Z. cbn [Qnum Qden].
    destruct d as [|d|d]; try lia. simpl. lia. }
  rewrite Heq. unfold Qceiling, Qfloor, Qopp. cbn [Qnum Qden].
  rewrite Z2Pos.id by lia. reflexivity.
Qed.

Lemma locationsPerDay_covers (n d : Z) :
  0 <= n -> 0 < d ->
  0 <= - ((- n) / d) /\ n <= - ((- n) / d) * d.
Proof. intros Hn Hd. Z.div_mod_to_equations. nia. Qed.

Section Allocation.
Variable haversineDistance : Coordinates -> Coordinates -> Qc.
Variable isoDate : option string -> Z -> option string.

Local Abbreviation createDaySchedule := (TimeAgent.createDaySchedule haversineDistance isoDate).
Local Abbreviation planDay := (TimeAgent.planDay haversineDistance isoDate).
Local Abbreviation planDays := (TimeAgent.planDays haversineDistance isoDate).

(** One round emits nothing for an empty chunk and one schedule, that of
    the chunk, for any other. *)
Lemma planDay_Some ordered perDay p schedules warnings day st :
  planDay ordered perDay p (schedules, warnings) day = Some st ->
  if decide (Spec.dayChunk ordered perDay day <> [])
  then exists s, createDaySchedule (Spec.dayChunk ordered perDay day) day p = Some s
                 /\ fst st = schedules ++ [s]
  else fst st = schedules.
Proof.
  unfold TimeAgent.planDay. fold (Spec.dayChunk ordered perDay day).
  case_bool_decide as Hempty.
  - apply length_zero_iff_nil in Hempty. rewrite Hempty.
    rewrite decide_False by auto. by intros [= <-].
  - rewrite decide_True; [|intros Heq; by rewrite Heq in Hempty].
    destruct (createDaySchedule _ _ _) as [s|]; [|done].
    intros [= <-]. by exists s.
Qed.

Lemma planDay_returns ordered perDay p st day d :
  isoDate (startDate p) day = Some d -> is_Some (planDay ordered perDay p st day).
Proof.
  intros Hd. destruct st as [schedules warnings]. unfold TimeAgent.planDay.
  case_bool_decide; [done|].
  destruct (createDaySchedule_returns haversineDistance isoDate
              (JS.slice (day * perDay) ((day + 1) * perDay) ordered) day p d Hd) as [s ->].
  done.
Qed.

(** The loop over the days emits one schedule for every day whose slice
    of the ordered locations is not empty. *)
Lemma planDays_Some ordered perDay p days st st' :
  planDays ordered perDay p days st = Some st' ->
  exists emitted,
    fst st' = fst st ++ emitted
    /\ Forall2 (fun s day => createDaySchedule (Spec.dayChunk ordered perDay day) day p = Some s)
         emitted (filter (fun day => Spec.dayChunk ordered perDay day <> []) days).
Proof.
  revert st. induction days as [|day days IH]; intros [schedules warnings].
  - intros [= <-]. exists []. split; [by rewrite app_nil_r|constructor].
  - cbn [TimeAgent.planDays].
    destruct (planDay ordered perDay p (schedules, warnings) day) as [st1|] eqn:Hday; [|done].
    intros Hrest. apply planDay_Some in Hday. destruct (IH st1 Hrest) as (emitted & Hst & Hall).
    rewrite filter_cons.
    destruct (decide (Spec.dayChunk ordered perDay day <> [])).
    + destruct Hday as (s & Hs & Hfst). exists (s :: emitted).
      split; [by rewrite Hst, Hfst, <- app_assoc|by constructor].
    + exists emitted. by rewrite Hst, Hday.
Qed.

Lemma planDays_returns ordered perDay p days st :
  (forall day, day ∈ days -> is_Some (isoDate (startDate p) day)) ->
  is_Some (planDays ordered perDay p days st).
Proof.
  revert st. induction days as [|day days IH]; intros st Hdates; [done|].
  cbn [TimeAgent.planDays].
  destruct (Hdates day) as [d Hd]; [by left|].
  destruct (planDay_returns ordered perDay p st day d Hd) as [st1 ->].
  apply IH. intros day' Hday'. apply Hdates. by right.
Qed.

Lemma dayChunk_take {A} (l : list A) (perDay : nat) (j : nat) :
  take (j * perDay) l ++ take perDay (drop (j * perDay) l) = take (S j * perDay) l.
Proof. rewrite take_take_drop. f_equal. lia. Qed.

Lemma dayChunk_nat (ordered : list Location) (perDay : Z) (j : nat) :
  0 <= perDay ->
  Spec.dayChunk ordered perDay (Z.of_nat j)
  = take (Z.to_nat perDay) (drop (j * Z.to_nat perDay) ordered).
Proof.
  intros Hp. unfold Spec.dayChunk, JS.slice.
  replace (Z.to_nat (Z.of_nat j * perDay)) with (j * Z.to_nat perDay)%nat by nia.
  replace (Z.to_nat ((Z.of_nat j + 1) * perDay) - j * Z.to_nat perDay)%nat
    with (Z.to_nat perDay) by nia.
  done.
Qed.

Lemma dayChunks_concat (ordered : list Location) (perDay : Z) (k : nat) :
  0 <= perDay ->
  concat (Spec.dayChunk ordered perDay <$> seqZ 0 (Z.of_nat k))
  = take (k * Z.to_nat perDay) ordered.
Proof.
  intros Hp. induction k as [|k IH].
  - simpl. by rewrite take_0.
  - replace (Z.of_nat (S k)) with (Z.of_nat k + 1) by lia.
    rewrite seqZ_app by lia. rewrite fmap_app, concat_app, IH.
    cbn [seqZ]. change (seqZ (0 + Z.of_nat k) 1) with [0 + Z.of_nat k].
    cbn [fmap list_fmap concat]. rewrite app_nil_r.
    rewrite Z.add_0_l, dayChunk_nat by done. apply dayChunk_take.
Qed.

Lemma concat_filter_nonempty {A} (ls : list (list A)) :
  concat (filter (fun l => l <> []) ls) = concat ls.
Proof.
  induction ls as [|l ls IH]; [done|].
  rewrite filter_cons. destruct (decide (l <> [])) as [|Hn]; simpl; [by rewrite IH|].
  rewrite IH. destruct l; [done|]. destruct Hn. done.
Qed.

Lemma filter_fmap_chunks (ordered : list Location) perDay (days : list Z) :
  Spec.dayChunk ordered perDay <$> filter (fun day => Spec.dayChunk ordered perDay day <> []) days
  = filter (fun l => l <> []) (Spec.dayChunk ordered perDay <$> days).
Proof.
  induction days as [|d days IH]; [done|].
  rewrite fmap_cons, !filter_cons.
  destruct (decide (Spec.dayChunk ordered perDay d <> []));
    [rewrite fmap_cons; f_equal; exact IH | exact IH].
Qed.

End Allocation.

Lemma process_schedules hav iso clusters locs p numDays out :
  TimeAgent.process hav iso clusters locs p numDays = Some out ->
  Forall2 (fun s day =>
             TimeAgent.createDaySchedule hav iso
               (Spec.dayChunk (clusters ≫= locations)
                  (JS.Math_ceil (JS.ofZ (Z.of_nat (length (clusters ≫= locations)))
                                 / JS.ofZ numDays)%Qc) day) day p = Some s)
    (TimeAgent.schedules out)
    (filter (fun day =>
               Spec.dayChunk (clusters ≫= locations)
                 (JS.Math_ceil (JS.ofZ (Z.of_nat (length (clusters ≫= locations)))
                                / JS.ofZ numDays)%Qc) day <> [])
            (seqZ 0 numDays)).
Proof.
  unfold TimeAgent.process.
  destruct (TimeAgent.planDays _ _ _ _ _ _ _) as [[schedules warnings]|] eqn:Hdays; [|done].
  intros [= <-]. apply planDays_Some in Hdays as (emitted & Hfst & Hall).
  cbn [fst app TimeAgent.schedules] in *. by subst.
Qed.

Lemma process_returns hav iso clusters locs p numDays :
  (forall day, 0 <= day < numDays -> is_Some (iso (startDate p) day)) ->
  is_Some (TimeAgent.process hav iso clusters locs p numDays).
Proof.
  intros Hdates. unfold TimeAgent.process.
  edestruct (planDays_returns hav iso) as [[schedules warnings] ->]; [|done].
  intros day Hday. apply Hdates. apply elem_of_seqZ in Hday. lia.
Qed.

Lemma emittedChunks_concat (ordered : list Location) (numDays : Z) :
  1 <= numDays -> concat (Spec.emittedChunks ordered numDays) = ordered.
Proof.
  intros Hn. unfold Spec.emittedChunks.
  rewrite concat_filter_nonempty, Math_ceil_div by lia.
  destruct (locationsPerDay_covers (Z.of_nat (length ordered)) numDays) as [Hp Hc]; [lia..|].
  rewrite <- (Z2Nat.id numDays) at 2 by lia.
  rewrite dayChunks_concat by done.
  apply take_ge. nia.
Qed.

Lemma Forall2_sum_list {A B} (f : A -> nat) (g : B -> nat) (l1 : list A) (l2 : list B) :
  Forall2 (fun a b => f a = g b) l1 l2 -> sum_list (f <$> l1) = sum_list (g <$> l2).
Proof.
  induction 1 as [|a b l1 l2 Hab _ IH]; [done|].
  simpl. rewrite Hab. f_equal. exact IH.
Qed.

(** C7: with [numDays >= 1], [process] returns a result whenever the
    dates of the days are there, and in every result each schedule has at
    least one slot (a day whose chunk is empty is skipped); the schedules
    are those of the non-empty day chunks, one slot for each location of
    the chunk; the chunks, in order, make up the ordered input sequence,
    so their sizes add up to its length. *)
Theorem day_allocation_drops_empty_days hav iso
    (clusters : list ClusterGroup) (locs : list Location)
    (p : TripPreferences) (numDays : Z) :
  1 <= numDays ->
  let ordered := clusters ≫= locations in
  let chunks := Spec.emittedChunks ordered numDays in
  ((forall day, 0 <= day < numDays -> is_Some (iso (startDate p) day)) ->
   is_Some (TimeAgent.process hav iso clusters locs p numDays))
  /\ forall out,
      TimeAgent.process hav iso clusters locs p numDays = Some out ->
      let emitted := TimeAgent.schedules out in
      Forall (fun s => TimeAgent.slots s <> []) emitted
      /\ Forall2 (fun s chunk => length (TimeAgent.slots s) = length chunk) emitted chunks
      /\ Forall (fun chunk => chunk <> []) chunks
      /\ concat chunks = ordered
      /\ sum_list (length <$> chunks) = length ordered
      /\ sum_list ((fun s => length (TimeAgent.slots s)) <$> emitted) = length ordered.
Proof.
  intros Hn ordered chunks. split; [apply process_returns|].
  intros out Hout emitted.
  assert (Hchunks : Forall (fun chunk : list Location => chunk <> []) chunks).
  { apply Forall_forall. intros c Hc. unfold chunks, Spec.emittedChunks in Hc.
    by apply list_elem_of_filter in Hc as [? _]. }
  assert (Hsum : sum_list (length <$> chunks) = length ordered).
  { rewrite <- length_concat. unfold chunks. by rewrite emittedChunks_concat. }
  assert (H2 : Forall2 (fun s chunk => length (TimeAgent.slots s) = length chunk) emitted chunks).
  { unfold emitted, chunks, Spec.emittedChunks.
    rewrite <- filter_fmap_chunks. apply Forall2_fmap_r.
    eapply Forall2_impl; [exact (process_schedules _ _ _ _ _ _ _ Hout)|].
    intros s day Hs. cbv beta. exact (createDaySchedule_slots_length _ _ _ _ _ _ Hs). }
  split.
  { clear Hsum. induction H2 as [|s c ss cs Hsc _ IH]; [constructor|].
    inversion Hchunks; subst. constructor; [|by apply IH].
    intros Hs. rewrite Hs in Hsc. by destruct c. }
  split; [done|]. split; [done|]. split; [by apply emittedChunks_concat|].
  split; [done|].
  rewrite <- Hsum. by apply Forall2_sum_list.
Qed.

Lemma day_allocation_witness :
  let locs := [Spec.poi "a" attraction (Spec.onEquator 0) None;
               Spec.poi "b" attraction (Spec.onEquator 1) None;
               Spec.poi "c" attraction (Spec.onEquator 2) None;
               Spec.poi "d" attraction (Spec.onEquator 3) None] in
  let clusters := ClusteringAgent.clusterByProximity Spec.equatorKm locs in
  exists out,
    TimeAgent.process Spec.equatorKm Spec.dayLabel clusters locs
      (Spec.tripPreferences 100 None) 3 = Some out
    /\ length (TimeAgent.schedules out) = 2%nat
    /\ sum_list ((fun s => length (TimeAgent.slots s)) <$> TimeAgent.schedules out) = 4%nat.
Proof.
  intros locs clusters.
  destruct (day_allocation_drops_empty_days Spec.equatorKm Spec.dayLabel clusters locs
              (Spec.tripPreferences 100 None) 3 ltac:(lia)) as [Hreturns Hall].
  destruct Hreturns as [out Hout]; [intros day _; by eexists|].
  exists out. split; [exact Hout|].
  destruct (Hall out Hout) as (_ & Hsizes & _ & _ & _ & Hsum).
  split; [|rewrite Hsum; vm_compute; reflexivity].
  apply Forall2_length in Hsizes. rewrite Hsizes. vm_compute. reflexivity.
Defined.

(** ** The budget fallback *)

Lemma Qc_minus_le_0 (x y : Qc) : (x - y <= 0)%Qc <-> (x <= y)%Qc.
Proof.
  rewrite (Qcle_minus_iff x y), (Qcle_minus_iff (x - y) 0).
  replace (0 + - (x - y))%Qc with (y + - x)%Qc by ring. done.
Qed.

Lemma Sorted_weaken {A} (R R' : A -> A -> Prop) (l : list A) :
  (forall a b, R a b -> R' a b) -> Sorted R l -> Sorted R' l.
Proof.
  intros HR. induction 1 as [|a l _ IH Hhd]; constructor; [done|].
  destruct Hhd; constructor. by apply HR.
Qed.

Lemma byCostDescending_le (a b : Location) :
  (BudgetAgent.byCostDescending a b <= 0)%Qc <-> (Spec.cost b <= Spec.cost a)%Qc.
Proof. apply Qc_minus_le_0. Qed.

(** The loop hands every location it is given to exactly one of the
    three lists, at its end. *)
Lemma decide_one_fold (count : nat) (overage : Qc) (todo : list Location)
    (opt : BudgetAgent.BudgetOptimization) (saved : Qc) :
  exists k r m,
    let out := fst (fold_left (BudgetAgent.decide_one count overage) todo (opt, saved)) in
    BudgetAgent.location <$> BudgetAgent.keep out
      = (BudgetAgent.location <$> BudgetAgent.keep opt) ++ k
    /\ BudgetAgent.original <$> BudgetAgent.replace out
      = (BudgetAgent.original <$> BudgetAgent.replace opt) ++ r
    /\ BudgetAgent.location <$> BudgetAgent.remove out
      = (BudgetAgent.location <$> BudgetAgent.remove opt) ++ m
    /\ sublist k todo /\ sublist r todo /\ sublist m todo
    /\ k ++ r ++ m ≡ₚ todo.
Proof.
  revert opt saved. induction todo as [|l todo IH]; intros opt saved.
  - exists [], [], []. simpl. rewrite !app_nil_r. done.
  - cbn [fold_left].
    destruct (BudgetAgent.decide_one count overage (opt, saved) l) as [opt' saved'] eqn:Hstep.
    destruct (IH opt' saved') as (k & r & m & Hk & Hr & Hm & Sk & Sr & Sm & Hp).
    cbv zeta in *.
    unfold BudgetAgent.decide_one in Hstep.
    repeat match type of Hstep with
           | (if ?c then _ else _) = _ => destruct c
           end;
      injection Hstep as <- <-; cbn [BudgetAgent.keep BudgetAgent.replace BudgetAgent.remove] in *;
      rewrite ?fmap_app in *; cbn [fmap list_fmap BudgetAgent.location BudgetAgent.original] in *;
      rewrite <- ?app_assoc in *; cbn [app] in *.
    all: [> exists (l :: k), r, m | exists k, (l :: r), m | exists k, (l :: r), m
          | exists k, r, (l :: m) | exists (l :: k), r, m ].
    all: repeat split;
      first [ done
            | by apply sublist_skip
            | by apply sublist_cons
            | by (simpl; rewrite Hp)
            | by (simpl; rewrite <- Permutation_middle, Hp)
            | by (rewrite app_assoc, <- Permutation_middle, <- app_assoc, Hp) ].
Qed.

(** C8: the fallback is a function of its three inputs, equal inputs give
    equal keep, replace and remove lists.  Its processing order is the
    input sorted by cost, highest first, in which locations of equal cost
    keep the order they have in the input; each of the three lists is
    filled in that order, and every location ends in exactly one. *)
Theorem simpleOptimization_deterministic_stable
    (locs : list Location) (currentTotal targetBudget : Qc) :
  let sorted := JS.sort BudgetAgent.byCostDescending locs in
  let out := BudgetAgent.simpleOptimization locs currentTotal targetBudget in
  (forall locs' currentTotal' targetBudget',
      locs' = locs -> currentTotal' = currentTotal -> targetBudget' = targetBudget ->
      BudgetAgent.simpleOptimization locs' currentTotal' targetBudget' = out)
  /\ sorted ≡ₚ locs
  /\ Sorted (fun a b => (Spec.cost b <= Spec.cost a)%Qc) sorted
  /\ (forall c : Qc,
      filter (fun l => Spec.cost l = c) sorted = filter (fun l => Spec.cost l = c) locs)
  /\ sublist (BudgetAgent.location <$> BudgetAgent.keep out) sorted
  /\ sublist (BudgetAgent.original <$> BudgetAgent.replace out) sorted
  /\ sublist (BudgetAgent.location <$> BudgetAgent.remove out) sorted
  /\ (BudgetAgent.location <$> BudgetAgent.keep out)
     ++ (BudgetAgent.original <$> BudgetAgent.replace out)
     ++ (BudgetAgent.location <$> BudgetAgent.remove out) ≡ₚ locs.
Proof.
  intros sorted out.
  split; [by intros ? ? ? -> -> ->|].
  split; [apply sort_Permutation|].
  split.
  { eapply Sorted_weaken; [intros a b; apply byCostDescending_le|].
    apply sort_Sorted. intros a b. rewrite !byCostDescending_le.
    destruct (Qclt_le_dec (Spec.cost a) (Spec.cost b)) as [Hlt|Hle]; [right|left; done].
    by apply Qclt_le_weak. }
  split.
  { intros c. apply filter_sort. intros a b Ha Hb.
    apply byCostDescending_le. rewrite Ha, Hb. apply Qcle_refl. }
  destruct (decide_one_fold (length locs) (currentTotal - targetBudget)%Qc sorted
              {| BudgetAgent.keep := []; BudgetAgent.replace := []; BudgetAgent.remove := [] |}
              0%Qc) as (k & r & m & Hk & Hr & Hm & Sk & Sr & Sm & Hp).
  cbv zeta in *. cbn [BudgetAgent.keep BudgetAgent.replace BudgetAgent.remove
                      fmap list_fmap app] in *.
  unfold out, BudgetAgent.simpleOptimization. fold sorted.
  rewrite Hk, Hr, Hm. repeat split; try done.
  rewrite Hp. apply sort_Permutation.
Qed.

Lemma simpleOptimization_witness :
  let a := Spec.poi "a" attraction (Spec.onEquator 0) (Some (JS.ofZ 40)) in
  let b := Spec.poi "b" temple (Spec.onEquator 1) (Some (JS.ofZ 40)) in
  let c := Spec.poi "c" activity (Spec.onEquator 2) (Some (JS.ofZ 60)) in
  JS.sort BudgetAgent.byCostDescending [a; b; c] = [c; a; b]
  /\ filter (fun l => Spec.cost l = JS.ofZ 40) (JS.sort BudgetAgent.byCostDescending [a; b; c])
     = [a; b].
Proof.
  intros a b c. split; [vm_compute; reflexivity|].
  destruct (simpleOptimization_deterministic_stable [a; b; c] (JS.ofZ 200) (JS.ofZ 100))
    as (_ & _ & _ & Hstable & _).
  rewrite (Hstable (JS.ofZ 40)). vm_compute. reflexivity.
Defined.

(** ** The budget check *)

Lemma process_isOverBudget answer locs p numDays :
  BudgetAgent.isOverBudget (BudgetAgent.process answer locs p numDays)
  = bool_decide (budget p < BudgetAgent.total (BudgetAgent.calculateBreakdown locs numDays))%Qc.
Proof. unfold BudgetAgent.process. by case_bool_decide. Qed.

(** The check that the code does make: a total within [preferences.budget]
    itself is not over budget, and the overage is zero. *)
Lemma within_budget_not_over answer locs p numDays :
  (BudgetAgent.total (BudgetAgent.calculateBreakdown locs numDays) <= budget p)%Qc ->
  BudgetAgent.isOverBudget (BudgetAgent.process answer locs p numDays) = false
  /\ BudgetAgent.overageAmount (BudgetAgent.process answer locs p numDays) = 0%Qc.
Proof.
  intros Hle. unfold BudgetAgent.process.
  rewrite bool_decide_eq_false_2 by (by apply Qcle_not_lt).
  cbn [BudgetAgent.isOverBudget BudgetAgent.overageAmount]. split; [done|].
  unfold JS.Math_max. rewrite bool_decide_eq_false_2; [done|].
  apply Qcle_not_lt. by apply Qc_minus_le_0.
Qed.

(** C2, the failing run: six attractions of 15 each, two days, a budget of
    100 a day.  The total, 113, is within 100 * 2, and [process] still
    reports the trip over budget, by 13: it compares the total of the
    whole trip with the budget of one day. *)
Theorem trip_total_compared_with_one_day :
  let out := BudgetAgent.process None Spec.sixAttractions (Spec.tripPreferences 100 None)
               (AgentOrchestrator.numDaysFor Spec.sixAttractions) in
  AgentOrchestrator.numDaysFor Spec.sixAttractions = 2
  /\ BudgetAgent.total (BudgetAgent.breakdown out) = JS.ofZ 113
  /\ (BudgetAgent.total (BudgetAgent.breakdown out) <= JS.ofZ 100 * JS.ofZ 2)%Qc
  /\ BudgetAgent.isOverBudget out = true
  /\ BudgetAgent.overageAmount out = JS.ofZ 13.
Proof.
  cbv zeta. split; [reflexivity|].
  split; [apply Qc_is_canon; vm_compute; reflexivity|].
  split; [vm_compute; discriminate|].
  split; [vm_compute; reflexivity|].
  apply Qc_is_canon. vm_compute. reflexivity.
Qed.

(** ** Budget optimization and the scheduler *)

Lemma process_ignores_locations hav iso clusters locs locs' p numDays :
  TimeAgent.process hav iso clusters locs p numDays
  = TimeAgent.process hav iso clusters locs' p numDays.
Proof. reflexivity. Qed.

Lemma slotIds_chunks hav iso (chunk : Z -> list Location) (p : TripPreferences)
    (emitted : list TimeAgent.DaySchedule) (days : list Z) :
  Forall2 (fun s day => TimeAgent.createDaySchedule hav iso (chunk day) day p = Some s)
    emitted days ->
  TimeAgent.locationId <$> concat (TimeAgent.slots <$> emitted)
  ≡ₚ id <$> concat (chunk <$> days).
Proof.
  induction 1 as [|s day emitted days Hs _ IH]; [done|].
  rewrite !fmap_cons. cbn [concat]. rewrite !fmap_app, IH.
  rewrite (createDaySchedule_locationIds _ _ _ _ _ _ Hs).
  unfold TimeAgent.sortByOptimalTime. by rewrite sort_Permutation.
Qed.

(** Whatever the budget stage hands over, the slots of the schedules are
    those of the members of the clusters, each member once. *)
Lemma scheduled_are_cluster_members hav iso (answer : option BudgetAgent.BudgetOptimization)
    (clusters : list ClusterGroup) (finalLocations : list Location) (p : TripPreferences)
    (run : AgentOrchestrator.Scheduled) :
  AgentOrchestrator.budgetThenTime hav iso answer clusters finalLocations p = Some run ->
  Spec.slotIds (AgentOrchestrator.timeResult run) ≡ₚ id <$> Spec.members clusters.
Proof.
  unfold AgentOrchestrator.budgetThenTime, Spec.slotIds.
  destruct (TimeAgent.process _ _ _ _ _ _) as [out|] eqn:Hout; [|done].
  intros [= <-]. cbn [AgentOrchestrator.timeResult].
  rewrite (slotIds_chunks _ _ _ _ _ _ (process_schedules _ _ _ _ _ _ _ Hout)).
  rewrite filter_fmap_chunks.
  fold (Spec.emittedChunks (clusters ≫= locations) (AgentOrchestrator.numDaysFor finalLocations)).
  rewrite emittedChunks_concat; [done|]. unfold AgentOrchestrator.numDaysFor. lia.
Qed.

(** C1, the failing run: five attractions and a kayak tour in one cluster,
    a budget of 50 and no usable reply of the chat service.  The fallback
    removes the kayak tour, so the budget-adjusted set does not hold it;
    the scheduler, given that set, still emits a slot for it, because
    [process] schedules the locations of the clusters and never reads its
    [locations] argument. *)
Theorem removed_location_still_scheduled :
  let clusters := ClusteringAgent.clusterByProximity Spec.equatorKm Spec.fiveAttractionsAndKayak in
  exists run,
    AgentOrchestrator.budgetThenTime Spec.equatorKm Spec.dayLabel None clusters
      Spec.fiveAttractionsAndKayak (Spec.tripPreferences 50 None) = Some run
    /\ BudgetAgent.isOverBudget (AgentOrchestrator.budgetResult run) = true
    /\ Spec.removedIds (AgentOrchestrator.budgetResult run) = ["kayak"]
    /\ id <$> AgentOrchestrator.budgetLocations run = ["a1"; "a2"; "a3"; "a4"; "a5"]
    /\ Spec.slotIds (AgentOrchestrator.timeResult run)
       = ["a1"; "a2"; "kayak"; "a3"; "a4"; "a5"].
Proof.
  cbv zeta. eexists. split; [vm_compute; reflexivity|].
  split; [vm_compute; reflexivity|].
  split; [vm_compute; reflexivity|].
  split; vm_compute; reflexivity.
Qed.

(** ** Proximity clustering *)
Section ClusteringFacts.
Variable haversineDistance : Coordinates -> Coordinates -> Qc.

Local Abbreviation addNearby := (ClusteringAgent.addNearby haversineDistance).
Local Abbreviation startCluster := (ClusteringAgent.startCluster haversineDistance).
Local Abbreviation clusterByProximity := (ClusteringAgent.clusterByProximity haversineDistance).

Lemma elem_of_idsOf (x : string) (ls : list Location) :
  x ∈ Spec.idsOf ls <-> exists l, l ∈ ls /\ id l = x.
Proof.
  unfold Spec.idsOf. rewrite elem_of_list_to_set, list_elem_of_fmap. naive_solver.
Qed.

Lemma idsOf_app (l1 l2 : list Location) :
  Spec.idsOf (l1 ++ l2) = Spec.idsOf l1 ∪ Spec.idsOf l2.
Proof. unfold Spec.idsOf. by rewrite fmap_app, list_to_set_app_L. Qed.

Lemma idsOf_cons (l : Location) (ls : list Location) :
  Spec.idsOf (l :: ls) = {[ id l ]} ∪ Spec.idsOf ls.
Proof. reflexivity. Qed.

(** The inner loop: what it appends to the cluster. *)
Lemma addNearby_fold (seed : Coordinates) (ls : list Location)
    (cluster : ClusterGroup) (assigned : gset string) :
  exists picked,
    let out := fold_left (addNearby seed) ls (cluster, assigned) in
    locations (fst out) = locations cluster ++ picked
    /\ snd out = assigned ∪ Spec.idsOf picked
    /\ (forall o, o ∈ picked -> o ∈ ls /\ is_Some (coordinates o) /\ id o ∉ assigned)
    /\ NoDup (id <$> picked)
    /\ (forall o oc, o ∈ ls -> coordinates o = Some oc ->
          (haversineDistance seed oc <= ClusteringAgent.CLUSTER_RADIUS_KM)%Qc ->
          id o ∈ snd out).
Proof.
  revert cluster assigned. induction ls as [|other ls IH]; intros cluster assigned.
  - exists []. cbn [fold_left fst snd]. rewrite app_nil_r.
    split; [done|]. split; [set_solver|]. split; [set_solver|]. split; [constructor|].
    intros o oc Ho. by apply elem_of_nil in Ho.
  - cbn [fold_left].
    assert (Hsame :
      (forall picked,
        (let out := fold_left (addNearby seed) ls (cluster, assigned) in
         locations (fst out) = locations cluster ++ picked
         /\ snd out = assigned ∪ Spec.idsOf picked
         /\ (forall o, o ∈ picked -> o ∈ ls /\ is_Some (coordinates o) /\ id o ∉ assigned)
         /\ NoDup (id <$> picked)
         /\ (forall o oc, o ∈ ls -> coordinates o = Some oc ->
               (haversineDistance seed oc <= ClusteringAgent.CLUSTER_RADIUS_KM)%Qc ->
               id o ∈ snd out)) ->
        (forall oc, coordinates other = Some oc ->
           (haversineDistance seed oc <= ClusteringAgent.CLUSTER_RADIUS_KM)%Qc ->
           id other ∈ assigned) ->
        let out := fold_left (addNearby seed) ls (cluster, assigned) in
        locations (fst out) = locations cluster ++ picked
        /\ snd out = assigned ∪ Spec.idsOf picked
        /\ (forall o, o ∈ picked -> o ∈ other :: ls /\ is_Some (coordinates o) /\ id o ∉ assigned)
        /\ NoDup (id <$> picked)
        /\ (forall o oc, o ∈ other :: ls -> coordinates o = Some oc ->
              (haversineDistance seed oc <= ClusteringAgent.CLUSTER_RADIUS_KM)%Qc ->
              id o ∈ snd out))).
    { intros picked (H1 & H2 & H3 & H4 & H5) Hother. cbv zeta in *.
      split; [done|]. split; [done|].
      split; [intros o Ho; destruct (H3 o Ho) as (? & ? & ?); set_solver|].
      split; [done|].
      intros o oc Ho Hc Hd. apply elem_of_cons in Ho as [->|Ho]; [|by eapply H5].
      rewrite H2. apply elem_of_union_l. by eapply Hother. }
    destruct (addNearby seed (cluster, assigned) other) as [cluster1 assigned1] eqn:Hstep.
    unfold ClusteringAgent.addNearby in Hstep.
    destruct (coordinates other) as [oc|] eqn:Hoc.
    + case_bool_decide as Hin.
      * injection Hstep as <- <-.
        destruct (IH cluster assigned) as (picked & HP). exists picked.
        apply Hsame; [done|]. intros; done.
      * case_bool_decide as Hnear; injection Hstep as <- <-.
        -- destruct (IH {| cg_id := cg_id cluster; cg_name := cg_name cluster;
                           centroid := centroid cluster;
                           locations := locations cluster ++ [other];
                           suggestedDuration :=
                             suggestedDuration cluster
                             + ClusteringAgent.estimateDuration other |}
                        (assigned ∪ {[ id other ]}))
             as (picked & H1 & H2 & H3 & H4 & H5).
           cbv zeta in *. cbn [locations] in H1.
           exists (other :: picked).
           split; [by rewrite H1, <- app_assoc|].
           split; [rewrite H2, idsOf_cons; set_solver|].
           split.
           { intros o Ho. apply elem_of_cons in Ho as [->|Ho].
             - split; [set_solver|]. split; [by rewrite Hoc|done].
             - destruct (H3 o Ho) as (? & ? & ?). set_solver. }
           split.
           { rewrite fmap_cons. constructor; [|done].
             intros Hdup. apply list_elem_of_fmap in Hdup as (o & Hid & Ho).
             destruct (H3 o Ho) as (_ & _ & Hfresh). set_solver. }
           intros o oc' Ho Hc Hd. apply elem_of_cons in Ho as [->|Ho]; [|by eapply H5].
           rewrite H2. set_solver.
        -- destruct (IH cluster assigned) as (picked & HP). exists picked.
           apply Hsame; [done|]. intros oc' [= <-] Hd'. done.
    + injection Hstep as <- <-.
      destruct (IH cluster assigned) as (picked & HP). exists picked.
      apply Hsame; [done|]. intros oc' [=].
Qed.

Lemma members_snoc (clusters : list ClusterGroup) (c : ClusterGroup) :
  Spec.members (clusters ++ [c]) = Spec.members clusters ++ locations c.
Proof. unfold Spec.members. rewrite bind_app. simpl. by rewrite app_nil_r. Qed.

Lemma clustered_empty (all : list Location) :
  Spec.clustered haversineDistance all [] ∅.
Proof.
  split; [done|constructor| |].
  - intros l Hl. by apply elem_of_nil in Hl.
  - intros i c Hc. by rewrite lookup_nil in Hc.
Qed.

(** One round of the outer loop keeps the invariant, and leaves the id
    of its location assigned when the location has coordinates. *)
Lemma startCluster_clustered (all : list Location) (clusters : list ClusterGroup)
    (assigned : gset string) (location : Location) :
  Spec.clustered haversineDistance all clusters assigned ->
  location ∈ all ->
  let out := startCluster all (clusters, assigned) location in
  Spec.clustered haversineDistance all (fst out) (snd out)
  /\ assigned ⊆ snd out
  /\ (is_Some (coordinates location) -> id location ∈ snd out).
Proof.
  intros [Ha Hnd Hm Hs] Hloc. unfold ClusteringAgent.startCluster.
  destruct (coordinates location) as [seed|] eqn:Hseed; cbv zeta.
  2:{ split; [done|]. split; [done|]. by intros [? [=]]. }
  case_bool_decide as Hin; [done|].
  match goal with
  | |- context [fold_left (addNearby seed) all (?c0, ?a0)] =>
      destruct (addNearby_fold seed all c0 a0) as (picked & H1 & H2 & H3 & H4 & H5);
      destruct (fold_left (addNearby seed) all (c0, a0)) as [cluster assigned'] eqn:Hfold
  end.
  cbv zeta in *. cbn [fst snd locations] in *.
  assert (Hfresh : forall o, o ∈ picked -> (id o ∉ assigned) /\ (id o <> id location)).
  { intros o Ho. destruct (H3 o Ho) as (_ & _ & ?). set_solver. }
  split; [split|].
  - rewrite members_snoc. cbn [locations]. rewrite H1, H2, idsOf_app, Ha.
    simpl. rewrite idsOf_cons. set_solver.
  - rewrite members_snoc. cbn [locations]. rewrite H1. simpl.
    rewrite fmap_app. apply NoDup_app. split; [done|]. split.
    + intros x Hx Hx'. rewrite fmap_cons in Hx'.
      assert (x ∈ assigned) as Hxa.
      { rewrite Ha. unfold Spec.idsOf. by apply elem_of_list_to_set. }
      apply elem_of_cons in Hx' as [->|Hx']; [done|].
      apply list_elem_of_fmap in Hx' as (o & -> & Ho). by destruct (Hfresh o Ho).
    + rewrite fmap_cons. constructor; [|done].
      intros Hdup. apply list_elem_of_fmap in Hdup as (o & Hid & Ho).
      destruct (Hfresh o Ho) as [_ Hne]. by rewrite Hid in Hne.
  - intros l. rewrite members_snoc. cbn [locations]. rewrite H1. simpl.
    rewrite elem_of_app, elem_of_cons.
    intros [Hl|[->|Hl]]; [by apply Hm| |].
    + split; [done|]. by rewrite Hseed.
    + destruct (H3 l Hl) as (? & ? & _). done.
  - intros i c Hc. destruct (decide (i < length clusters)%nat) as [Hlt|Hge].
    + rewrite lookup_app_l in Hc by done. rewrite take_app_le by lia. by apply Hs.
    + rewrite lookup_app_r in Hc by lia.
      destruct (i - length clusters)%nat as [|k] eqn:Hk; [|by rewrite lookup_cons_ne_0, lookup_nil in Hc].
      injection Hc as <-. assert (i = length clusters) as -> by lia.
      rewrite take_app_length.
      exists location, seed, picked. cbn [locations]. rewrite H1.
      split; [done|]. split; [done|].
      intros o oc Ho Hoc Hd. specialize (H5 o oc Ho Hoc Hd).
      rewrite H2, Ha in H5. simpl. rewrite idsOf_cons. set_solver.
  - split; [rewrite H2; set_solver|]. intros _. rewrite H2. set_solver.
Qed.

Lemma startCluster_fold (all todo : list Location) (clusters : list ClusterGroup)
    (assigned : gset string) :
  Spec.clustered haversineDistance all clusters assigned ->
  (forall l, l ∈ todo -> l ∈ all) ->
  let out := fold_left (startCluster all) todo (clusters, assigned) in
  Spec.clustered haversineDistance all (fst out) (snd out)
  /\ assigned ⊆ snd out
  /\ (forall l, l ∈ todo -> is_Some (coordinates l) -> id l ∈ snd out).
Proof.
  revert clusters assigned. induction todo as [|l todo IH]; intros clusters assigned Hinv Hsub.
  - cbn. split; [done|]. split; [done|]. intros l Hl. by apply elem_of_nil in Hl.
  - cbn [fold_left]. cbv zeta.
    destruct (startCluster_clustered all clusters assigned l Hinv) as (Hinv1 & Hmono1 & Hl1);
      [apply Hsub; left|].
    destruct (startCluster all (clusters, assigned) l) as [clusters1 assigned1].
    cbn [fst snd] in *.
    destruct (IH clusters1 assigned1 Hinv1) as (Hinv2 & Hmono2 & Hl2);
      [intros x Hx; apply Hsub; by right|].
    cbv zeta in *. split; [done|]. split; [set_solver|].
    intros x Hx Hc. apply elem_of_cons in Hx as [->|Hx]; [|by apply Hl2].
    apply Hmono2. by apply Hl1.
Qed.

(** The clusters of [clusterByProximity] satisfy the invariant, and the
    id of every location with coordinates is the id of a member. *)
Lemma clusterByProximity_clustered (all : list Location) :
  Spec.clustered haversineDistance all (clusterByProximity all)
    (Spec.idsOf (Spec.members (clusterByProximity all)))
  /\ (forall l, l ∈ all -> is_Some (coordinates l) ->
        id l ∈ Spec.idsOf (Spec.members (clusterByProximity all))).
Proof.
  destruct (startCluster_fold all all [] ∅ (clustered_empty all)) as (Hinv & _ & Hall); [done|].
  cbv zeta in *. unfold ClusteringAgent.clusterByProximity.
  destruct (fold_left (startCluster all) all ([], ∅)) as [clusters assigned].
  cbn [fst snd] in *. pose proof (Spec.clustered_assigned _ _ _ _ Hinv) as Ha.
  rewrite <- Ha. done.
Qed.

Lemma NoDup_fmap_eq {A B} (f : A -> B) (l : list A) (x y : A) :
  NoDup (f <$> l) -> x ∈ l -> y ∈ l -> f x = f y -> x = y.
Proof.
  induction l as [|a l IH]; intros Hnd Hx Hy Hf; [by apply elem_of_nil in Hx|].
  rewrite fmap_cons in Hnd. apply NoDup_cons in Hnd as [Ha Hnd].
  apply elem_of_cons in Hx as [->|Hx]; apply elem_of_cons in Hy as [->|Hy]; [done| | |by apply IH].
  - destruct Ha. rewrite Hf. by apply list_elem_of_fmap_2.
  - destruct Ha. rewrite <- Hf. by apply list_elem_of_fmap_2.
Qed.

Lemma NoDup_bind_unique {A B} (f : A -> list B) (ls : list A) (i j : nat) (a b : A) (x : B) :
  NoDup (ls ≫= f) -> ls !! i = Some a -> ls !! j = Some b -> x ∈ f a -> x ∈ f b -> i = j.
Proof.
  revert i j. induction ls as [|l ls IH]; intros i j Hnd Hi Hj Ha Hb; [by rewrite lookup_nil in Hi|].
  rewrite bind_cons in Hnd. apply NoDup_app in Hnd as (_ & Hdisj & Hnd).
  assert (Hin : forall k c, ls !! k = Some c -> x ∈ f c -> x ∈ ls ≫= f).
  { intros k c Hk Hc. apply list_elem_of_bind. exists c. split; [done|].
    by eapply list_elem_of_lookup_2. }
  destruct i as [|i], j as [|j]; simpl in Hi, Hj.
  - done.
  - injection Hi as ->. destruct (Hdisj x Ha). by eapply Hin.
  - injection Hj as ->. destruct (Hdisj x Hb). by eapply Hin.
  - f_equal. by eapply IH.
Qed.

Lemma elem_of_members (l : Location) (clusters : list ClusterGroup) :
  l ∈ Spec.members clusters <-> exists i c, clusters !! i = Some c /\ l ∈ locations c.
Proof.
  unfold Spec.members. rewrite list_elem_of_bind. split.
  - intros (c & Hl & Hc). apply list_elem_of_lookup in Hc as [i Hi]. eauto.
  - intros (i & c & Hi & Hl). exists c. split; [done|]. by eapply list_elem_of_lookup_2.
Qed.

(** Under unique ids, a location whose id is the id of a member is that
    member. *)
Lemma member_by_id (all : list Location) (ms : list Location) (l : Location) :
  NoDup (id <$> all) -> l ∈ all -> (forall m, m ∈ ms -> m ∈ all) ->
  id l ∈ Spec.idsOf ms -> l ∈ ms.
Proof.
  intros Hnd Hl Hms Hid. apply elem_of_idsOf in Hid as (m & Hm & Hid).
  by rewrite <- (NoDup_fmap_eq id all m l Hnd (Hms m Hm) Hl Hid).
Qed.

(** A location within the radius of the seed of a cluster has the id of
    a member of that cluster or of one created before it. *)
Lemma near_seed_member (all : list Location) (i : nat) (c : ClusterGroup)
    (seed p : Location) (sc pc : Coordinates) :
  clusterByProximity all !! i = Some c ->
  head (locations c) = Some seed -> coordinates seed = Some sc ->
  p ∈ all -> coordinates p = Some pc ->
  (haversineDistance sc pc <= ClusteringAgent.CLUSTER_RADIUS_KM)%Qc ->
  id p ∈ Spec.idsOf (locations c)
  \/ exists j c' m, (j < i)%nat /\ clusterByProximity all !! j = Some c'
                    /\ m ∈ locations c' /\ id m = id p.
Proof.
  intros Hi Hhead Hsc Hp Hpc Hd.
  destruct (clusterByProximity_clustered all) as [[_ _ Hm Hs] _].
  destruct (Hs i c Hi) as (seed' & sc' & rest & Hloc & Hsc' & Hcover).
  rewrite Hloc in Hhead. injection Hhead as ->. rewrite Hsc in Hsc'. injection Hsc' as <-.
  specialize (Hcover p pc Hp Hpc Hd). apply elem_of_union in Hcover as [Hearly|Hhere].
  - right. apply elem_of_idsOf in Hearly as (m & Hmem & Hid).
    apply elem_of_members in Hmem as (j & c' & Hj & Hmc).
    apply lookup_take_Some in Hj as [Hj Hlt]. eauto 10.
  - by left.
Qed.

End ClusteringFacts.

(** C4, as the specification states it, fails: of two places that carry
    one id, both with coordinates, the first seeds a cluster and the
    second is skipped, its id being assigned already: it has coordinates
    and is a member of no cluster. *)
Lemma shared_id_location_dropped :
  ~ Spec.partitionsLocated Spec.equatorKm Spec.twoSharingAnId.
Proof.
  intros [H _].
  destruct (H (Spec.poi "mock-1" attraction (Spec.onEquator 500) None))
    as (i & c & Hi & Hl & _).
  - unfold Spec.twoSharingAnId. rewrite !elem_of_cons. eauto.
  - by eexists.
  - assert (Hc : locations <$> ClusteringAgent.clusterByProximity Spec.equatorKm
                                 Spec.twoSharingAnId
                 = [[Spec.poi "mock-1" temple (Spec.onEquator 0) None]])
      by (vm_compute; reflexivity).
    assert (Hin : locations c ∈ locations <$> ClusteringAgent.clusterByProximity Spec.equatorKm
                                                Spec.twoSharingAnId).
    { apply list_elem_of_fmap_2. by eapply list_elem_of_lookup_2. }
    rewrite Hc in Hin. apply list_elem_of_singleton in Hin. rewrite Hin in Hl.
    apply list_elem_of_singleton in Hl. discriminate Hl.
Qed.

(** C4, amended.  For every input, the members of the clusters are
    input locations that have coordinates, so a location without
    coordinates is a member of no cluster; no id occurs twice among the
    members of all clusters; and the id of every input location that has
    coordinates is the id of a member.  When the ids of the input are
    pairwise distinct, the members are exactly the input locations that
    have coordinates, and the clusters partition them: each is a member
    of one cluster and of no other. *)
Theorem clusters_partition_located hav (all : list Location) :
  let clusters := ClusteringAgent.clusterByProximity hav all in
  (forall m, m ∈ Spec.members clusters -> m ∈ all /\ is_Some (coordinates m))
  /\ NoDup (id <$> Spec.members clusters)
  /\ (forall l, l ∈ all -> is_Some (coordinates l) -> id l ∈ id <$> Spec.members clusters)
  /\ (NoDup (id <$> all) ->
        Spec.members clusters ≡ₚ filter (fun l => is_Some (coordinates l)) all
        /\ Spec.partitionsLocated hav all).
Proof.
  intros clusters.
  destruct (clusterByProximity_clustered hav all) as [[_ Hndm Hm _] Hall].
  fold clusters in Hndm, Hm, Hall.
  split; [done|]. split; [done|]. split.
  { intros l Hl Hc. specialize (Hall l Hl Hc). unfold Spec.idsOf in Hall.
    by apply elem_of_list_to_set in Hall. }
  intros Hnd.
  assert (Hnodup : NoDup (Spec.members clusters)) by (by eapply NoDup_fmap_1).
  assert (Hmem : forall l, l ∈ all -> is_Some (coordinates l) -> l ∈ Spec.members clusters).
  { intros l Hl Hc. apply (member_by_id all); [done..| |by apply Hall].
    intros m Hmm. by apply Hm. }
  split.
  { apply NoDup_Permutation; [done|by apply NoDup_filter, (NoDup_fmap_1 id)|].
    intros l. rewrite list_elem_of_filter. split; [intros Hl; by destruct (Hm l Hl)|].
    intros [Hc Hl]. by apply Hmem. }
  split.
  - intros l Hl Hc. destruct (proj1 (elem_of_members l clusters) (Hmem l Hl Hc))
      as (i & c & Hi & Hlc).
    exists i, c. split; [done|]. split; [done|].
    intros j c' Hj Hlc'. by eapply (NoDup_bind_unique locations clusters j i).
  - intros l Hl Hc Hmem'. destruct (Hm l Hmem') as [_ [x Hx]]. by rewrite Hc in Hx.
Qed.

Lemma clusters_partition_witness :
  Spec.members (ClusteringAgent.clusterByProximity Spec.equatorKm Spec.fourOnALine)
  ≡ₚ Spec.fourOnALine
  /\ Spec.partitionsLocated Spec.equatorKm Spec.fourOnALine.
Proof.
  destruct (clusters_partition_located Spec.equatorKm Spec.fourOnALine) as (_ & _ & _ & H).
  apply H. refine (bool_decide_unpack _ _). vm_compute. exact I.
Defined.

(** C5, as the specification states it, fails: of four points on a line,
    2.2 km apart, the first seeds a cluster that takes the second; the
    third seeds another cluster, which takes the fourth.  The second and
    the fourth are both within 3 km of the third, the seed of the second
    cluster, and are in different clusters. *)
Lemma near_seed_in_different_clusters :
  ~ Spec.nearSeedSameCluster Spec.equatorKm Spec.fourOnALine.
Proof.
  intros H. unfold Spec.nearSeedSameCluster in H.
  assert (Hc : locations <$> ClusteringAgent.clusterByProximity Spec.equatorKm Spec.fourOnALine
               = [[Spec.poi "w" temple (Spec.onEquator 0) None;
                   Spec.poi "x" cafe (Spec.onEquator 20) None];
                  [Spec.poi "y" market (Spec.onEquator 40) None;
                   Spec.poi "z" viewpoint (Spec.onEquator 60) None]])
    by (vm_compute; reflexivity).
  destruct (ClusteringAgent.clusterByProximity Spec.equatorKm Spec.fourOnALine)
    as [|c1 [|c2 [|c3 cs]]]; try discriminate Hc.
  injection Hc as H1 H2.
  destruct (H c2 (Spec.poi "y" market (Spec.onEquator 40) None)
              (Spec.poi "x" cafe (Spec.onEquator 20) None)
              (Spec.poi "z" viewpoint (Spec.onEquator 60) None)
              {| lat := 0; lng := Q2Qc (40 # 1000) |}
              {| lat := 0; lng := Q2Qc (20 # 1000) |}
              {| lat := 0; lng := Q2Qc (60 # 1000) |})
    as (c' & Hc' & Hx & Hz).
  - rewrite !elem_of_cons. eauto.
  - by rewrite H2.
  - reflexivity.
  - unfold Spec.fourOnALine. rewrite !elem_of_cons. eauto 10.
  - reflexivity.
  - unfold Spec.fourOnALine. rewrite !elem_of_cons. eauto 10.
  - reflexivity.
  - vm_compute. discriminate.
  - vm_compute. discriminate.
  - apply elem_of_cons in Hc' as [->|Hc'].
    + rewrite H1 in Hz. apply elem_of_cons in Hz as [Hz|Hz]; [discriminate Hz|].
      apply elem_of_cons in Hz as [Hz|Hz]; [discriminate Hz|]. by apply elem_of_nil in Hz.
    + apply elem_of_cons in Hc' as [->|Hc']; [|by apply elem_of_nil in Hc'].
      rewrite H2 in Hx. apply elem_of_cons in Hx as [Hx|Hx]; [discriminate Hx|].
      apply elem_of_cons in Hx as [Hx|Hx]; [discriminate Hx|]. by apply elem_of_nil in Hx.
Qed.

Lemma fmap_bind_list {A B C} (f : B -> C) (g : A -> list B) (l : list A) :
  f <$> (l ≫= g) = l ≫= (fun x => f <$> g x).
Proof.
  induction l as [|a l IH]; [done|]. by rewrite !bind_cons, fmap_app, IH.
Qed.

(** No id is the id of members of two clusters. *)
Lemma member_ids_one_cluster hav (all : list Location) (i j : nat) (c c' : ClusterGroup)
    (m m' : Location) :
  ClusteringAgent.clusterByProximity hav all !! i = Some c ->
  ClusteringAgent.clusterByProximity hav all !! j = Some c' ->
  m ∈ locations c -> m' ∈ locations c' -> id m = id m' -> i = j.
Proof.
  intros Hi Hj Hm Hm' Hid.
  destruct (clusterByProximity_clustered hav all) as [[_ Hnd _ _] _].
  unfold Spec.members in Hnd. rewrite fmap_bind_list in Hnd.
  apply (NoDup_bind_unique (fun c => id <$> locations c) _ i j c c' (id m) Hnd Hi Hj).
  - by apply list_elem_of_fmap_2.
  - rewrite Hid. by apply list_elem_of_fmap_2.
Qed.

(** C5, amended.  Of two locations within the radius of the seed of a
    cluster: when no cluster created before it has taken either (has a
    member with its id), the ids of both are ids of members of the
    cluster, and when the ids of the input are pairwise distinct both
    are members of the cluster.  A location within the radius that an
    earlier cluster has taken stays in the earlier cluster: the cluster
    has no member with its id, and when the ids of the input are
    pairwise distinct the location is a member of the earlier cluster
    and not of this one. *)
Theorem near_seed_same_cluster_unless_taken hav (all : list Location)
    (i : nat) (c : ClusterGroup) (seed p q : Location) (sc pc qc : Coordinates) :
  ClusteringAgent.clusterByProximity hav all !! i = Some c ->
  head (locations c) = Some seed -> coordinates seed = Some sc ->
  p ∈ all -> coordinates p = Some pc ->
  q ∈ all -> coordinates q = Some qc ->
  (hav sc pc <= ClusteringAgent.CLUSTER_RADIUS_KM)%Qc ->
  (hav sc qc <= ClusteringAgent.CLUSTER_RADIUS_KM)%Qc ->
  (~ Spec.takenEarlier hav all i p -> ~ Spec.takenEarlier hav all i q ->
   (id p ∈ id <$> locations c /\ id q ∈ id <$> locations c)
   /\ (NoDup (id <$> all) -> p ∈ locations c /\ q ∈ locations c))
  /\ (forall x, x = p \/ x = q -> Spec.takenEarlier hav all i x ->
        (id x ∉ id <$> locations c)
        /\ (NoDup (id <$> all) ->
            (x ∉ locations c)
            /\ (exists j c', (j < i)%nat
                             /\ ClusteringAgent.clusterByProximity hav all !! j = Some c'
                             /\ x ∈ locations c'))).
Proof.
  intros Hi Hhead Hsc Hp Hpc Hq Hqc Hdp Hdq.
  destruct (clusterByProximity_clustered hav all) as [[_ _ Hm _] _].
  assert (Hsub : forall k ck m, ClusteringAgent.clusterByProximity hav all !! k = Some ck ->
                                m ∈ locations ck -> m ∈ all).
  { intros k ck m Hk Hmc. apply Hm. apply elem_of_members. eauto. }
  split.
  - intros Hfp Hfq.
    assert (Hidp : id p ∈ Spec.idsOf (locations c)).
    { destruct (near_seed_member hav all i c seed p sc pc)
        as [?|(j & c' & m & Hj & Hc' & Hmc & Hid)]; try done.
      destruct Hfp. by exists j, c', m. }
    assert (Hidq : id q ∈ Spec.idsOf (locations c)).
    { destruct (near_seed_member hav all i c seed q sc qc)
        as [?|(j & c' & m & Hj & Hc' & Hmc & Hid)]; try done.
      destruct Hfq. by exists j, c', m. }
    split.
    { unfold Spec.idsOf in *. by rewrite !elem_of_list_to_set in Hidp, Hidq. }
    intros Hnd.
    split; apply (member_by_id all); try done; intros m Hmc; by apply (Hsub i c).
  - intros x Hx (j & c' & m & Hj & Hc' & Hmc & Hid).
    assert (Hxall : x ∈ all) by (by destruct Hx as [->| ->]).
    assert (Hout : id x ∉ id <$> locations c).
    { intros Hin. apply list_elem_of_fmap in Hin as (m' & Hid' & Hm').
      assert (i = j); [|lia].
      apply (member_ids_one_cluster hav all i j c c' m' m Hi Hc' Hm' Hmc). congruence. }
    split; [done|]. intros Hnd. split.
    + intros Hin. apply Hout. by apply list_elem_of_fmap_2.
    + exists j, c'. split; [done|]. split; [done|].
      by rewrite <- (NoDup_fmap_eq id all m x Hnd (Hsub j c' m Hc' Hmc) Hxall Hid).
Qed.

Lemma near_seed_same_cluster_witness :
  exists c,
    ClusteringAgent.clusterByProximity Spec.equatorKm Spec.fourOnALine !! 1%nat = Some c
    /\ Spec.poi "z" viewpoint (Spec.onEquator 60) None ∈ locations c
    /\ Spec.poi "x" cafe (Spec.onEquator 20) None ∉ locations c.
Proof.
  assert (Hc : locations <$> ClusteringAgent.clusterByProximity Spec.equatorKm Spec.fourOnALine
               = [[Spec.poi "w" temple (Spec.onEquator 0) None;
                   Spec.poi "x" cafe (Spec.onEquator 20) None];
                  [Spec.poi "y" market (Spec.onEquator 40) None;
                   Spec.poi "z" viewpoint (Spec.onEquator 60) None]])
    by (vm_compute; reflexivity).
  destruct (ClusteringAgent.clusterByProximity Spec.equatorKm Spec.fourOnALine)
    as [|c1 [|c2 [|c3 cs]]] eqn:Hclusters; try discriminate Hc.
  injection Hc as H1 H2.
  assert (Hnd : NoDup (id <$> Spec.fourOnALine))
    by (refine (bool_decide_unpack _ _); vm_compute; exact I).
  assert (Hfree : forall l, l = Spec.poi "y" market (Spec.onEquator 40) None
                            \/ l = Spec.poi "z" viewpoint (Spec.onEquator 60) None ->
                            ~ Spec.takenEarlier Spec.equatorKm Spec.fourOnALine 1 l).
  { intros l Hl (j & c' & m & Hj & Hc' & Hm & Hid). rewrite Hclusters in Hc'.
    destruct j as [|j]; [|lia]. injection Hc' as <-. rewrite H1 in Hm.
    apply elem_of_cons in Hm as [->|Hm]; [by destruct Hl as [->| ->]|].
    apply elem_of_cons in Hm as [->|Hm]; [by destruct Hl as [->| ->]|].
    by apply elem_of_nil in Hm. }
  exists c2. split; [reflexivity|]. split.
  - apply (near_seed_same_cluster_unless_taken Spec.equatorKm Spec.fourOnALine 1 c2
             (Spec.poi "y" market (Spec.onEquator 40) None)
             (Spec.poi "y" market (Spec.onEquator 40) None)
             (Spec.poi "z" viewpoint (Spec.onEquator 60) None)
             {| lat := 0; lng := Q2Qc (40 # 1000) |}
             {| lat := 0; lng := Q2Qc (40 # 1000) |}
             {| lat := 0; lng := Q2Qc (60 # 1000) |}).
    + by rewrite Hclusters.
    + by rewrite H2.
    + reflexivity.
    + unfold Spec.fourOnALine. rewrite !elem_of_cons. eauto 10.
    + reflexivity.
    + unfold Spec.fourOnALine. rewrite !elem_of_cons. eauto 10.
    + reflexivity.
    + vm_compute. discriminate.
    + vm_compute. discriminate.
    + apply Hfree. by left.
    + apply Hfree. by right.
    + exact Hnd.
  - apply (near_seed_same_cluster_unless_taken Spec.equatorKm Spec.fourOnALine 1 c2
             (Spec.poi "y" market (Spec.onEquator 40) None)
             (Spec.poi "x" cafe (Spec.onEquator 20) None)
             (Spec.poi "z" viewpoint (Spec.onEquator 60) None)
             {| lat := 0; lng := Q2Qc (40 # 1000) |}
             {| lat := 0; lng := Q2Qc (20 # 1000) |}
             {| lat := 0; lng := Q2Qc (60 # 1000) |}).
    + by rewrite Hclusters.
    + by rewrite H2.
    + reflexivity.
    + unfold Spec.fourOnALine. rewrite !elem_of_cons. eauto 10.
    + reflexivity.
    + unfold Spec.fourOnALine. rewrite !elem_of_cons. eauto 10.
    + reflexivity.
    + vm_compute. discriminate.
    + vm_compute. discriminate.
    + by left.
    + exists 0%nat, c1, (Spec.poi "x" cafe (Spec.onEquator 20) None).
      split; [lia|]. split; [by rewrite Hclusters|]. split; [|done].
      rewrite H1. rewrite !elem_of_cons. eauto.
    + exact Hnd.
Defined.

(** ** Routing within a cluster *)
Section RoutingFacts.
Context {Ref : Type} `{EqDecision Ref}.
Variable deref : Ref -> Location.
Variable haversineDistance : Coordinates -> Coordinates -> Qc.

Local Abbreviation closer := (ClusteringAgent.closer deref haversineDistance).
Local Abbreviation visit := (ClusteringAgent.visit deref haversineDistance).
Local Abbreviation optimizeClusterOrder :=
  (ClusteringAgent.optimizeClusterOrder deref haversineDistance).

(** A [Set] has every entry of the array once, in the order of the first
    occurrences; it is the array itself when the array has no repeats. *)
Lemma newSet_fold (items acc : list Ref) :
  NoDup acc ->
  let s := fold_left (fun s x => if bool_decide (x ∈ s) then s else s ++ [x]) items acc in
  NoDup s
  /\ (forall x, x ∈ s <-> x ∈ acc \/ x ∈ items)
  /\ (NoDup items -> (forall x, x ∈ items -> x ∉ acc) -> s = acc ++ items).
Proof.
  revert acc. induction items as [|y items IH]; intros acc Hacc; cbn [fold_left].
  - split; [done|]. split; [set_solver|]. intros _ _. by rewrite app_nil_r.
  - case_bool_decide as Hy.
    + destruct (IH acc Hacc) as (H1 & H2 & H3). cbv zeta in *.
      split; [done|]. split; [set_solver|].
      intros _ Hfresh. destruct (Hfresh y); [left|done].
    + assert (Hacc' : NoDup (acc ++ [y])).
      { apply NoDup_app. split; [done|]. split; [set_solver|]. apply NoDup_singleton. }
      destruct (IH (acc ++ [y]) Hacc') as (H1 & H2 & H3). cbv zeta in *.
      split; [done|]. split; [set_solver|].
      intros Hnd Hfresh. apply NoDup_cons in Hnd as [Hyi Hnd].
      rewrite H3; [by rewrite <- app_assoc|done|]. set_solver.
Qed.

Lemma newSet_NoDup (items : list Ref) : NoDup (ClusteringAgent.newSet items).
Proof. apply (newSet_fold items []). constructor. Qed.

Lemma newSet_id (items : list Ref) : NoDup items -> ClusteringAgent.newSet items = items.
Proof.
  intros Hnd. destruct (newSet_fold items [] (NoDup_nil_2)) as (_ & _ & H).
  apply H; [done|]. intros x _ Hx. by apply elem_of_nil in Hx.
Qed.

(** The nearest entry, when there is one, is an entry of [remaining]. *)
Lemma closer_fold (current : Ref) (remaining : list Ref) (st : option Ref * option Qc) (n : Ref) :
  fst (fold_left (closer current) remaining st) = Some n ->
  n ∈ remaining \/ fst st = Some n.
Proof.
  revert st. induction remaining as [|loc remaining IH]; intros st Hn; cbn [fold_left] in Hn.
  - by right.
  - apply IH in Hn as [Hn|Hn]; [left; by right|].
    unfold ClusteringAgent.closer in Hn.
    destruct (coordinates (deref current)), (coordinates (deref loc)); try by right.
    destruct (snd st); [case_bool_decide|]; try by right.
    + injection Hn as ->. left. by left.
    + injection Hn as ->. left. by left.
Qed.

Lemma setDelete_absent (x : Ref) (s : list Ref) :
  x ∉ s -> ClusteringAgent.setDelete x s = s.
Proof.
  unfold ClusteringAgent.setDelete. induction s as [|y s IH]; intros Hx; [done|].
  apply not_elem_of_cons in Hx as [Hne Hx]. rewrite filter_cons.
  rewrite decide_True by done. by rewrite IH.
Qed.

Lemma setDelete_Permutation (x : Ref) (s : list Ref) :
  NoDup s -> x ∈ s -> s ≡ₚ x :: ClusteringAgent.setDelete x s.
Proof.
  unfold ClusteringAgent.setDelete. induction s as [|y s IH]; intros Hnd Hx;
    [by apply elem_of_nil in Hx|].
  apply NoDup_cons in Hnd as [Hy Hnd]. rewrite filter_cons.
  destruct (decide (y <> x)) as [Hne|Heq].
  - apply elem_of_cons in Hx as [->|Hx]; [done|].
    rewrite (IH Hnd Hx) at 1. apply Permutation_swap.
  - assert (y = x) as -> by (destruct (decide (y = x)); [done|by destruct Heq]).
    constructor. fold (ClusteringAgent.setDelete x s). by rewrite setDelete_absent.
Qed.

Lemma setDelete_NoDup (x : Ref) (s : list Ref) :
  NoDup s -> NoDup (ClusteringAgent.setDelete x s).
Proof. apply NoDup_filter. Qed.

(** The loop ends within as many rounds as [remaining] has entries, and
    returns the visited entries followed by all of [remaining], in some
    order. *)
Lemma visit_Permutation (fuel : nat) (ordered : list Ref) (current : Ref) (remaining : list Ref) :
  NoDup remaining -> (length remaining <= fuel)%nat ->
  exists out, visit fuel ordered current remaining = Some out /\ out ≡ₚ ordered ++ remaining.
Proof.
  revert ordered current remaining.
  induction fuel as [|fuel IH]; intros ordered current remaining Hnd Hlen.
  - destruct remaining; [|simpl in Hlen; lia]. exists ordered. by rewrite app_nil_r.
  - destruct remaining as [|r remaining]; [exists ordered; by rewrite app_nil_r|].
    cbn [ClusteringAgent.visit].
    destruct (fst (fold_left (closer current) (r :: remaining) (None, None))) as [nearest|] eqn:Hn.
    + apply closer_fold in Hn as [Hin|?]; [|done].
      pose proof (setDelete_Permutation nearest _ Hnd Hin) as Hp.
      destruct (IH (ordered ++ [nearest]) nearest (ClusteringAgent.setDelete nearest (r :: remaining)))
        as (out & Hout & Hperm).
      * by apply setDelete_NoDup.
      * apply Permutation_length in Hp. simpl in *. lia.
      * exists out. split; [done|]. rewrite Hperm, <- app_assoc. simpl. by rewrite <- Hp.
    + by eexists.
Qed.

(** [optimizeClusterOrder] returns, and what it returns is the array with
    each object kept once. *)
Lemma optimizeClusterOrder_once (locs : list Ref) :
  exists out, optimizeClusterOrder locs = Some out
              /\ (NoDup locs -> out ≡ₚ locs).
Proof.
  unfold ClusteringAgent.optimizeClusterOrder. case_bool_decide; [by eexists|].
  destruct locs as [|first rest]; [by eexists|].
  destruct (visit_Permutation (length (ClusteringAgent.newSet rest)) [first] first
              (ClusteringAgent.newSet rest)) as (out & Hout & Hperm);
    [apply newSet_NoDup|done|].
  exists out. split; [done|]. intros Hnd. apply NoDup_cons in Hnd as [_ Hnd].
  by rewrite Hperm, newSet_id.
Qed.

End RoutingFacts.

Lemma objectAt_seq (pois : list Location) :
  Spec.objectAt pois <$> seq 0 (length pois) = pois.
Proof.
  unfold Spec.objectAt. induction pois as [|a pois IH]; [done|].
  cbn [length seq fmap list_fmap]. f_equal.
  rewrite <- fmap_S_seq, <- list_fmap_compose. exact IH.
Qed.

(** C6: for every array of locations, of any length and with or without
    coordinates, [optimizeClusterOrder] returns, and its output lists the
    same locations, hence the same ids, each as often as the input does. *)
Theorem routeWithinCluster_permutation hav (pois : list Location) :
  exists out,
    Spec.routeWithinCluster hav pois = Some out
    /\ out ≡ₚ pois
    /\ id <$> out ≡ₚ id <$> pois.
Proof.
  unfold Spec.routeWithinCluster.
  destruct (optimizeClusterOrder_once (Spec.objectAt pois) hav (seq 0 (length pois)))
    as (order & Horder & Hperm).
  rewrite Horder. eexists. split; [reflexivity|].
  assert (Spec.objectAt pois <$> order ≡ₚ pois) as Hp.
  { rewrite (Hperm (NoDup_seq _ _)). by rewrite objectAt_seq. }
  split; [done|]. by rewrite Hp.
Qed.

Example routeWithinCluster_nearest_first :
  Spec.routeWithinCluster Spec.equatorKm
    [Spec.poi "a" cafe (Spec.onEquator 0) None;
     Spec.poi "b" cafe (Spec.onEquator 9) None;
     Spec.poi "c" cafe None None;
     Spec.poi "d" cafe (Spec.onEquator 2) None;
     Spec.poi "e" cafe (Spec.onEquator 5) None]
  = Some [Spec.poi "a" cafe (Spec.onEquator 0) None;
          Spec.poi "d" cafe (Spec.onEquator 2) None;
          Spec.poi "e" cafe (Spec.onEquator 5) None;
          Spec.poi "b" cafe (Spec.onEquator 9) None;
          Spec.poi "c" cafe None None].
Proof. vm_compute. reflexivity. Qed.

(** An object that the array lists twice is visited once. *)
Example optimizeClusterOrder_alias :
  ClusteringAgent.optimizeClusterOrder
    (fun n : nat => Spec.poi (pretty n) cafe (Spec.onEquator (Z.of_nat n)) None)
    Spec.equatorKm [0; 9; 9]%nat = Some [0; 9]%nat.
Proof. vm_compute. reflexivity. Qed.

(** * Further properties *)

(** ** The order of the clusters *)
Section SequencingFacts.
Context {Ref : Type} `{EqDecision Ref}.
Variable deref : Ref -> ClusterGroup.
Variable haversineDistance : Coordinates -> Coordinates -> Qc.

Local Abbreviation dist :=
  (fun a b : Ref => haversineDistance (centroid (deref a)) (centroid (deref b))).
Local Abbreviation closerCluster := (ClusteringAgent.closerCluster deref haversineDistance).
Local Abbreviation visitClusters := (ClusteringAgent.visitClusters deref haversineDistance).

(** [newSet_id] was stated for references to locations; it does not
    read the objects. *)
Local Abbreviation unread := (fun _ : Ref => Spec.objectAt [] 0).

(** The scan of [remaining] keeps the first of the nearest entries seen. *)
Lemma closerCluster_fold (current : Ref) (todo seen : list Ref) (st : option Ref * option Qc) :
  match st with
  | (Some n, Some d) =>
      d = dist current n /\ n ∈ seen /\ forall c, c ∈ seen -> (d <= dist current c)%Qc
  | (None, None) => seen = []
  | _ => False
  end ->
  match fold_left (closerCluster current) todo st with
  | (Some n, Some d) =>
      d = dist current n /\ n ∈ seen ++ todo
      /\ forall c, c ∈ seen ++ todo -> (d <= dist current c)%Qc
  | (None, None) => seen ++ todo = []
  | _ => False
  end.
Proof.
  revert seen st. induction todo as [|x todo IH]; intros seen st Hst; cbn [fold_left].
  - rewrite app_nil_r. exact Hst.
  - replace (seen ++ x :: todo) with ((seen ++ [x]) ++ todo) by (by rewrite <- app_assoc).
    apply IH. unfold ClusteringAgent.closerCluster.
    destruct st as [[n|] [d|]]; try done; cbn [snd].
    + destruct Hst as (Hd & Hn & Hmin). case_bool_decide as Hlt.
      * split; [done|]. split; [set_solver|].
        intros c [Hc|Hc]%elem_of_app.
        -- apply Qclt_le_weak. eapply Qclt_le_trans; [exact Hlt|by apply Hmin].
        -- apply list_elem_of_singleton in Hc as ->. apply Qcle_refl.
      * split; [done|]. split; [set_solver|].
        intros c [Hc|Hc]%elem_of_app; [by apply Hmin|].
        apply list_elem_of_singleton in Hc as ->. by apply Qcnot_lt_le.
    + subst seen. split; [done|]. split; [set_solver|].
      intros c Hc. rewrite app_nil_l in Hc. apply list_elem_of_singleton in Hc as ->.
      apply Qcle_refl.
Qed.

(** A round of the loop over a set that is not empty finds a nearest
    entry. *)
Lemma closerCluster_nearest (current : Ref) (remaining : list Ref) :
  remaining <> [] ->
  exists n, fst (fold_left (closerCluster current) remaining (None, None)) = Some n
            /\ n ∈ remaining
            /\ forall c, c ∈ remaining -> (dist current n <= dist current c)%Qc.
Proof.
  intros Hne. pose proof (closerCluster_fold current remaining [] (None, None) eq_refl) as H.
  rewrite app_nil_l in H.
  destruct (fold_left (closerCluster current) remaining (None, None)) as [[n|] [d|]]; try done.
  destruct H as (-> & Hn & Hmin). by exists n.
Qed.

(** The loop ends within as many rounds as [remaining] has entries; it
    appends all of [remaining], each entry a nearest one, among those
    that follow it, to the entry before it. *)
Lemma visitClusters_greedy (fuel : nat) (ordered : list Ref) (current : Ref)
    (remaining : list Ref) :
  NoDup remaining -> (length remaining <= fuel)%nat ->
  exists tail,
    visitClusters fuel ordered current remaining = Some (ordered ++ tail)
    /\ tail ≡ₚ remaining
    /\ forall i j a b c,
         (current :: tail) !! i = Some a -> tail !! i = Some b ->
         (i <= j)%nat -> tail !! j = Some c -> (dist a b <= dist a c)%Qc.
Proof.
  revert ordered current remaining.
  induction fuel as [|fuel IH]; intros ordered current remaining Hnd Hlen.
  - destruct remaining; [|simpl in Hlen; lia]. exists []. rewrite app_nil_r.
    split; [done|]. split; [done|]. intros i j a b c _ Hb. by rewrite lookup_nil in Hb.
  - destruct remaining as [|r remaining].
    { exists []. rewrite app_nil_r. split; [done|]. split; [done|].
      intros i j a b c _ Hb. by rewrite lookup_nil in Hb. }
    cbn [ClusteringAgent.visitClusters].
    destruct (closerCluster_nearest current (r :: remaining)) as (n & Hn & Hin & Hmin); [done|].
    rewrite Hn.
    pose proof (setDelete_Permutation n _ Hnd Hin) as Hp.
    destruct (IH (ordered ++ [n]) n (ClusteringAgent.setDelete n (r :: remaining)))
      as (tail & Hout & Hperm & Hgreedy).
    + by apply setDelete_NoDup.
    + apply Permutation_length in Hp. simpl in *. lia.
    + exists (n :: tail). split; [by rewrite Hout, <- app_assoc|].
      split; [by rewrite Hp, Hperm|].
      intros i j a b c Ha Hb Hij Hc. destruct i as [|i].
      * injection Ha as <-. injection Hb as <-. apply Hmin.
        rewrite Hp, <- Hperm. by eapply list_elem_of_lookup_2.
      * destruct j as [|j]; [lia|]. simpl in Ha, Hb, Hc.
        apply (Hgreedy i j); [done|done|lia|done].
Qed.

(** [optimizeClusterSequence] returns; on distinct objects its result
    is the array reordered, the first cluster still first. *)
Lemma optimizeClusterSequence_once (clusters : list Ref) :
  NoDup clusters ->
  exists out,
    ClusteringAgent.optimizeClusterSequence deref haversineDistance clusters = Some out
    /\ out ≡ₚ clusters
    /\ head out = head clusters.
Proof.
  intros Hnd. unfold ClusteringAgent.optimizeClusterSequence. case_bool_decide as Hlen.
  { by exists clusters. }
  destruct clusters as [|first rest]; [simpl in Hlen; lia|].
  apply NoDup_cons in Hnd as [Hfirst Hnd]. rewrite (newSet_id unread rest Hnd).
  destruct (visitClusters_greedy (length rest) [first] first rest Hnd)
    as (tail & Hout & Hperm & _); [done|].
  exists (first :: tail). split; [done|]. split; [by rewrite Hperm|done].
Qed.

End SequencingFacts.

(** ** The greedy route within a cluster *)
Section RoutingGreedy.
Context {Ref : Type} `{EqDecision Ref}.
Variable deref : Ref -> Location.
Variable haversineDistance : Coordinates -> Coordinates -> Qc.

Local Abbreviation closer := (ClusteringAgent.closer deref haversineDistance).
Local Abbreviation visit := (ClusteringAgent.visit deref haversineDistance).
Local Abbreviation located := (fun r : Ref => is_Some (coordinates (deref r))).

(** From a location without coordinates the scan finds nothing. *)
Lemma closer_fold_unlocated (current : Ref) (todo : list Ref) (st : option Ref * option Qc) :
  coordinates (deref current) = None -> fold_left (closer current) todo st = st.
Proof.
  intros Hc. induction todo as [|x todo IH]; [done|]. cbn [fold_left].
  unfold ClusteringAgent.closer at 2. by rewrite Hc.
Qed.

(** From a location with coordinates the scan keeps the first of the
    nearest entries that have coordinates. *)
Lemma closer_fold_located (current : Ref) (cc : Coordinates) (todo seen : list Ref)
    (st : option Ref * option Qc) :
  coordinates (deref current) = Some cc ->
  match st with
  | (Some n, Some d) =>
      n ∈ seen /\ (exists nc, coordinates (deref n) = Some nc /\ d = haversineDistance cc nc)
      /\ forall c xc, c ∈ seen -> coordinates (deref c) = Some xc ->
                      (d <= haversineDistance cc xc)%Qc
  | (None, None) => forall c, c ∈ seen -> coordinates (deref c) = None
  | _ => False
  end ->
  match fold_left (closer current) todo st with
  | (Some n, Some d) =>
      n ∈ seen ++ todo
      /\ (exists nc, coordinates (deref n) = Some nc /\ d = haversineDistance cc nc)
      /\ forall c xc, c ∈ seen ++ todo -> coordinates (deref c) = Some xc ->
                      (d <= haversineDistance cc xc)%Qc
  | (None, None) => forall c, c ∈ seen ++ todo -> coordinates (deref c) = None
  | _ => False
  end.
Proof.
  intros Hcc. revert seen st. induction todo as [|x todo IH]; intros seen st Hst; cbn [fold_left].
  - rewrite app_nil_r. exact Hst.
  - replace (seen ++ x :: todo) with ((seen ++ [x]) ++ todo) by (by rewrite <- app_assoc).
    apply IH. unfold ClusteringAgent.closer. rewrite Hcc.
    destruct (coordinates (deref x)) as [xc|] eqn:Hx.
    + destruct st as [[n|] [d|]]; try done; cbn [snd].
      * destruct Hst as (Hn & Hd & Hmin). case_bool_decide as Hlt.
        -- split; [set_solver|]. split; [by exists xc|].
           intros c yc [Hc|Hc]%elem_of_app Hyc.
           ++ apply Qclt_le_weak. eapply Qclt_le_trans; [exact Hlt|by eapply Hmin].
           ++ apply list_elem_of_singleton in Hc as ->. rewrite Hx in Hyc.
              injection Hyc as <-. apply Qcle_refl.
        -- split; [set_solver|]. split; [done|].
           intros c yc [Hc|Hc]%elem_of_app Hyc; [by eapply Hmin|].
           apply list_elem_of_singleton in Hc as ->. rewrite Hx in Hyc.
           injection Hyc as <-. by apply Qcnot_lt_le.
      * split; [set_solver|]. split; [by exists xc|].
        intros c yc [Hc|Hc]%elem_of_app Hyc; [by rewrite (Hst c Hc) in Hyc|].
        apply list_elem_of_singleton in Hc as ->. rewrite Hx in Hyc.
        injection Hyc as <-. apply Qcle_refl.
    + destruct st as [[n|] [d|]]; try done.
      * destruct Hst as (Hn & Hd & Hmin). split; [set_solver|]. split; [done|].
        intros c yc [Hc|Hc]%elem_of_app Hyc; [by eapply Hmin|].
        apply list_elem_of_singleton in Hc as ->. by rewrite Hx in Hyc.
      * intros c [Hc|Hc]%elem_of_app; [by apply Hst|].
        by apply list_elem_of_singleton in Hc as ->.
Qed.

Lemma filter_setDelete (P : Ref -> Prop) `{!forall r, Decision (P r)} (n : Ref) (s : list Ref) :
  ~ P n -> filter P (ClusteringAgent.setDelete n s) = filter P s.
Proof.
  intros Hn. unfold ClusteringAgent.setDelete. induction s as [|y s IH]; [done|].
  rewrite !filter_cons. destruct (decide (y <> n)) as [Hne|Heq].
  - rewrite filter_cons. destruct (decide (P y)); by rewrite IH.
  - assert (y = n) as -> by (destruct (decide (y = n)); [done|by destruct Heq]).
    by rewrite decide_False.
Qed.

(** From a location with coordinates, the loop visits the entries that
    have coordinates, each a nearest one, among those that follow it, to
    the entry before it, and then the entries without coordinates in the
    order of the set. *)
Lemma visit_greedy (fuel : nat) (ordered : list Ref) (current : Ref) (cc : Coordinates)
    (remaining : list Ref) :
  coordinates (deref current) = Some cc ->
  NoDup remaining -> (length remaining <= fuel)%nat ->
  exists g,
    visit fuel ordered current remaining
    = Some (ordered ++ g ++ filter (fun r => ~ located r) remaining)
    /\ g ≡ₚ filter located remaining
    /\ forall i j a b c ca cb xc,
         (current :: g) !! i = Some a -> g !! i = Some b ->
         (i <= j)%nat -> g !! j = Some c ->
         coordinates (deref a) = Some ca -> coordinates (deref b) = Some cb ->
         coordinates (deref c) = Some xc ->
         (haversineDistance ca cb <= haversineDistance ca xc)%Qc.
Proof.
  revert ordered current cc remaining.
  induction fuel as [|fuel IH]; intros ordered current cc remaining Hcc Hnd Hlen.
  - destruct remaining; [|simpl in Hlen; lia]. exists []. rewrite !app_nil_r.
    split; [done|]. split; [done|]. intros i j a b c ca cb xc _ Hb. by rewrite lookup_nil in Hb.
  - destruct remaining as [|r remaining].
    { exists []. rewrite !app_nil_r. split; [done|]. split; [done|].
      intros i j a b c ca cb xc _ Hb. by rewrite lookup_nil in Hb. }
    cbn [ClusteringAgent.visit].
    pose proof (closer_fold_located current cc (r :: remaining) [] (None, None) Hcc) as Hscan.
    rewrite app_nil_l in Hscan.
    destruct (fold_left (closer current) (r :: remaining) (None, None)) as [[n|] [d|]];
      cbn [fst]; try (exfalso; apply Hscan; intros c Hc; by apply elem_of_nil in Hc).
    + destruct Hscan as (Hin & (nc & Hnc & ->) & Hmin);
        [intros c Hc; by apply elem_of_nil in Hc|].
      pose proof (setDelete_Permutation n _ Hnd Hin) as Hp.
      destruct (IH (ordered ++ [n]) n nc (ClusteringAgent.setDelete n (r :: remaining)) Hnc)
        as (g & Hout & Hperm & Hgreedy).
      * by apply setDelete_NoDup.
      * apply Permutation_length in Hp. simpl in *. lia.
      * exists (n :: g). split.
        { rewrite Hout, <- app_assoc, filter_setDelete; [done|].
          intros Hn. apply Hn. by rewrite Hnc. }
        split.
        { rewrite Hperm. rewrite Hp at 2. rewrite filter_cons.
          rewrite decide_True; [done|]. by rewrite Hnc. }
        intros i j a b c ca cb xc Ha Hb Hij Hc Hca Hcb Hxc. destruct i as [|i].
        -- injection Ha as <-. injection Hb as <-. rewrite Hcc in Hca. injection Hca as <-.
           rewrite Hnc in Hcb. injection Hcb as <-. apply (Hmin c); [|done].
           assert (c ∈ n :: g) as Hcg by (by eapply list_elem_of_lookup_2).
           apply elem_of_cons in Hcg as [->|Hcg]; [done|].
           rewrite Hperm in Hcg. apply list_elem_of_filter in Hcg as [_ Hcg].
           rewrite Hp. by right.
        -- destruct j as [|j]; [lia|]. simpl in Ha, Hb, Hc.
           apply (Hgreedy i j a b c); try done. lia.
    + exists []. rewrite app_nil_l.
      assert (Hnone : forall c, c ∈ r :: remaining -> coordinates (deref c) = None).
      { apply Hscan. intros c Hc. by apply elem_of_nil in Hc. }
      assert (Hall : filter (fun r => ~ located r) (r :: remaining) = r :: remaining).
      { clear -Hnone. induction (r :: remaining) as [|y s IHs]; [done|].
        rewrite filter_cons, decide_True.
        - f_equal. apply IHs. intros c Hc. apply Hnone. by right.
        - rewrite (Hnone y); [|by left]. by intros [? [=]]. }
      assert (Hnil : filter located (r :: remaining) = []).
      { clear -Hnone. induction (r :: remaining) as [|y s IHs]; [done|].
        rewrite filter_cons, decide_False.
        - apply IHs. intros c Hc. apply Hnone. by right.
        - rewrite (Hnone y); [|by left]. by intros [? [=]]. }
      rewrite Hall, Hnil. split; [done|]. split; [done|].
      intros i j a b c ca cb xc _ Hb. by rewrite lookup_nil in Hb.
Qed.

(** From a location without coordinates, the loop appends the set as it
    is. *)
Lemma visit_unlocated (fuel : nat) (ordered : list Ref) (current : Ref) (remaining : list Ref) :
  coordinates (deref current) = None -> (0 < fuel)%nat ->
  visit fuel ordered current remaining = Some (ordered ++ remaining).
Proof.
  intros Hc Hfuel. destruct fuel as [|fuel]; [lia|].
  destruct remaining as [|r remaining]; [by rewrite app_nil_r|].
  cbn [ClusteringAgent.visit]. by rewrite closer_fold_unlocated.
Qed.

End RoutingGreedy.

Lemma objectAt_tail (first : Location) (rest : list Location) :
  Spec.objectAt (first :: rest) <$> seq 1 (length rest) = rest.
Proof.
  pose proof (objectAt_seq (first :: rest)) as H. cbn [length seq fmap list_fmap] in H.
  by injection H.
Qed.

Lemma filter_fmap_list {A B} (f : A -> B) (P : B -> Prop) `{!forall b, Decision (P b)}
    (l : list A) :
  filter P (f <$> l) = f <$> filter (fun a => P (f a)) l.
Proof.
  induction l as [|a l IH]; [done|]. rewrite fmap_cons, !filter_cons.
  destruct (decide (P (f a))); by rewrite IH.
Qed.

Lemma objectAt_tail_filter (P : Location -> Prop) `{!forall l, Decision (P l)}
    (first : Location) (rest : list Location) :
  Spec.objectAt (first :: rest)
    <$> filter (fun r => P (Spec.objectAt (first :: rest) r)) (seq 1 (length rest))
  = filter P rest.
Proof.
  rewrite <- (objectAt_tail first rest) at 3. by rewrite filter_fmap_list.
Qed.

(** X1: [optimizeClusterSequence] always returns.  On an array of
    distinct cluster objects its result is a reordering of the array
    that starts with the same cluster; an array of at most two clusters
    is returned as it is, and in a longer one every cluster is followed
    by a cluster whose centroid is nearest to its own among all the
    clusters that come after it. *)
Theorem optimizeClusterSequence_nearest_next {Ref : Type} `{EqDecision Ref}
    (deref : Ref -> ClusterGroup) (hav : Coordinates -> Coordinates -> Qc)
    (clusters : list Ref) :
  NoDup clusters ->
  exists out,
    ClusteringAgent.optimizeClusterSequence deref hav clusters = Some out
    /\ out ≡ₚ clusters
    /\ head out = head clusters
    /\ ((length clusters <= 2)%nat -> out = clusters)
    /\ ((2 < length clusters)%nat ->
        forall i j a b c,
          out !! i = Some a -> out !! S i = Some b ->
          (i < j)%nat -> out !! j = Some c ->
          (hav (centroid (deref a)) (centroid (deref b))
           <= hav (centroid (deref a)) (centroid (deref c)))%Qc).
Proof.
  intros Hnd. unfold ClusteringAgent.optimizeClusterSequence. case_bool_decide as Hlen.
  { exists clusters. repeat split; try done. intros; lia. }
  destruct clusters as [|first rest]; [simpl in Hlen; lia|].
  apply NoDup_cons in Hnd as [Hfirst Hnd].
  rewrite (newSet_id (fun _ => Spec.objectAt [] 0) rest Hnd).
  destruct (visitClusters_greedy deref hav (length rest) [first] first rest Hnd)
    as (tail & Hout & Hperm & Hgreedy); [done|].
  exists (first :: tail). split; [done|]. split; [by rewrite Hperm|]. split; [done|].
  split; [intros; lia|]. intros _ i j a b c Ha Hb Hij Hc.
  destruct j as [|j]; [lia|]. simpl in Hb, Hc. apply (Hgreedy i j); [done|done|lia|done].
Qed.

Lemma optimizeClusterSequence_nearest_next_witness :
  exists out,
    ClusteringAgent.optimizeClusterSequence
      (ClusteringStage.clusterAt
         (ClusteringAgent.clusterByProximity Spec.equatorKm
            [Spec.poi "a" cafe (Spec.onEquator 0) None;
             Spec.poi "b" cafe (Spec.onEquator 100) None;
             Spec.poi "c" cafe (Spec.onEquator 50) None]))
      Spec.equatorKm [0; 1; 2]%nat = Some out
    /\ out ≡ₚ [0; 1; 2]%nat.
Proof.
  destruct (optimizeClusterSequence_nearest_next
              (ClusteringStage.clusterAt
                 (ClusteringAgent.clusterByProximity Spec.equatorKm
                    [Spec.poi "a" cafe (Spec.onEquator 0) None;
                     Spec.poi "b" cafe (Spec.onEquator 100) None;
                     Spec.poi "c" cafe (Spec.onEquator 50) None]))
              Spec.equatorKm [0; 1; 2]%nat) as (out & H1 & H2 & _).
  - apply (NoDup_seq 0 3).
  - exists out. split; [exact H1|exact H2].
Defined.

(** X2: [optimizeClusterOrder] returns an array of at most two
    locations as it is, and so it does an array whose first location has
    no coordinates: the search for a nearest location finds none, and
    the rest is appended in its order. *)
Theorem routeWithinCluster_unchanged (hav : Coordinates -> Coordinates -> Qc)
    (pois : list Location) :
  (length pois <= 2)%nat
  \/ (exists first, head pois = Some first /\ coordinates first = None) ->
  Spec.routeWithinCluster hav pois = Some pois.
Proof.
  intros Hcase. unfold Spec.routeWithinCluster, ClusteringAgent.optimizeClusterOrder.
  rewrite length_seq. case_bool_decide as Hlen; [by rewrite objectAt_seq|].
  destruct Hcase as [Hshort|(first & Hhead & Hnone)]; [lia|].
  destruct pois as [|first' rest]; [done|]. injection Hhead as ->.
  cbn [length seq]. rewrite (newSet_id (Spec.objectAt (first :: rest))) by apply NoDup_seq.
  rewrite visit_unlocated; [| done | rewrite length_seq; simpl in Hlen; lia].
  change ([0%nat] ++ seq 1 (length rest)) with (seq 0 (length (first :: rest))).
  by rewrite objectAt_seq.
Qed.

Lemma routeWithinCluster_unchanged_witness :
  Spec.routeWithinCluster Spec.equatorKm
    [Spec.poi "a" cafe None None;
     Spec.poi "b" cafe (Spec.onEquator 9) None;
     Spec.poi "c" cafe (Spec.onEquator 2) None]
  = Some [Spec.poi "a" cafe None None;
          Spec.poi "b" cafe (Spec.onEquator 9) None;
          Spec.poi "c" cafe (Spec.onEquator 2) None].
Proof.
  apply routeWithinCluster_unchanged. right.
  exists (Spec.poi "a" cafe None None). split; reflexivity.
Defined.

(** X3: on an array of more than two locations whose first location has
    coordinates, [optimizeClusterOrder] keeps the first location first,
    then visits the locations that have coordinates, each of them a
    nearest one to the location before it among all those that follow,
    and puts the locations without coordinates last, in the order of the
    input. *)
Theorem routeWithinCluster_nearest_neighbour (hav : Coordinates -> Coordinates -> Qc)
    (first : Location) (rest : list Location) (c0 : Coordinates) :
  (2 <= length rest)%nat -> coordinates first = Some c0 ->
  exists g,
    Spec.routeWithinCluster hav (first :: rest)
    = Some (first :: g ++ filter (fun l => ~ is_Some (coordinates l)) rest)
    /\ g ≡ₚ filter (fun l => is_Some (coordinates l)) rest
    /\ forall i j a b c ca cb xc,
         (first :: g) !! i = Some a -> g !! i = Some b ->
         (i <= j)%nat -> g !! j = Some c ->
         coordinates a = Some ca -> coordinates b = Some cb -> coordinates c = Some xc ->
         (hav ca cb <= hav ca xc)%Qc.
Proof.
  intros Hlen Hc0. unfold Spec.routeWithinCluster, ClusteringAgent.optimizeClusterOrder.
  rewrite length_seq. rewrite bool_decide_false by (simpl; lia).
  cbn [length seq]. rewrite (newSet_id (Spec.objectAt (first :: rest))) by apply NoDup_seq.
  destruct (visit_greedy (Spec.objectAt (first :: rest)) hav (length (seq 1 (length rest)))
              [0%nat] 0%nat c0 (seq 1 (length rest)) Hc0 (NoDup_seq _ _))
    as (g & Hout & Hperm & Hgreedy); [done|].
  rewrite Hout. exists (Spec.objectAt (first :: rest) <$> g).
  split; [|split].
  - rewrite !fmap_app. simpl. do 3 f_equal.
    exact (@objectAt_tail_filter (fun l => ~ is_Some (coordinates l)) _ first rest).
  - rewrite <- (@objectAt_tail_filter (fun l => is_Some (coordinates l)) _ first rest).
    by apply fmap_Permutation.
  - intros i j a b c ca cb xc Ha Hb Hij Hc Hca Hcb Hxc.
    change (first :: (Spec.objectAt (first :: rest) <$> g))
      with (Spec.objectAt (first :: rest) <$> (0%nat :: g)) in Ha.
    apply list_lookup_fmap_Some in Ha as (ra & -> & Hra).
    apply list_lookup_fmap_Some in Hb as (rb & -> & Hrb).
    apply list_lookup_fmap_Some in Hc as (rc & -> & Hrc).
    by eapply (Hgreedy i j ra rb rc).
Qed.

Lemma routeWithinCluster_nearest_neighbour_witness :
  exists g,
    Spec.routeWithinCluster Spec.equatorKm
      [Spec.poi "a" cafe (Spec.onEquator 0) None;
       Spec.poi "b" cafe (Spec.onEquator 9) None;
       Spec.poi "c" cafe None None;
       Spec.poi "d" cafe (Spec.onEquator 2) None]
    = Some (Spec.poi "a" cafe (Spec.onEquator 0) None :: g ++ [Spec.poi "c" cafe None None]).
Proof.
  destruct (routeWithinCluster_nearest_neighbour Spec.equatorKm
              (Spec.poi "a" cafe (Spec.onEquator 0) None)
              [Spec.poi "b" cafe (Spec.onEquator 9) None;
               Spec.poi "c" cafe None None;
               Spec.poi "d" cafe (Spec.onEquator 2) None]
              {| lat := 0; lng := Q2Qc (0 # 1000) |}) as (g & Hg & _).
  - simpl. lia.
  - reflexivity.
  - exists g. exact Hg.
Defined.

(** ** The shape of the clusters *)
Section ClusterShape.
Variable haversineDistance : Coordinates -> Coordinates -> Qc.

Local Abbreviation addNearby := (ClusteringAgent.addNearby haversineDistance).
Local Abbreviation startCluster := (ClusteringAgent.startCluster haversineDistance).
Local Abbreviation clusterByProximity := (ClusteringAgent.clusterByProximity haversineDistance).

Lemma suggestedVisit_app (l1 l2 : list Location) :
  Spec.suggestedVisit (l1 ++ l2) = Spec.suggestedVisit l1 + Spec.suggestedVisit l2.
Proof.
  unfold Spec.suggestedVisit. induction l1 as [|a l1 IH]; [done|].
  cbn [app foldr]. rewrite IH. lia.
Qed.

(** The inner loop leaves the id of the cluster alone, counts the visit
    of every location it appends, and appends only locations within the
    radius of the seed. *)
Lemma addNearby_fold_fields (seed : Coordinates) (ls : list Location)
    (cluster : ClusterGroup) (assigned : gset string) :
  exists picked,
    let out := fst (fold_left (addNearby seed) ls (cluster, assigned)) in
    cg_id out = cg_id cluster
    /\ locations out = locations cluster ++ picked
    /\ suggestedDuration out = suggestedDuration cluster + Spec.suggestedVisit picked
    /\ forall m, m ∈ picked ->
         exists mc, coordinates m = Some mc
                    /\ (haversineDistance seed mc <= ClusteringAgent.CLUSTER_RADIUS_KM)%Qc.
Proof.
  revert cluster assigned. induction ls as [|other ls IH]; intros cluster assigned.
  - exists []. cbn. rewrite app_nil_r. split; [done|]. split; [done|]. split; [lia|].
    intros m Hm. by apply elem_of_nil in Hm.
  - cbn [fold_left].
    destruct (addNearby seed (cluster, assigned) other) as [cluster1 assigned1] eqn:Hstep.
    unfold ClusteringAgent.addNearby in Hstep.
    destruct (coordinates other) as [oc|] eqn:Hoc; [|injection Hstep as <- <-; apply IH].
    case_bool_decide as Hin; [injection Hstep as <- <-; apply IH|].
    case_bool_decide as Hnear; [|injection Hstep as <- <-; apply IH].
    destruct (IH cluster1 assigned1) as (picked & H1 & H2 & H3 & H4).
    injection Hstep as <- <-.
    cbv zeta in *. cbn [cg_id locations suggestedDuration] in *.
    exists (other :: picked). split; [done|]. split; [by rewrite H2, <- app_assoc|].
    split.
    { rewrite H3. unfold Spec.suggestedVisit. cbn [foldr]. lia. }
    intros m [->|Hm]%elem_of_cons; [by exists oc|by apply H4].
Qed.

(** What the outer loop keeps true of every cluster: its id counts from
    one, its name, centroid and duration are those of its members, and
    its members after the first are within the radius of the first. *)
Lemma startCluster_fold_fields (all todo : list Location) (clusters : list ClusterGroup)
    (assigned : gset string) :
  let shaped (clusters : list ClusterGroup) :=
    forall i c, clusters !! i = Some c ->
      cg_id c = "cluster-" +:+ pretty (Z.of_nat i + 1)
      /\ cg_name c = ClusteringAgent.generateClusterName (locations c)
      /\ centroid c = ClusteringAgent.calculateCentroid (locations c)
      /\ suggestedDuration c = Spec.suggestedVisit (locations c)
      /\ exists seed sc rest,
           locations c = seed :: rest /\ coordinates seed = Some sc
           /\ forall m, m ∈ rest ->
                exists mc, coordinates m = Some mc
                           /\ (haversineDistance sc mc <= ClusteringAgent.CLUSTER_RADIUS_KM)%Qc in
  shaped clusters ->
  shaped (fst (fold_left (startCluster all) todo (clusters, assigned))).
Proof.
  intros shaped. revert clusters assigned.
  induction todo as [|location todo IH]; intros clusters assigned Hinv; [done|].
  cbn [fold_left].
  destruct (startCluster all (clusters, assigned) location) as [clusters1 assigned1] eqn:Hstep.
  apply IH. unfold ClusteringAgent.startCluster in Hstep.
  destruct (coordinates location) as [seed|] eqn:Hseed; [|by injection Hstep as <- <-].
  case_bool_decide as Hin; [by injection Hstep as <- <-|].
  match type of Hstep with
  | context [fold_left (addNearby seed) all (?c0, ?a0)] =>
      destruct (addNearby_fold_fields seed all c0 a0) as (picked & H1 & H2 & H3 & H4);
      destruct (fold_left (addNearby seed) all (c0, a0)) as [cluster assigned'] eqn:Hfold
  end.
  cbv zeta in *. cbn [fst cg_id locations suggestedDuration] in *.
  injection Hstep as <- <-. intros i c Hc.
  destruct (decide (i < length clusters)%nat) as [Hlt|Hge].
  { rewrite lookup_app_l in Hc by done. by apply Hinv. }
  rewrite lookup_app_r in Hc by lia.
  destruct (i - length clusters)%nat as [|k] eqn:Hk;
    [|by rewrite lookup_cons_ne_0, lookup_nil in Hc].
  injection Hc as <-. assert (i = length clusters) as -> by lia.
  cbn [cg_id cg_name centroid locations suggestedDuration].
  split; [by rewrite H1|]. split; [done|]. split; [done|].
  split.
  { rewrite H3, H2. unfold Spec.suggestedVisit. cbn [app foldr]. lia. }
  exists location, seed, picked. split; [by rewrite H2|]. split; [done|]. exact H4.
Qed.

Lemma clusterByProximity_fields (all : list Location) (i : nat) (c : ClusterGroup) :
  clusterByProximity all !! i = Some c ->
  cg_id c = "cluster-" +:+ pretty (Z.of_nat i + 1)
  /\ cg_name c = ClusteringAgent.generateClusterName (locations c)
  /\ centroid c = ClusteringAgent.calculateCentroid (locations c)
  /\ suggestedDuration c = Spec.suggestedVisit (locations c)
  /\ exists seed sc rest,
       locations c = seed :: rest /\ coordinates seed = Some sc
       /\ forall m, m ∈ rest ->
            exists mc, coordinates m = Some mc
                       /\ (haversineDistance sc mc <= ClusteringAgent.CLUSTER_RADIUS_KM)%Qc.
Proof.
  pose proof (startCluster_fold_fields all all [] ∅) as H. cbv zeta in H.
  apply H. intros j c' Hj. by rewrite lookup_nil in Hj.
Qed.

End ClusterShape.

(** X4: the clusters of [clusterByProximity] are numbered from one in
    the order of their creation, so no two of them share an id; the
    name of a cluster is the name generated from its members, its
    centroid is the arithmetic mean of the coordinates of its members,
    and its suggested duration is the sum of the visit estimates of its
    members. *)
Theorem clusterByProximity_numbered (hav : Coordinates -> Coordinates -> Qc)
    (all : list Location) :
  let clusters := ClusteringAgent.clusterByProximity hav all in
  (forall i c, clusters !! i = Some c ->
     cg_id c = "cluster-" +:+ pretty (Z.of_nat i + 1)
     /\ cg_name c = ClusteringAgent.generateClusterName (locations c)
     /\ locations c <> []
     /\ centroid c = Spec.meanPoint (omap coordinates (locations c))
     /\ suggestedDuration c = Spec.suggestedVisit (locations c))
  /\ NoDup (cg_id <$> clusters).
Proof.
  intros clusters.
  assert (Hfields : forall i c, clusters !! i = Some c ->
     cg_id c = "cluster-" +:+ pretty (Z.of_nat i + 1)
     /\ cg_name c = ClusteringAgent.generateClusterName (locations c)
     /\ locations c <> []
     /\ centroid c = Spec.meanPoint (omap coordinates (locations c))
     /\ suggestedDuration c = Spec.suggestedVisit (locations c)).
  { intros i c Hc.
    destruct (clusterByProximity_fields hav all i c Hc)
      as (Hid & Hname & Hcen & Hdur & seed & sc & rest & Hloc & Hsc & _).
    split; [done|]. split; [done|]. split; [by rewrite Hloc|]. split; [|done].
    rewrite Hcen, ClusteringAgent_centroid_cases, Hloc. cbn [omap list_omap]. by rewrite Hsc. }
  split; [exact Hfields|].
  apply NoDup_alt. intros i j x Hi Hj.
  apply list_lookup_fmap_Some in Hi as (ci & -> & Hi).
  apply list_lookup_fmap_Some in Hj as (cj & Heq & Hj).
  destruct (Hfields i ci Hi) as (Hidi & _). destruct (Hfields j cj Hj) as (Hidj & _).
  rewrite Hidi, Hidj in Heq.
  apply (String.app_inj "cluster-") in Heq. apply pretty_Z_inj in Heq. lia.
Qed.

(** X5: in every cluster of [clusterByProximity] the first member, the
    seed, has coordinates, and every other member has coordinates within
    the cluster radius of 3 km of the seed. *)
Theorem cluster_members_near_seed (hav : Coordinates -> Coordinates -> Qc)
    (all : list Location) (c : ClusterGroup) :
  c ∈ ClusteringAgent.clusterByProximity hav all ->
  exists seed sc rest,
    locations c = seed :: rest /\ coordinates seed = Some sc
    /\ forall m, m ∈ rest ->
         exists mc, coordinates m = Some mc
                    /\ (hav sc mc <= ClusteringAgent.CLUSTER_RADIUS_KM)%Qc.
Proof.
  intros [i Hc]%list_elem_of_lookup.
  by destruct (clusterByProximity_fields hav all i c Hc) as (_ & _ & _ & _ & H).
Qed.

Lemma cluster_members_near_seed_witness :
  exists c seed sc rest,
    ClusteringAgent.clusterByProximity Spec.equatorKm Spec.fourOnALine !! 1%nat = Some c
    /\ locations c = seed :: rest /\ coordinates seed = Some sc
    /\ forall m, m ∈ rest ->
         exists mc, coordinates m = Some mc
                    /\ (Spec.equatorKm sc mc <= ClusteringAgent.CLUSTER_RADIUS_KM)%Qc.
Proof.
  destruct (ClusteringAgent.clusterByProximity Spec.equatorKm Spec.fourOnALine !! 1%nat)
    as [c|] eqn:Hc; [|vm_compute in Hc; discriminate Hc].
  destruct (cluster_members_near_seed Spec.equatorKm Spec.fourOnALine c)
    as (seed & sc & rest & H).
  - by eapply list_elem_of_lookup_2.
  - by exists c, seed, sc, rest.
Defined.

Lemma estimateVisitDuration_estimateDuration (l : Location) :
  TimeAgent.estimateVisitDuration l
  = ClusteringAgent.estimateDuration l + (if bool_decide (type l = viewpoint) then 15 else 0).
Proof.
  unfold TimeAgent.estimateVisitDuration, ClusteringAgent.estimateDuration.
  by destruct (type l).
Qed.

(** X6: the two tables of visit durations differ for a viewpoint, 30
    minutes in the clustering and 45 in the scheduler: the minutes that
    the scheduler allots to the members of a cluster are the cluster's
    suggested duration and 15 minutes more for every viewpoint. *)
Theorem suggestedDuration_short_of_schedule (hav : Coordinates -> Coordinates -> Qc)
    (all : list Location) (c : ClusterGroup) :
  c ∈ ClusteringAgent.clusterByProximity hav all ->
  Spec.totalVisit (locations c)
  = suggestedDuration c
    + 15 * Z.of_nat (length (filter (fun l => type l = viewpoint) (locations c))).
Proof.
  intros [i Hc]%list_elem_of_lookup.
  destruct (clusterByProximity_fields hav all i c Hc) as (_ & _ & _ & -> & _).
  unfold Spec.totalVisit, Spec.suggestedVisit.
  induction (locations c) as [|l ls IH]; [done|].
  cbn [foldr]. rewrite IH, filter_cons, estimateVisitDuration_estimateDuration.
  case_bool_decide as Hv.
  - rewrite decide_True by done. cbn [length]. lia.
  - rewrite decide_False by done. lia.
Qed.

Lemma suggestedDuration_short_of_schedule_witness :
  exists c,
    ClusteringAgent.clusterByProximity Spec.equatorKm Spec.fourOnALine !! 1%nat = Some c
    /\ Spec.totalVisit (locations c) = suggestedDuration c + 15.
Proof.
  destruct (ClusteringAgent.clusterByProximity Spec.equatorKm Spec.fourOnALine !! 1%nat)
    as [c|] eqn:Hc; [|vm_compute in Hc; discriminate Hc].
  exists c. split; [reflexivity|].
  rewrite (suggestedDuration_short_of_schedule Spec.equatorKm Spec.fourOnALine c)
    by (by eapply list_elem_of_lookup_2).
  vm_compute in Hc. injection Hc as <-. reflexivity.
Defined.

(** ** The clustering stage *)
Section RouteShape.
Context {Ref : Type} `{EqDecision Ref}.
Variable deref : Ref -> Location.
Variable haversineDistance : Coordinates -> Coordinates -> Qc.

(** The loop only appends to [ordered]. *)
Lemma visit_prefix (fuel : nat) (ordered : list Ref) (current : Ref) (remaining out : list Ref) :
  ClusteringAgent.visit deref haversineDistance fuel ordered current remaining = Some out ->
  exists tail, out = ordered ++ tail.
Proof.
  revert ordered current remaining. induction fuel as [|fuel IH]; intros ordered current remaining.
  - destruct remaining; [|done]. intros [= <-]. exists []. by rewrite app_nil_r.
  - destruct remaining as [|r remaining]; [intros [= <-]; exists []; by rewrite app_nil_r|].
    cbn [ClusteringAgent.visit].
    destruct (fst (fold_left _ (r :: remaining) (None, None))) as [nearest|].
    + intros (tail & ->)%IH. exists (nearest :: tail). by rewrite <- app_assoc.
    + intros [= <-]. by eexists.
Qed.

Lemma optimizeClusterOrder_head (locs out : list Ref) :
  ClusteringAgent.optimizeClusterOrder deref haversineDistance locs = Some out ->
  head out = head locs.
Proof.
  unfold ClusteringAgent.optimizeClusterOrder. case_bool_decide; [by intros [= <-]|].
  destruct locs as [|first rest]; [by intros [= <-]|].
  by intros (tail & ->)%visit_prefix.
Qed.

End RouteShape.

Lemma routeWithinCluster_Some (hav : Coordinates -> Coordinates -> Qc) (pois : list Location) :
  exists out,
    Spec.routeWithinCluster hav pois = Some out /\ out ≡ₚ pois /\ head out = head pois.
Proof.
  unfold Spec.routeWithinCluster.
  destruct (optimizeClusterOrder_once (Spec.objectAt pois) hav (seq 0 (length pois)))
    as (order & Horder & Hperm).
  rewrite Horder. eexists. split; [reflexivity|]. split.
  - rewrite (Hperm (NoDup_seq _ _)). by rewrite objectAt_seq.
  - apply optimizeClusterOrder_head in Horder.
    rewrite <- (objectAt_seq pois) at 2.
    destruct order, (seq 0 (length pois)); try done. simpl in *. by injection Horder as ->.
Qed.

Lemma clusterAt_seq (clusters : list ClusterGroup) :
  ClusteringStage.clusterAt clusters <$> seq 0 (length clusters) = clusters.
Proof.
  unfold ClusteringStage.clusterAt. induction clusters as [|a clusters IH]; [done|].
  cbn [length seq fmap list_fmap]. f_equal.
  rewrite <- fmap_S_seq, <- list_fmap_compose. exact IH.
Qed.

Section StageFacts.
Variable haversineDistance : Coordinates -> Coordinates -> Qc.
Variable generateMapsUrl : list Location -> string.

Local Abbreviation routeCluster := (ClusteringStage.routeCluster haversineDistance).
Local Abbreviation process := (ClusteringStage.process haversineDistance generateMapsUrl).

(** Routing a cluster reorders its members behind the first and leaves
    its other fields as they are. *)
Lemma routeCluster_Some (c : ClusterGroup) :
  exists r,
    routeCluster c = Some r
    /\ cg_id r = cg_id c /\ cg_name r = cg_name c /\ centroid r = centroid c
    /\ suggestedDuration r = suggestedDuration c
    /\ locations r ≡ₚ locations c /\ head (locations r) = head (locations c).
Proof.
  unfold ClusteringStage.routeCluster.
  destruct (routeWithinCluster_Some haversineDistance (locations c)) as (out & -> & Hp & Hh).
  eexists. split; [reflexivity|]. by cbn.
Qed.

Lemma mapM_routeCluster (clusters : list ClusterGroup) :
  exists routed,
    mapM routeCluster clusters = Some routed
    /\ Forall2 (fun c r =>
                  cg_id r = cg_id c /\ cg_name r = cg_name c /\ centroid r = centroid c
                  /\ suggestedDuration r = suggestedDuration c
                  /\ locations r ≡ₚ locations c /\ head (locations r) = head (locations c))
         clusters routed.
Proof.
  induction clusters as [|c clusters (routed & Hrouted & Hall)]; [by exists []|].
  destruct (routeCluster_Some c) as (r & Hr & Hfields).
  exists (r :: routed). split; [|by constructor].
  apply mapM_Some. constructor; [done|]. by apply mapM_Some.
Qed.

Lemma members_routed (clusters routed : list ClusterGroup) :
  Forall2 (fun c r => locations r ≡ₚ locations c) clusters routed ->
  Spec.members routed ≡ₚ Spec.members clusters.
Proof.
  unfold Spec.members. induction 1 as [|c r clusters routed Hcr _ IH]; [done|].
  rewrite !bind_cons. by rewrite Hcr, IH.
Qed.

Lemma members_Permutation (l1 l2 : list ClusterGroup) :
  l1 ≡ₚ l2 -> Spec.members l1 ≡ₚ Spec.members l2.
Proof. unfold Spec.members. by intros ->. Qed.

(** [process] fails on an empty array and on no other; its clusters are
    the routed clusters of [clusterByProximity] in some order, the first
    still first, and its order is their members, cluster after cluster. *)
Lemma process_cases (locs : list Location) :
  match locs with
  | [] => process locs = Some (ClusteringStage.failure "No locations to cluster")
  | _ :: _ =>
      exists out routed,
        process locs = Some (ClusteringStage.success out)
        /\ Forall2 (fun c r =>
                      cg_id r = cg_id c /\ cg_name r = cg_name c /\ centroid r = centroid c
                      /\ suggestedDuration r = suggestedDuration c
                      /\ locations r ≡ₚ locations c
                      /\ head (locations r) = head (locations c))
             (ClusteringAgent.clusterByProximity haversineDistance locs) routed
        /\ ClusteringStage.clusters out ≡ₚ routed
        /\ head (ClusteringStage.clusters out) = head routed
        /\ ClusteringStage.optimizedOrder out = Spec.members (ClusteringStage.clusters out)
        /\ ClusteringStage.totalDistance out
           = ClusteringAgent.calculateTotalDistance haversineDistance
               (ClusteringStage.optimizedOrder out)
        /\ ClusteringStage.mapUrl out = generateMapsUrl (ClusteringStage.optimizedOrder out)
  end.
Proof.
  destruct locs as [|l locs]; [done|].
  unfold ClusteringStage.process. rewrite bool_decide_false by done.
  destruct (mapM_routeCluster (ClusteringAgent.clusterByProximity haversineDistance (l :: locs)))
    as (routed & -> & Hrouted).
  destruct (optimizeClusterSequence_once (ClusteringStage.clusterAt routed) haversineDistance
              (seq 0 (length routed)) (NoDup_seq _ _)) as (order & -> & Hperm & Hhead).
  eexists _, routed. split; [reflexivity|]. split; [exact Hrouted|].
  cbn [ClusteringStage.clusters ClusteringStage.optimizedOrder ClusteringStage.totalDistance
       ClusteringStage.mapUrl].
  split; [by rewrite Hperm, clusterAt_seq|]. split; [|done].
  rewrite <- (clusterAt_seq routed) at 2.
  destruct order, (seq 0 (length routed)); try done. simpl in *. by injection Hhead as ->.
Qed.

End StageFacts.

(** Under unique ids the members of the clusters are the input
    locations that have coordinates. *)
Lemma members_located (hav : Coordinates -> Coordinates -> Qc) (all : list Location) :
  NoDup (id <$> all) ->
  Spec.members (ClusteringAgent.clusterByProximity hav all)
  ≡ₚ filter (fun l => is_Some (coordinates l)) all.
Proof.
  intros Hnd. destruct (clusterByProximity_clustered hav all) as [[_ Hndm Hm _] Hall].
  apply NoDup_Permutation; [by eapply NoDup_fmap_1|by apply NoDup_filter, (NoDup_fmap_1 id)|].
  intros l. rewrite list_elem_of_filter. split; [intros Hl; by destruct (Hm l Hl)|].
  intros [Hc Hl]. apply (member_by_id all); [done..| |by apply Hall].
  intros m Hmm. by apply Hm.
Qed.

(** X7: with distances that are numbers (a [NaN] distance is outside
    the model), [ClusteringAgent.process] returns for every input.  It
    fails, with "No locations to cluster", on the empty array and on no
    other.
    Its clusters are those of [clusterByProximity], each with the id,
    name, centroid and suggested duration it was created with and with
    its members reordered behind its first member; they come in an
    order that starts with the cluster created first. *)
Theorem clustering_fails_only_on_empty (hav : Coordinates -> Coordinates -> Qc)
    (generateMapsUrl : list Location -> string) (locs : list Location) :
  (locs = [] ->
   ClusteringStage.process hav generateMapsUrl locs
   = Some (ClusteringStage.failure "No locations to cluster"))
  /\ (locs <> [] ->
      exists out routed,
        ClusteringStage.process hav generateMapsUrl locs = Some (ClusteringStage.success out)
        /\ Forall2 (fun c r =>
                      cg_id r = cg_id c /\ cg_name r = cg_name c /\ centroid r = centroid c
                      /\ suggestedDuration r = suggestedDuration c
                      /\ locations r ≡ₚ locations c
                      /\ head (locations r) = head (locations c))
             (ClusteringAgent.clusterByProximity hav locs) routed
        /\ ClusteringStage.clusters out ≡ₚ routed
        /\ head (ClusteringStage.clusters out) = head routed).
Proof.
  pose proof (process_cases hav generateMapsUrl locs) as H. split.
  - by intros ->.
  - intros Hne. destruct locs as [|l locs]; [done|].
    destruct H as (out & routed & H1 & H2 & H3 & H4 & _). by exists out, routed.
Qed.

(** The order of [process]: the members of its clusters, which are those
    of the clusters of [clusterByProximity]. *)
Lemma process_members (hav : Coordinates -> Coordinates -> Qc)
    (generateMapsUrl : list Location -> string) (locs : list Location) :
  locs <> [] ->
  exists out,
    ClusteringStage.process hav generateMapsUrl locs = Some (ClusteringStage.success out)
    /\ ClusteringStage.optimizedOrder out = Spec.members (ClusteringStage.clusters out)
    /\ ClusteringStage.optimizedOrder out
       ≡ₚ Spec.members (ClusteringAgent.clusterByProximity hav locs).
Proof.
  intros Hne. pose proof (process_cases hav generateMapsUrl locs) as H.
  destruct locs as [|l0 locs]; [done|].
  destruct H as (out & routed & H1 & H2 & H3 & _ & H5 & _).
  exists out. split; [done|]. split; [done|].
  rewrite H5, (members_Permutation _ _ H3). apply members_routed.
  eapply Forall2_impl; [exact H2|]. by intros c r (_ & _ & _ & _ & ? & _).
Qed.

(** X8: on an array that is not empty, the optimized order of
    [ClusteringAgent.process] lists the members of its clusters, cluster
    after cluster.  Every entry is an input location that has
    coordinates, no id occurs twice, and the id of every input location
    that has coordinates occurs; when the ids of the input are pairwise
    distinct, the order is a reordering of the input locations that have
    coordinates. *)
Theorem clustering_order_covers_located (hav : Coordinates -> Coordinates -> Qc)
    (generateMapsUrl : list Location -> string) (locs : list Location) :
  locs <> [] ->
  exists out,
    ClusteringStage.process hav generateMapsUrl locs = Some (ClusteringStage.success out)
    /\ ClusteringStage.optimizedOrder out = Spec.members (ClusteringStage.clusters out)
    /\ (forall m, m ∈ ClusteringStage.optimizedOrder out -> m ∈ locs /\ is_Some (coordinates m))
    /\ NoDup (id <$> ClusteringStage.optimizedOrder out)
    /\ (forall l, l ∈ locs -> is_Some (coordinates l) ->
          id l ∈ id <$> ClusteringStage.optimizedOrder out)
    /\ (NoDup (id <$> locs) ->
          ClusteringStage.optimizedOrder out ≡ₚ filter (fun l => is_Some (coordinates l)) locs).
Proof.
  intros Hne. destruct (process_members hav generateMapsUrl locs Hne) as (out & H1 & H2 & Hp).
  exists out. split; [done|]. split; [done|].
  destruct (clusterByProximity_clustered hav locs) as [[_ Hnd Hm _] Hall].
  split; [intros m Hmo; apply Hm; by rewrite <- Hp|].
  split; [by rewrite Hp|].
  split.
  { intros l Hl Hc. rewrite Hp. specialize (Hall l Hl Hc).
    unfold Spec.idsOf in Hall. by apply elem_of_list_to_set in Hall. }
  intros Hids. rewrite Hp. by apply members_located.
Qed.

Lemma clustering_order_covers_located_witness :
  exists out,
    ClusteringStage.process Spec.equatorKm (fun _ => "maps") Spec.fourOnALine
    = Some (ClusteringStage.success out)
    /\ ClusteringStage.optimizedOrder out ≡ₚ Spec.fourOnALine.
Proof.
  destruct (clustering_order_covers_located Spec.equatorKm (fun _ => "maps") Spec.fourOnALine)
    as (out & H1 & _ & _ & _ & _ & H2).
  - discriminate.
  - exists out. split; [exact H1|]. apply H2.
    refine (bool_decide_unpack _ _). vm_compute. exact I.
Defined.

Lemma clusterByProximity_unlocated (hav : Coordinates -> Coordinates -> Qc)
    (locs : list Location) :
  (forall l, l ∈ locs -> coordinates l = None) ->
  ClusteringAgent.clusterByProximity hav locs = [].
Proof.
  intros Hnone.
  destruct (ClusteringAgent.clusterByProximity hav locs) as [|c cs] eqn:Hcs; [done|].
  destruct (clusterByProximity_fields hav locs 0 c) as (_ & _ & _ & _ & seed & sc & rest & Hloc & Hsc & _);
    [by rewrite Hcs|].
  destruct (clusterByProximity_clustered hav locs) as [[_ _ Hm _] _].
  destruct (Hm seed) as [Hin _].
  { apply elem_of_members. exists 0%nat, c. rewrite Hcs, Hloc. split; [done|]. by left. }
  by rewrite (Hnone seed Hin) in Hsc.
Qed.

(** X9: when no location of the input has coordinates, the clustering
    succeeds with no cluster at all: the order is empty and the total
    distance is zero. *)
Theorem clustering_without_coordinates (hav : Coordinates -> Coordinates -> Qc)
    (generateMapsUrl : list Location -> string) (locs : list Location) :
  locs <> [] -> (forall l, l ∈ locs -> coordinates l = None) ->
  ClusteringStage.process hav generateMapsUrl locs
  = Some (ClusteringStage.success
            {| ClusteringStage.clusters := [];
               ClusteringStage.optimizedOrder := [];
               ClusteringStage.totalDistance := 0;
               ClusteringStage.mapUrl := generateMapsUrl [] |}).
Proof.
  intros Hne Hnone. unfold ClusteringStage.process.
  rewrite bool_decide_false by (by destruct locs).
  rewrite (clusterByProximity_unlocated hav locs Hnone). cbn.
  do 3 f_equal. apply Qc_is_canon. vm_compute. reflexivity.
Qed.

Lemma clustering_without_coordinates_witness :
  ClusteringStage.process Spec.equatorKm (fun _ => "maps")
    [Spec.poi "a" cafe None None; Spec.poi "b" temple None None]
  = Some (ClusteringStage.success
            {| ClusteringStage.clusters := [];
               ClusteringStage.optimizedOrder := [];
               ClusteringStage.totalDistance := 0;
               ClusteringStage.mapUrl := "maps" |}).
Proof.
  apply (clustering_without_coordinates Spec.equatorKm (fun _ => "maps")).
  - discriminate.
  - intros l Hl. rewrite !elem_of_cons in Hl.
    destruct Hl as [->|[->|Hl]]; [reflexivity|reflexivity|by apply elem_of_nil in Hl].
Defined.

(** ** The enrichment of the locations *)

Lemma ofZ_pos (z : Z) : 0 < z -> (0 < JS.ofZ z)%Qc.
Proof.
  intros Hz. unfold JS.ofZ, Qclt. cbn [this Q2Qc]. rewrite !Qred_correct.
  unfold Qlt, inject_Z. cbn [Qnum Qden]. lia.
Qed.

Lemma estimateCost_agree (l : Location) :
  BudgetAgent.estimateCost l = LocationAgent.estimateCost (type l) (priceLevel l).
Proof. reflexivity. Qed.

(** The estimate is positive for a price level that is not negative:
    the 0 that the table lists for a viewpoint is falsy and gives way
    to 15, and a price level of 0 to 2. *)
Lemma estimateCost_pos (t : LocationType) (p : option Z) :
  (forall v, p = Some v -> 0 <= v) -> (0 < LocationAgent.estimateCost t p)%Qc.
Proof.
  intros Hp. unfold LocationAgent.estimateCost. apply Qcmult_pos_pos.
  - destruct t; vm_compute; reflexivity.
  - apply Qcmult_pos_pos; [|apply Qcinv_pos; vm_compute; reflexivity].
    apply ofZ_pos. unfold JS.orInt. destruct p as [v|]; [|lia].
    specialize (Hp v eq_refl). destruct (decide (v = 0)); lia.
Qed.

Section EnrichmentFacts.
Variable getPlaceDetails : string -> option LocationAgent.PlaceDetails.
Variable inferDestinationName : list Location -> string.

Local Abbreviation enrich := (LocationAgent.enrich getPlaceDetails).
Local Abbreviation process := (LocationAgent.process getPlaceDetails inferDestinationName).

(** What the enrichment of one location keeps and what it sets. *)
Local Abbreviation enrichedFrom :=
  (fun l e : Location =>
     id e = id l /\ name e = name l /\ type e = type l /\ rating e = rating l
     /\ priceLevel e = priceLevel l /\ verified e = verified l
     /\ estimatedCost e = Some (LocationAgent.estimateCost (type l) (priceLevel l))
     /\ (is_Some (coordinates l) -> is_Some (coordinates e))).

Lemma enrich_fold (locs enriched : list Location) (allCoordinates : list Coordinates) :
  exists new counted,
    fold_left enrich locs (enriched, allCoordinates) = (enriched ++ new, allCoordinates ++ counted)
    /\ Forall2 enrichedFrom locs new
    /\ sublist counted (omap coordinates new)
    /\ ((forall l, l ∈ locs -> String.prefix "mock-" (id l) = false
                               /\ getPlaceDetails (id l) = None) ->
        counted = [] /\ new = LocationAgent.withEstimate <$> locs)
    /\ ((forall l, l ∈ locs -> String.prefix "mock-" (id l) = true
                               \/ is_Some (getPlaceDetails (id l))) ->
        counted = omap coordinates new).
Proof.
  revert enriched allCoordinates.
  induction locs as [|l locs IH]; intros enriched allCoordinates.
  - exists [], []. rewrite !app_nil_r. repeat split; try done; constructor.
  - cbn [fold_left].
    assert (Hstep : exists e cs,
      enrich (enriched, allCoordinates) l = (enriched ++ [e], allCoordinates ++ cs)
      /\ enrichedFrom l e
      /\ sublist cs (omap coordinates [e])
      /\ (String.prefix "mock-" (id l) = false /\ getPlaceDetails (id l) = None ->
          cs = [] /\ e = LocationAgent.withEstimate l)
      /\ (String.prefix "mock-" (id l) = true \/ is_Some (getPlaceDetails (id l)) ->
          cs = omap coordinates [e])).
    { unfold LocationAgent.enrich.
      destruct (String.prefix "mock-" (id l)) eqn:Hmock.
      - exists (LocationAgent.withEstimate l),
          (match coordinates l with Some c => [c] | None => [] end).
        split; [by destruct (coordinates l); rewrite ?app_nil_r|].
        split; [by repeat split|]. cbn [omap list_omap LocationAgent.withEstimate coordinates].
        split; [by destruct (coordinates l)|].
        split; [by intros [[=] _]|]. intros _. by destruct (coordinates l).
      - destruct (getPlaceDetails (id l)) as [details|] eqn:Hdetails.
        + exists
            {| id := id l; name := name l;
               address := match LocationAgent.detailsAddress details with
                          | None | Some EmptyString => address l
                          | Some a => Some a
                          end;
               coordinates := match LocationAgent.detailsCoordinates details with
                              | Some c => Some c
                              | None => coordinates l
                              end;
               type := type l; rating := rating l; priceLevel := priceLevel l;
               estimatedCost := Some (LocationAgent.estimateCost (type l) (priceLevel l));
               verified := verified l |},
            (match (match LocationAgent.detailsCoordinates details with
                    | Some c => Some c
                    | None => coordinates l
                    end) with
             | Some c => [c]
             | None => []
             end).
          split.
          { cbn [coordinates].
            destruct (LocationAgent.detailsCoordinates details), (coordinates l);
              by rewrite ?app_nil_r. }
          cbn [id name type rating priceLevel verified estimatedCost coordinates].
          split.
          { repeat split. intros Hc. by destruct (LocationAgent.detailsCoordinates details). }
          cbn [omap list_omap coordinates].
          split; [by destruct (LocationAgent.detailsCoordinates details), (coordinates l)|].
          split; [by intros [_ [=]]|].
          intros _. by destruct (LocationAgent.detailsCoordinates details), (coordinates l).
        + exists (LocationAgent.withEstimate l), []. rewrite app_nil_r.
          split; [done|]. split; [by repeat split|].
          split; [apply sublist_nil_l|]. split; [done|].
          intros [[=]|[? [=]]]. }
    destruct Hstep as (e & cs & -> & He & Hsub & Hfail & Hfound).
    destruct (IH (enriched ++ [e]) (allCoordinates ++ cs))
      as (new & counted & -> & Hnew & Hsubs & Hfails & Hfounds).
    exists (e :: new), (cs ++ counted). rewrite <- !app_assoc.
    split; [done|]. split; [by constructor|].
    split.
    { change (e :: new) with ([e] ++ new). rewrite omap_app. by apply sublist_app. }
    split.
    + intros Hall. destruct Hfail as [-> ->]; [apply Hall; by left|].
      destruct Hfails as [-> ->]; [intros x Hx; apply Hall; by right|]. done.
    + intros Hall. change (e :: new) with ([e] ++ new). rewrite omap_app.
      rewrite Hfound by (apply Hall; by left).
      rewrite Hfounds; [done|]. intros x Hx. apply Hall. by right.
Qed.

Lemma process_enriched (locs : list Location) :
  exists counted,
    Forall2 enrichedFrom locs (LocationAgent.enrichedLocations (process locs))
    /\ LocationAgent.destinationCenter (process locs) = LocationAgent.calculateCentroid counted
    /\ sublist counted (omap coordinates (LocationAgent.enrichedLocations (process locs)))
    /\ ((forall l, l ∈ locs -> String.prefix "mock-" (id l) = false
                               /\ getPlaceDetails (id l) = None) ->
        counted = []
        /\ LocationAgent.enrichedLocations (process locs) = LocationAgent.withEstimate <$> locs)
    /\ ((forall l, l ∈ locs -> String.prefix "mock-" (id l) = true
                               \/ is_Some (getPlaceDetails (id l))) ->
        counted = omap coordinates (LocationAgent.enrichedLocations (process locs))).
Proof.
  unfold LocationAgent.process.
  destruct (enrich_fold locs [] []) as (new & counted & -> & H1 & H2 & H3 & H4).
  exists counted. by cbn.
Qed.

End EnrichmentFacts.

(** X10: [LocationAgent.process] drops no location and adds none, also
    when a lookup fails: the enriched locations are the input locations
    in their order, each with its id, name, type, rating, price level
    and verified flag, with the cost estimate of its type and price
    level as its estimated cost, and with coordinates whenever it had
    coordinates before. *)
Theorem enrichment_keeps_every_location
    (getPlaceDetails : string -> option LocationAgent.PlaceDetails)
    (inferDestinationName : list Location -> string) (locs : list Location) :
  Forall2 (fun l e =>
             id e = id l /\ name e = name l /\ type e = type l /\ rating e = rating l
             /\ priceLevel e = priceLevel l /\ verified e = verified l
             /\ estimatedCost e = Some (LocationAgent.estimateCost (type l) (priceLevel l))
             /\ (is_Some (coordinates l) -> is_Some (coordinates e)))
    locs
    (LocationAgent.enrichedLocations
       (LocationAgent.process getPlaceDetails inferDestinationName locs)).
Proof.
  by destruct (process_enriched getPlaceDetails inferDestinationName locs) as (counted & H & _).
Qed.

(** X11: the destination centre counts the coordinates of a location
    only when its id starts with "mock-" or its lookup succeeds.  When
    every lookup fails, the centre is the built-in default, Tokyo,
    whatever coordinates the locations have, and the locations keep the
    address and coordinates they came with. *)
Theorem failed_lookups_center_on_default
    (getPlaceDetails : string -> option LocationAgent.PlaceDetails)
    (inferDestinationName : list Location -> string) (locs : list Location) :
  (forall l, l ∈ locs ->
     String.prefix "mock-" (id l) = false /\ getPlaceDetails (id l) = None) ->
  let out := LocationAgent.process getPlaceDetails inferDestinationName locs in
  LocationAgent.destinationCenter out = LocationAgent.TOKYO
  /\ coordinates <$> LocationAgent.enrichedLocations out = coordinates <$> locs
  /\ address <$> LocationAgent.enrichedLocations out = address <$> locs.
Proof.
  intros Hfail out.
  destruct (process_enriched getPlaceDetails inferDestinationName locs)
    as (counted & _ & Hcenter & _ & Hfails & _).
  destruct (Hfails Hfail) as [-> Henriched]. subst out.
  rewrite Hcenter, Henriched. split; [done|].
  rewrite <- !list_fmap_compose. split; by apply list_fmap_ext.
Qed.

Lemma failed_lookups_center_on_default_witness :
  let locs := [Spec.poi "louvre" attraction (Some {| lat := JS.ofZ 48; lng := JS.ofZ 2 |}) None] in
  let out := LocationAgent.process (fun _ => None) (fun _ => "Paris") locs in
  LocationAgent.destinationCenter out = LocationAgent.TOKYO
  /\ coordinates <$> LocationAgent.enrichedLocations out
     = [Some {| lat := JS.ofZ 48; lng := JS.ofZ 2 |}].
Proof.
  intros locs out.
  destruct (failed_lookups_center_on_default (fun _ => None) (fun _ => "Paris") locs)
    as (H1 & H2 & _).
  - intros l Hl. unfold locs in Hl. apply list_elem_of_singleton in Hl as ->.
    split; reflexivity.
  - split; [exact H1|exact H2].
Defined.

(** X12: when every location has an id that starts with "mock-" or a
    lookup that succeeds, the destination centre is the centroid of the
    coordinates of all enriched locations: their arithmetic mean, and
    Tokyo when no enriched location has coordinates. *)
Theorem center_of_found_locations
    (getPlaceDetails : string -> option LocationAgent.PlaceDetails)
    (inferDestinationName : list Location -> string) (locs : list Location) :
  (forall l, l ∈ locs ->
     String.prefix "mock-" (id l) = true \/ is_Some (getPlaceDetails (id l))) ->
  let out := LocationAgent.process getPlaceDetails inferDestinationName locs in
  LocationAgent.destinationCenter out
  = match omap coordinates (LocationAgent.enrichedLocations out) with
    | [] => LocationAgent.TOKYO
    | cs => Spec.meanPoint cs
    end.
Proof.
  intros Hfound out.
  destruct (process_enriched getPlaceDetails inferDestinationName locs)
    as (counted & _ & Hcenter & _ & _ & Hfounds).
  subst out. rewrite Hcenter, <- (Hfounds Hfound), LocationAgent_centroid_cases.
  by destruct counted.
Qed.

Lemma center_of_found_locations_witness :
  let locs := [Spec.poi "mock-1" attraction (Some {| lat := JS.ofZ 48; lng := JS.ofZ 2 |}) None;
               Spec.poi "mock-2" cafe (Some {| lat := JS.ofZ 50; lng := JS.ofZ 4 |}) None] in
  LocationAgent.destinationCenter (LocationAgent.process (fun _ => None) (fun _ => "Paris") locs)
  = {| lat := JS.ofZ 49; lng := JS.ofZ 3 |}.
Proof.
  intros locs.
  rewrite (center_of_found_locations (fun _ => None) (fun _ => "Paris") locs).
  - cbn. unfold Spec.meanPoint, Spec.arithmeticMean. cbn.
    f_equal; apply Qc_is_canon; vm_compute; reflexivity.
  - intros l Hl. left. unfold locs in Hl. rewrite !elem_of_cons in Hl.
    destruct Hl as [->|[->|Hl]]; [reflexivity|reflexivity|by apply elem_of_nil in Hl].
Defined.

(** X13: the budget counts an enriched location at the estimate that
    the enrichment gave it, the estimate of its type and price level;
    its own estimator, the same table, is what [estimatedCost || ...]
    falls back to.  For a price level that is not negative the estimate
    is positive: no location is counted as free, a viewpoint, which the
    table lists at 0, counts as 15. *)
Theorem enriched_cost_is_counted
    (getPlaceDetails : string -> option LocationAgent.PlaceDetails)
    (inferDestinationName : list Location -> string) (locs : list Location) (e : Location) :
  e ∈ LocationAgent.enrichedLocations
        (LocationAgent.process getPlaceDetails inferDestinationName locs) ->
  JS.orNum (estimatedCost e) (BudgetAgent.estimateCost e)
  = LocationAgent.estimateCost (type e) (priceLevel e)
  /\ ((forall v, priceLevel e = Some v -> 0 <= v) ->
      (0 < LocationAgent.estimateCost (type e) (priceLevel e))%Qc)
  /\ (type e = viewpoint ->
      LocationAgent.estimateCost (type e) (priceLevel e)
      = LocationAgent.estimateCost attraction (priceLevel e)).
Proof.
  intros He.
  destruct (process_enriched getPlaceDetails inferDestinationName locs) as (_ & Hall & _).
  apply list_elem_of_lookup in He as [i Hi].
  destruct (Forall2_lookup_r _ _ _ _ _ Hall Hi) as (l & _ & _ & _ & Ht & _ & Hp & _ & Hcost & _).
  split; [|split].
  - rewrite Hcost, estimateCost_agree, Ht, Hp. unfold JS.orNum. by destruct (decide _).
  - apply estimateCost_pos.
  - by intros ->.
Qed.

Lemma enriched_cost_is_counted_witness :
  let e := LocationAgent.withEstimate (Spec.poi "hill" viewpoint None None) in
  JS.orNum (estimatedCost e) (BudgetAgent.estimateCost e) = JS.ofZ 15.
Proof.
  intros e.
  destruct (enriched_cost_is_counted (fun _ => None) (fun _ => "Paris")
              [Spec.poi "hill" viewpoint None None] e) as (H & _).
  - apply list_elem_of_singleton. reflexivity.
  - rewrite H. apply Qc_is_canon. vm_compute. reflexivity.
Defined.

(** ** The vibe filter *)

Lemma filter_ext_in {A} (P Q : A -> Prop) `{!forall x, Decision (P x)}
    `{!forall x, Decision (Q x)} (l : list A) :
  (forall x, x ∈ l -> P x <-> Q x) -> filter P l = filter Q l.
Proof.
  induction l as [|a l IH]; intros Hext; [done|]. rewrite !filter_cons.
  rewrite IH by (intros x Hx; apply Hext; by right).
  destruct (decide (P a)) as [Hp|Hp], (decide (Q a)) as [Hq|Hq]; try done.
  - destruct Hq. apply Hext; [by left|done].
  - destruct Hp. apply Hext; [by left|done].
Qed.

Lemma filter_all {A} (P : A -> Prop) `{!forall x, Decision (P x)} (l : list A) :
  (forall x, x ∈ l -> P x) -> filter P l = l.
Proof.
  induction l as [|a l IH]; intros Hall; [done|].
  rewrite filter_cons, decide_True by (apply Hall; by left).
  f_equal. apply IH. intros x Hx. apply Hall. by right.
Qed.

Lemma isCompatible_ruledOut (l : Location) (p : TripPreferences) :
  VibeAgent.isCompatible (VibeAgent.inferLocationVibe l) p = false <-> Spec.ruledOut p l.
Proof.
  unfold VibeAgent.isCompatible, VibeAgent.inferLocationVibe, Spec.ruledOut.
  destruct (type l) eqn:Ht; cbn [VibeAgent.ambiance VibeAgent.aesthetic];
    repeat case_bool_decide; cbn [andb]; try discriminate; naive_solver.
Qed.

Lemma incompatibleLocations_fold (locs : list Location) (p : TripPreferences)
    (acc : list string) :
  fold_left (VibeAgent.checkLocation (Some p)) locs acc
  = acc ++ (id <$> filter (fun l => VibeAgent.isCompatible (VibeAgent.inferLocationVibe l) p = false)
                     locs).
Proof.
  revert acc. induction locs as [|l locs IH]; intros acc; [by rewrite app_nil_r|].
  cbn [fold_left]. rewrite IH, filter_cons. unfold VibeAgent.checkLocation.
  destruct (VibeAgent.isCompatible (VibeAgent.inferLocationVibe l) p) eqn:Hc.
  - by rewrite decide_False.
  - rewrite decide_True by done. by rewrite fmap_cons, <- app_assoc.
Qed.

Lemma incompatibleLocations_filter (locs : list Location) (p : TripPreferences) :
  VibeAgent.incompatibleLocations locs (Some p)
  = id <$> filter (fun l => VibeAgent.isCompatible (VibeAgent.inferLocationVibe l) p = false) locs.
Proof. apply (incompatibleLocations_fold locs p []). Qed.

(** X14: the vibe check rules out a location in two cases only: a
    market on a family trip, and a place of price level 4, other than a
    market, for the travel style "budget"; a market of price level 4 is
    never ruled out for its price.  The incompatible ids are the ids of
    the locations ruled out, in input order, and there is none when no
    preferences are given. *)
Theorem vibe_rules_out (locs : list Location) (p : TripPreferences) :
  (forall l,
     VibeAgent.isCompatible (VibeAgent.inferLocationVibe l) p = false <-> Spec.ruledOut p l)
  /\ VibeAgent.incompatibleLocations locs (Some p)
     = id <$> filter (fun l => VibeAgent.isCompatible (VibeAgent.inferLocationVibe l) p = false)
                locs
  /\ VibeAgent.incompatibleLocations locs None = [].
Proof.
  split; [intros l; apply isCompatible_ruledOut|]. split; [apply incompatibleLocations_filter|].
  unfold VibeAgent.incompatibleLocations. by induction locs.
Qed.

Lemma finalLocationsOf_sublist (vibeResult : option (list string)) (enriched : list Location) :
  sublist (Pipeline.finalLocationsOf vibeResult enriched) enriched.
Proof.
  unfold Pipeline.finalLocationsOf. destruct vibeResult as [incompatible|]; [|done].
  destruct (_ && _); [apply sublist_filter|done].
Qed.

(** The filter of the orchestrator on locations with distinct ids. *)
(** On pairwise distinct ids the filter of the orchestrator is the
    filter on compatibility, whenever it is applied. *)
Lemma finalLocationsOf_cases (enriched : list Location) (p : TripPreferences) :
  NoDup (id <$> enriched) ->
  let compatible l := VibeAgent.isCompatible (VibeAgent.inferLocationVibe l) p = true in
  Pipeline.finalLocationsOf (Some (VibeAgent.incompatibleLocations enriched (Some p))) enriched
  = if bool_decide (0 < length (filter (fun l => ~ compatible l) enriched))%nat
       && bool_decide (length (filter (fun l => ~ compatible l) enriched)
                       < length enriched)%nat
    then filter compatible enriched else enriched.
Proof.
  intros Hnd compatible.
  assert (Hfilter : filter (fun l => id l ∉ VibeAgent.incompatibleLocations enriched (Some p))
                      enriched = filter compatible enriched).
  { apply filter_ext_in. intros l Hl. rewrite incompatibleLocations_filter. unfold compatible.
    split.
    - intros Hid. destruct (VibeAgent.isCompatible (VibeAgent.inferLocationVibe l) p) eqn:Hc;
        [done|]. destruct Hid. apply list_elem_of_fmap_2. by apply list_elem_of_filter.
    - intros Hc Hid. apply list_elem_of_fmap in Hid as (l' & Hid & Hl').
      apply list_elem_of_filter in Hl' as [Hno Hl'].
      assert (l = l') as <- by (by eapply (NoDup_fmap_eq id enriched)).
      by rewrite Hc in Hno. }
  assert (Hlen : length (VibeAgent.incompatibleLocations enriched (Some p))
                 = length (filter (fun l => ~ compatible l) enriched)).
  { rewrite incompatibleLocations_filter, length_fmap. f_equal. apply list_filter_iff.
    intros l. unfold compatible. by destruct (VibeAgent.isCompatible _ p). }
  unfold Pipeline.finalLocationsOf. rewrite Hlen, Hfilter. done.
Qed.

(** The compatible and the incompatible locations make up the list. *)
Lemma compatible_split (enriched : list Location) (p : TripPreferences) :
  let compatible l := VibeAgent.isCompatible (VibeAgent.inferLocationVibe l) p = true in
  (length (filter compatible enriched)
   + length (filter (fun l => ~ compatible l) enriched))%nat = length enriched.
Proof. intros compatible. rewrite <- length_app. apply Permutation_length, filter_app_complement. Qed.

(** On pairwise distinct ids the filter never leaves the orchestrator
    without a location. *)
Lemma finalLocationsOf_nonempty (enriched : list Location) (p : TripPreferences) :
  NoDup (id <$> enriched) -> enriched <> [] ->
  Pipeline.finalLocationsOf (Some (VibeAgent.incompatibleLocations enriched (Some p))) enriched
  <> [].
Proof.
  intros Hnd Hne. pose proof (finalLocationsOf_cases enriched p Hnd) as Hcases.
  pose proof (compatible_split enriched p) as Hsplit. cbv zeta in Hcases, Hsplit.
  rewrite Hcases. destruct (_ && _) eqn:Hcond; [|done].
  apply andb_prop in Hcond as [_ Hlt]. apply bool_decide_eq_true in Hlt.
  intros Hnil. rewrite Hnil in Hsplit. simpl in Hsplit. rewrite Hsplit in Hlt.
  by apply Nat.lt_irrefl in Hlt.
Qed.

(** X15: the orchestrator's filter on locations with pairwise distinct
    ids.  When some of the locations, and not all of them, are
    incompatible, the final locations are the compatible ones, in
    their order; when none is or all are, nothing is filtered.  The
    final locations are never empty unless the input is. *)
Theorem vibe_filter_distinct_ids (enriched : list Location) (p : TripPreferences) :
  NoDup (id <$> enriched) ->
  let compatible l := VibeAgent.isCompatible (VibeAgent.inferLocationVibe l) p = true in
  let final :=
    Pipeline.finalLocationsOf (Some (VibeAgent.incompatibleLocations enriched (Some p)))
      enriched in
  ((exists l, l ∈ enriched /\ compatible l) -> (exists l, l ∈ enriched /\ ~ compatible l) ->
   final = filter compatible enriched)
  /\ ((forall l, l ∈ enriched -> compatible l) -> final = enriched)
  /\ ((forall l, l ∈ enriched -> ~ compatible l) -> final = enriched)
  /\ (enriched <> [] -> final <> []).
Proof.
  intros Hnd compatible final.
  pose proof (finalLocationsOf_cases enriched p Hnd) as Hcases.
  pose proof (compatible_split enriched p) as Hsplit. cbv zeta in Hcases, Hsplit.
  fold compatible in Hcases, Hsplit. fold final in Hcases.
  assert (Hsome : (exists l, l ∈ enriched /\ compatible l) ->
                  (length (filter (fun l => ~ compatible l) enriched) < length enriched)%nat).
  { intros (l & Hl & Hc). apply (length_filter_lt _ _ l); [done|]. by intros Hn. }
  assert (Hpos : (exists l, l ∈ enriched /\ ~ compatible l) ->
                 (0 < length (filter (fun l => ~ compatible l) enriched))%nat).
  { intros (l & Hl & Hc).
    assert (l ∈ filter (fun l => ~ compatible l) enriched) as Hin by (by apply list_elem_of_filter).
    apply list_elem_of_lookup in Hin as [i Hi]. apply lookup_lt_Some in Hi. lia. }
  split; [|split; [|split]].
  - intros Hc Hn. rewrite Hcases.
    rewrite (bool_decide_true _ (Hpos Hn)), (bool_decide_true _ (Hsome Hc)). done.
  - intros Hall. rewrite Hcases.
    rewrite (filter_all compatible enriched Hall) in Hsplit.
    revert Hsplit. generalize (length (filter (fun l => ~ compatible l) enriched)).
    intros k Hk. assert (k = 0%nat) as -> by (clear -Hk; lia). done.
  - intros Hnone. rewrite Hcases.
    assert (filter compatible enriched = []) as Hnil.
    { clear -Hnone. induction enriched as [|a l IH]; [done|].
      rewrite filter_cons, decide_False by (apply Hnone; by left).
      apply IH. intros x Hx. apply Hnone. by right. }
    rewrite Hnil in Hsplit. simpl in Hsplit. rewrite Hsplit.
    rewrite (bool_decide_false (length enriched < _)%nat) by apply Nat.lt_irrefl.
    by rewrite andb_false_r.
  - intros Hne. by apply finalLocationsOf_nonempty.
Qed.

Lemma vibe_filter_distinct_ids_witness :
  Pipeline.finalLocationsOf
    (Some (VibeAgent.incompatibleLocations
             [Spec.poi "bazaar" market None None; Spec.poi "bar" cafe None None]
             (Some {| budget := JS.ofZ 100; currency := "USD"; companions := family;
                      travelStyle := []; startDate := None; endDate := None;
                      Types.startTime := None; Types.endTime := None |})))
    [Spec.poi "bazaar" market None None; Spec.poi "bar" cafe None None]
  <> [].
Proof.
  apply (vibe_filter_distinct_ids
           [Spec.poi "bazaar" market None None; Spec.poi "bar" cafe None None]).
  - refine (bool_decide_unpack _ _). vm_compute. exact I.
  - discriminate.
Defined.

(** ** The stages together *)
Section PipelineFacts.
Variable haversineDistance : Coordinates -> Coordinates -> Qc.
Variable isoDate : option string -> Z -> option string.
Variable generateMapsUrl : list Location -> string.
Variable dateError : string.

Local Abbreviation vibeToTime :=
  (Pipeline.vibeToTime haversineDistance isoDate generateMapsUrl dateError).

(** A run that succeeds went through a clustering and a scheduling that
    succeeded, on final locations that are not empty. *)
Lemma vibeToTime_success vibeOk answer enriched p run :
  vibeToTime vibeOk answer enriched p = Some (ClusteringStage.success run) ->
  Pipeline.finalLocations run
  = Pipeline.finalLocationsOf
      (if vibeOk then Some (VibeAgent.incompatibleLocations enriched (Some p)) else None)
      enriched
  /\ Pipeline.finalLocations run <> []
  /\ ClusteringStage.process haversineDistance generateMapsUrl (Pipeline.finalLocations run)
     = Some (ClusteringStage.success (Pipeline.clustering run))
  /\ AgentOrchestrator.budgetThenTime haversineDistance isoDate answer
       (ClusteringStage.clusters (Pipeline.clustering run)) (Pipeline.finalLocations run) p
     = Some (Pipeline.scheduled run).
Proof.
  unfold Pipeline.vibeToTime.
  set (final := Pipeline.finalLocationsOf _ enriched).
  destruct (ClusteringStage.process haversineDistance generateMapsUrl final)
    as [[out|error]|] eqn:Hcluster; [|done|done].
  destruct (AgentOrchestrator.budgetThenTime _ _ _ _ _ _) as [result|] eqn:Hsched; [|done].
  intros [= <-]. cbn. split; [done|]. split; [|done].
  intros Hnil. rewrite Hnil in Hcluster. discriminate Hcluster.
Qed.

Lemma members_length (locs : list Location) :
  (length (Spec.members (ClusteringAgent.clusterByProximity haversineDistance locs))
   <= length locs)%nat.
Proof.
  destruct (clusterByProximity_clustered haversineDistance locs) as [[_ Hnd Hm _] _].
  apply submseteq_length, NoDup_submseteq; [by eapply NoDup_fmap_1|].
  intros l Hl. by apply Hm.
Qed.

End PipelineFacts.

Lemma numDaysFor_spec (locs : list Location) :
  1 <= AgentOrchestrator.numDaysFor locs
  /\ Z.of_nat (length locs) <= 5 * AgentOrchestrator.numDaysFor locs
  /\ (5 < Z.of_nat (length locs) ->
      5 * (AgentOrchestrator.numDaysFor locs - 1) < Z.of_nat (length locs)).
Proof.
  unfold AgentOrchestrator.numDaysFor. rewrite Math_ceil_div by lia.
  generalize (Z.of_nat (length locs)) (Nat2Z.is_nonneg (length locs)). intros n Hn.
  Z.div_mod_to_equations. lia.
Qed.

Lemma dayChunk_length (ordered : list Location) (perDay day : Z) :
  0 <= perDay -> 0 <= day ->
  Z.of_nat (length (Spec.dayChunk ordered perDay day)) <= perDay.
Proof.
  intros Hp Hd. rewrite <- (Z2Nat.id day) by done. rewrite dayChunk_nat by done.
  rewrite length_take. lia.
Qed.

Section PipelineRuns.
Variable haversineDistance : Coordinates -> Coordinates -> Qc.
Variable isoDate : option string -> Z -> option string.
Variable generateMapsUrl : list Location -> string.
Variable dateError : string.

Local Abbreviation vibeToTime :=
  (Pipeline.vibeToTime haversineDistance isoDate generateMapsUrl dateError).

(** The order of a run that succeeds: the members of its clusters,
    which are final locations with coordinates, no id twice, the id of
    every final location with coordinates among them. *)
Lemma run_order vibeOk answer enriched p run :
  vibeToTime vibeOk answer enriched p = Some (ClusteringStage.success run) ->
  let order := ClusteringStage.optimizedOrder (Pipeline.clustering run) in
  Spec.members (ClusteringStage.clusters (Pipeline.clustering run)) = order
  /\ (forall m, m ∈ order -> m ∈ Pipeline.finalLocations run /\ is_Some (coordinates m))
  /\ NoDup (id <$> order)
  /\ (forall l, l ∈ Pipeline.finalLocations run -> is_Some (coordinates l) ->
        id l ∈ id <$> order)
  /\ (length order <= length (Pipeline.finalLocations run))%nat.
Proof.
  intros (_ & Hne & Hcluster & _)%vibeToTime_success order.
  destruct (process_members haversineDistance generateMapsUrl (Pipeline.finalLocations run) Hne)
    as (out & Hout & H1 & Hp).
  rewrite Hcluster in Hout. injection Hout as <-. fold order in H1, Hp.
  destruct (clusterByProximity_clustered haversineDistance (Pipeline.finalLocations run))
    as [[_ Hnd Hm _] Hall].
  split; [done|]. split; [intros m Hmo; apply Hm; by rewrite <- Hp|].
  split; [by rewrite Hp|]. split.
  { intros l Hl Hc. rewrite Hp. specialize (Hall l Hl Hc).
    unfold Spec.idsOf in Hall. by apply elem_of_list_to_set in Hall. }
  rewrite Hp. apply members_length.
Qed.

(** The schedules of a run that succeeds: one for each day whose slice
    of the order is not empty, the slices being of at most five
    locations. *)
Lemma run_schedules vibeOk answer enriched p run :
  vibeToTime vibeOk answer enriched p = Some (ClusteringStage.success run) ->
  exists perDay,
    0 <= perDay <= 5
    /\ Forall2 (fun s day =>
                  TimeAgent.createDaySchedule haversineDistance isoDate
                    (Spec.dayChunk (ClusteringStage.optimizedOrder (Pipeline.clustering run))
                       perDay day) day p = Some s)
         (TimeAgent.schedules (AgentOrchestrator.timeResult (Pipeline.scheduled run)))
         (filter (fun day =>
                    Spec.dayChunk (ClusteringStage.optimizedOrder (Pipeline.clustering run))
                      perDay day <> [])
                 (seqZ 0 (AgentOrchestrator.numDaysFor (Pipeline.finalLocations run)))).
Proof.
  intros Hrun. destruct (run_order _ _ _ _ _ Hrun) as (Hmembers & _ & _ & _ & Hlen).
  apply vibeToTime_success in Hrun as (_ & _ & _ & Hsched).
  unfold AgentOrchestrator.budgetThenTime in Hsched.
  destruct (TimeAgent.process _ _ _ _ _ _) as [timeResult|] eqn:Htime; [|done].
  injection Hsched as <-. cbn [AgentOrchestrator.timeResult].
  apply process_schedules in Htime. fold (Spec.members (ClusteringStage.clusters
    (Pipeline.clustering run))) in Htime. rewrite Hmembers in Htime.
  eexists. split; [|exact Htime].
  destruct (numDaysFor_spec (Pipeline.finalLocations run)) as (H1 & H5 & _).
  rewrite Math_ceil_div by lia.
  revert Hlen H1 H5.
  generalize (AgentOrchestrator.numDaysFor (Pipeline.finalLocations run)).
  generalize (length (ClusteringStage.optimizedOrder (Pipeline.clustering run))).
  generalize (length (Pipeline.finalLocations run)).
  intros n m d Hlen H1 H5. Z.div_mod_to_equations. nia.
Qed.

End PipelineRuns.

(** X16: in a run of the stages that succeeds, no day has more than
    five stops and none is empty, and there are at most as many days as
    the orchestrator counted, one for every five final locations. *)
Theorem pipeline_five_stops_a_day (hav : Coordinates -> Coordinates -> Qc)
    (iso : option string -> Z -> option string) (generateMapsUrl : list Location -> string)
    (dateError : string) (vibeOk : bool) (answer : option BudgetAgent.BudgetOptimization)
    (enriched : list Location) (p : TripPreferences) (run : Pipeline.Planned) :
  Pipeline.vibeToTime hav iso generateMapsUrl dateError vibeOk answer enriched p
  = Some (ClusteringStage.success run) ->
  let schedules := TimeAgent.schedules (AgentOrchestrator.timeResult (Pipeline.scheduled run)) in
  Forall (fun s => (0 < length (TimeAgent.slots s) <= 5)%nat) schedules
  /\ Z.of_nat (length schedules) <= AgentOrchestrator.numDaysFor (Pipeline.finalLocations run).
Proof.
  intros Hrun schedules.
  destruct (run_schedules hav iso generateMapsUrl dateError _ _ _ _ _ Hrun) as (perDay & Hper & Hall).
  fold schedules in Hall. split.
  - apply Forall_forall. intros s Hs. apply list_elem_of_lookup in Hs as [i Hi].
    destruct (Forall2_lookup_l _ _ _ _ _ Hall Hi) as (day & Hday & Hs).
    apply list_elem_of_lookup_2, list_elem_of_filter in Hday as [Hne Hday].
    apply elem_of_seqZ in Hday.
    rewrite (createDaySchedule_slots_length hav iso _ _ _ _ Hs).
    pose proof (dayChunk_length (ClusteringStage.optimizedOrder (Pipeline.clustering run))
                  perDay day) as Hlen.
    destruct (Spec.dayChunk _ perDay day); [done|]. simpl in *. lia.
  - apply Forall2_length in Hall. rewrite Hall.
    etrans; [apply inj_le, length_filter|]. rewrite length_seqZ.
    destruct (numDaysFor_spec (Pipeline.finalLocations run)). lia.
Qed.

Lemma pipeline_five_stops_a_day_witness :
  exists run,
    Pipeline.vibeToTime Spec.equatorKm Spec.dayLabel (fun _ => "maps") "Invalid time value" true None
      Spec.sixAttractions (Spec.tripPreferences 100 None) = Some (ClusteringStage.success run)
    /\ Forall (fun s => (0 < length (TimeAgent.slots s) <= 5)%nat)
         (TimeAgent.schedules (AgentOrchestrator.timeResult (Pipeline.scheduled run))).
Proof.
  destruct (Pipeline.vibeToTime Spec.equatorKm Spec.dayLabel (fun _ => "maps") "Invalid time value" true None
              Spec.sixAttractions (Spec.tripPreferences 100 None)) as [[run|error]|] eqn:Hrun.
  - exists run. split; [reflexivity|].
    apply (pipeline_five_stops_a_day Spec.equatorKm Spec.dayLabel (fun _ => "maps")
             "Invalid time value" true None
             Spec.sixAttractions (Spec.tripPreferences 100 None) run Hrun).
  - vm_compute in Hrun. discriminate Hrun.
  - vm_compute in Hrun. discriminate Hrun.
Defined.

(** X17: in a run of the stages that succeeds, the slots of all days
    together hold the id of every final location that has coordinates,
    each id once, and no other id: a location without coordinates is
    never scheduled, and whether the budget stage removed a location
    does not matter.  The final locations are enriched locations, in
    their order. *)
Theorem pipeline_schedules_located_once (hav : Coordinates -> Coordinates -> Qc)
    (iso : option string -> Z -> option string) (generateMapsUrl : list Location -> string)
    (dateError : string) (vibeOk : bool) (answer : option BudgetAgent.BudgetOptimization)
    (enriched : list Location) (p : TripPreferences) (run : Pipeline.Planned) :
  Pipeline.vibeToTime hav iso generateMapsUrl dateError vibeOk answer enriched p
  = Some (ClusteringStage.success run) ->
  let scheduledIds := Spec.slotIds (AgentOrchestrator.timeResult (Pipeline.scheduled run)) in
  NoDup scheduledIds
  /\ (forall i, i ∈ scheduledIds ->
        exists l, l ∈ Pipeline.finalLocations run /\ is_Some (coordinates l) /\ id l = i)
  /\ (forall l, l ∈ Pipeline.finalLocations run -> is_Some (coordinates l) ->
        id l ∈ scheduledIds)
  /\ sublist (Pipeline.finalLocations run) enriched.
Proof.
  intros Hrun scheduledIds.
  destruct (run_order hav iso generateMapsUrl dateError _ _ _ _ _ Hrun) as (Hmembers & Hin & Hnd & Hall & _).
  destruct (vibeToTime_success hav iso generateMapsUrl dateError _ _ _ _ _ Hrun) as (Hfinal & _ & _ & Hsched).
  pose proof (scheduled_are_cluster_members hav iso _ _ _ _ _ Hsched) as Hids.
  fold scheduledIds in Hids. rewrite Hmembers in Hids.
  split; [by rewrite Hids|]. split; [|split].
  - intros i Hi. rewrite Hids in Hi. apply list_elem_of_fmap in Hi as (l & -> & Hl).
    exists l. by destruct (Hin l Hl).
  - intros l Hl Hc. rewrite Hids. by apply Hall.
  - rewrite Hfinal. apply finalLocationsOf_sublist.
Qed.

Lemma pipeline_schedules_located_once_witness :
  exists run,
    Pipeline.vibeToTime Spec.equatorKm Spec.dayLabel (fun _ => "maps") "Invalid time value" true None
      Spec.fiveAttractionsAndKayak (Spec.tripPreferences 50 None)
    = Some (ClusteringStage.success run)
    /\ NoDup (Spec.slotIds (AgentOrchestrator.timeResult (Pipeline.scheduled run))).
Proof.
  destruct (Pipeline.vibeToTime Spec.equatorKm Spec.dayLabel (fun _ => "maps") "Invalid time value" true None
              Spec.fiveAttractionsAndKayak (Spec.tripPreferences 50 None))
    as [[run|error]|] eqn:Hrun.
  - exists run. split; [reflexivity|].
    apply (pipeline_schedules_located_once Spec.equatorKm Spec.dayLabel (fun _ => "maps")
             "Invalid time value" true
             None Spec.fiveAttractionsAndKayak (Spec.tripPreferences 50 None) run Hrun).
  - vm_compute in Hrun. discriminate Hrun.
  - vm_compute in Hrun. discriminate Hrun.
Defined.

Lemma planDays_nothing hav iso (perDay : Z) (p : TripPreferences) (days : list Z)
    (st : list TimeAgent.DaySchedule * list string) :
  TimeAgent.planDays hav iso [] perDay p days st = Some st.
Proof.
  induction days as [|day days IH]; [done|]. cbn [TimeAgent.planDays].
  assert (TimeAgent.planDay hav iso [] perDay p st day = Some st) as ->; [|exact IH].
  unfold TimeAgent.planDay. destruct st as [schedules warnings].
  unfold JS.slice. by rewrite drop_nil, take_nil.
Qed.

(** X18: when no location has coordinates, a run on locations with
    pairwise distinct ids whose budget stage needs no usable reply from
    the chat service (the trip is within budget, or the stage falls back
    to [simpleOptimization]) still succeeds: there is no cluster, and
    the result has no day schedule and no warning, so no location at all
    is scheduled. *)
Theorem pipeline_without_coordinates (hav : Coordinates -> Coordinates -> Qc)
    (iso : option string -> Z -> option string) (generateMapsUrl : list Location -> string)
    (dateError : string) (vibeOk : bool) (enriched : list Location) (p : TripPreferences) :
  enriched <> [] -> NoDup (id <$> enriched) ->
  (forall l, l ∈ enriched -> coordinates l = None) ->
  exists run,
    Pipeline.vibeToTime hav iso generateMapsUrl dateError vibeOk None enriched p
    = Some (ClusteringStage.success run)
    /\ ClusteringStage.clusters (Pipeline.clustering run) = []
    /\ TimeAgent.schedules (AgentOrchestrator.timeResult (Pipeline.scheduled run)) = []
    /\ TimeAgent.warnings (AgentOrchestrator.timeResult (Pipeline.scheduled run)) = [].
Proof.
  intros Hne Hnd Hnone. unfold Pipeline.vibeToTime.
  set (final := Pipeline.finalLocationsOf _ enriched).
  assert (Hfinal : final <> []).
  { subst final. destruct vibeOk; [|done]. by apply finalLocationsOf_nonempty. }
  assert (Hunlocated : forall l, l ∈ final -> coordinates l = None).
  { intros l Hl. apply Hnone. eapply elem_of_sublist; [exact Hl|].
    apply finalLocationsOf_sublist. }
  assert (Hclusters : exists out,
             ClusteringStage.process hav generateMapsUrl final
             = Some (ClusteringStage.success out) /\ ClusteringStage.clusters out = []).
  { unfold ClusteringStage.process. rewrite bool_decide_false by (by destruct final).
    rewrite (clusterByProximity_unlocated hav final Hunlocated). cbn. by eexists. }
  destruct Hclusters as (out & -> & Hout). rewrite Hout.
  unfold AgentOrchestrator.budgetThenTime, TimeAgent.process.
  cbn [mbind list_bind]. rewrite planDays_nothing. eexists. split; [reflexivity|]. by cbn.
Qed.

Lemma pipeline_without_coordinates_witness :
  exists run,
    Pipeline.vibeToTime Spec.equatorKm Spec.dayLabel (fun _ => "maps") "Invalid time value" true None
      [Spec.poi "a" cafe None None; Spec.poi "b" temple None None]
      (Spec.tripPreferences 100 None)
    = Some (ClusteringStage.success run)
    /\ TimeAgent.schedules (AgentOrchestrator.timeResult (Pipeline.scheduled run)) = [].
Proof.
  destruct (pipeline_without_coordinates Spec.equatorKm Spec.dayLabel (fun _ => "maps")
              "Invalid time value" true
              [Spec.poi "a" cafe None None; Spec.poi "b" temple None None]
              (Spec.tripPreferences 100 None)) as (run & H1 & _ & H2 & _).
  - discriminate.
  - refine (bool_decide_unpack _ _). vm_compute. exact I.
  - intros l Hl. rewrite !elem_of_cons in Hl.
    destruct Hl as [->|[->|Hl]]; [reflexivity|reflexivity|by apply elem_of_nil in Hl].
  - exists run. split; [exact H1|exact H2].
Defined.

(** X19: the filter of the orchestrator drops locations by id.  When
    the locations all carry one id, and some of them, not all, are
    incompatible, the filter drops every location, the compatible ones
    too, and the run fails with "No locations to cluster". *)
Theorem pipeline_shared_id_fails (hav : Coordinates -> Coordinates -> Qc)
    (iso : option string -> Z -> option string) (generateMapsUrl : list Location -> string)
    (dateError : string) (answer : option BudgetAgent.BudgetOptimization)
    (enriched : list Location) (p : TripPreferences) (i : string) (good bad : Location) :
  (forall l, l ∈ enriched -> id l = i) ->
  good ∈ enriched -> VibeAgent.isCompatible (VibeAgent.inferLocationVibe good) p = true ->
  bad ∈ enriched -> VibeAgent.isCompatible (VibeAgent.inferLocationVibe bad) p = false ->
  Pipeline.finalLocationsOf (Some (VibeAgent.incompatibleLocations enriched (Some p))) enriched
  = []
  /\ Pipeline.vibeToTime hav iso generateMapsUrl dateError true answer enriched p
     = Some (ClusteringStage.failure "No locations to cluster").
Proof.
  intros Hid Hgood Hcompatible Hbad Hincompatible.
  assert (Hfinal : Pipeline.finalLocationsOf
                     (Some (VibeAgent.incompatibleLocations enriched (Some p))) enriched = []).
  { unfold Pipeline.finalLocationsOf. rewrite incompatibleLocations_filter, length_fmap.
    set (flagged := filter _ enriched).
    assert (bad ∈ flagged) as Hflagged by (by apply list_elem_of_filter).
    rewrite bool_decide_true.
    2:{ apply list_elem_of_lookup in Hflagged as [k Hk]. apply lookup_lt_Some in Hk. lia. }
    rewrite bool_decide_true.
    2:{ apply (length_filter_lt _ _ good); [done|]. by rewrite Hcompatible. }
    cbn [andb].
    destruct (filter (fun l => id l ∉ id <$> flagged) enriched) as [|l ls] eqn:Hkept; [done|].
    assert (l ∈ filter (fun l => id l ∉ id <$> flagged) enriched) as Hl
      by (rewrite Hkept; by left).
    apply list_elem_of_filter in Hl as [Hout Hl]. destruct Hout.
    rewrite (Hid l Hl), <- (Hid bad Hbad). by apply list_elem_of_fmap_2. }
  split; [done|]. unfold Pipeline.vibeToTime. by rewrite Hfinal.
Qed.

Lemma pipeline_shared_id_fails_witness :
  Pipeline.vibeToTime Spec.equatorKm Spec.dayLabel (fun _ => "maps") "Invalid time value" true None
    [Spec.poi "mock-1" market (Spec.onEquator 0) None;
     Spec.poi "mock-1" cafe (Spec.onEquator 1) None]
    {| budget := JS.ofZ 100; currency := "USD"; companions := family;
       travelStyle := []; startDate := None; endDate := None;
       Types.startTime := None; Types.endTime := None |}
  = Some (ClusteringStage.failure "No locations to cluster").
Proof.
  apply (pipeline_shared_id_fails Spec.equatorKm Spec.dayLabel (fun _ => "maps")
           "Invalid time value" None _ _
           "mock-1" (Spec.poi "mock-1" cafe (Spec.onEquator 1) None)
           (Spec.poi "mock-1" market (Spec.onEquator 0) None)).
  - intros l Hl. rewrite !elem_of_cons in Hl.
    destruct Hl as [->|[->|Hl]]; [reflexivity|reflexivity|by apply elem_of_nil in Hl].
  - right. left.
  - reflexivity.
  - left.
  - reflexivity.
Defined.

(** ** The walk through a day *)
Section WalkFacts.
Variable haversineDistance : Coordinates -> Coordinates -> Qc.
Variable isoDate : option string -> Z -> option string.

Local Abbreviation walk := (TimeAgent.walk haversineDistance).
Local Abbreviation placeLocation := (TimeAgent.placeLocation haversineDistance).
Local Abbreviation createDaySchedule := (TimeAgent.createDaySchedule haversineDistance isoDate).

(** The slot that the round for [l] writes at the clock value [clock]. *)
Local Abbreviation slotAt :=
  (fun (l : Location) (travel : Z) (clock : option Z) =>
     {| TimeAgent.locationId := id l;
        TimeAgent.startTime := TimeAgent.minutesToTime clock;
        TimeAgent.endTime :=
          TimeAgent.minutesToTime (Z.add (TimeAgent.estimateVisitDuration l) <$> clock);
        TimeAgent.duration := TimeAgent.estimateVisitDuration l;
        TimeAgent.travelTime := travel;
        TimeAgent.isOptimalTime := TimeAgent.isOptimalVisitTime l clock;
        TimeAgent.notes := TimeAgent.generateTimeNotes l clock |}).

(** One round: the travel time is 0 for the first location and at
    least 10 minutes after a location; a rest break of 20 minutes comes
    before every third location; the clock only moves forward, and a
    clock that is [NaN] stays so. *)
Lemma placeLocation_round (sorted : list Location) (i : nat) (l : Location) (w : TimeAgent.Walk) :
  length (TimeAgent.w_slots w) = i ->
  (i = 0%nat \/ is_Some (sorted !! (i - 1)%nat)) ->
  exists travel clock,
    placeLocation sorted i l w
    = {| TimeAgent.w_slots := TimeAgent.w_slots w ++ [slotAt l travel clock];
         TimeAgent.w_currentTime := Z.add (TimeAgent.estimateVisitDuration l) <$> clock;
         TimeAgent.w_restBreaks :=
           TimeAgent.w_restBreaks w + Z.of_nat (i / 3) - Z.of_nat ((i - 1) / 3) |}
    /\ (if decide (i = 0%nat) then travel = 0 else 10 <= travel)
    /\ (TimeAgent.w_currentTime w = None -> clock = None)
    /\ (forall t, TimeAgent.w_currentTime w = Some t ->
          exists c, clock = Some c
                    /\ t + travel + 20 * (Z.of_nat (i / 3) - Z.of_nat ((i - 1) / 3)) <= c).
Proof.
  intros Hlen Hprev. unfold TimeAgent.placeLocation.
  match goal with
  | |- context [Z.add ?e <$> TimeAgent.w_currentTime w] => set (travel := e)
  end.
  set (brk := bool_decide (0 < i)%nat && bool_decide (i mod 3 = 0)%nat
              && bool_decide (0 < length (TimeAgent.w_slots w))%nat).
  assert (Hbrk : Z.of_nat (i / 3) - Z.of_nat ((i - 1) / 3) = if brk then 1 else 0).
  { subst brk. rewrite Hlen. destruct i as [|k]; [done|].
    rewrite (bool_decide_true (0 < S k)%nat) by lia. cbn [andb]. rewrite andb_true_r.
    replace (S k - 1)%nat with k by lia.
    pose proof (Nat.div_mod_eq (S k) 3). pose proof (Nat.div_mod_eq k 3).
    pose proof (Nat.mod_upper_bound (S k) 3). pose proof (Nat.mod_upper_bound k 3).
    case_bool_decide; lia. }
  assert (Htravel : if decide (i = 0%nat) then travel = 0 else 10 <= travel).
  { subst travel. destruct i as [|k]; [by destruct (sorted !! _)|].
    rewrite decide_False by done. destruct Hprev as [?|[prev Hprev]]; [done|].
    rewrite Hprev. unfold TimeAgent.estimateTravelTime.
    destruct (coordinates prev), (coordinates l); lia. }
  set (clock0 := if brk then Z.add 20 <$> (Z.add travel <$> TimeAgent.w_currentTime w)
                 else Z.add travel <$> TimeAgent.w_currentTime w).
  set (clock := if fst (TimeAgent.adjustForMealTime l clock0)
                then snd (TimeAgent.adjustForMealTime l clock0) else clock0).
  exists travel, clock. split; [|split; [done|split]].
  - f_equal. clear -Hbrk. destruct brk; lia.
  - intros Hnan. subst clock clock0. rewrite Hnan. cbn.
    unfold TimeAgent.adjustForMealTime. destruct brk; cbn; by case_bool_decide.
  - intros t Ht. subst clock clock0. rewrite Ht, Hbrk.
    assert (exists t1, (if brk then Z.add 20 <$> (Z.add travel <$> Some t)
                        else Z.add travel <$> Some t) = Some t1
                       /\ t + travel + 20 * (if brk then 1 else 0) <= t1) as (t1 & -> & Ht1).
    { destruct brk; cbn; eexists; (split; [done|lia]). }
    destruct (adjustForMealTime_later isoDate l t1) as (t2 & Ht2 & Hle). cbv zeta in Ht2.
    rewrite Ht2. exists t2. split; [done|lia].
Qed.

Lemma slotMinutes_app (l1 l2 : list TimeAgent.TimeSlot) :
  Spec.slotMinutes (l1 ++ l2) = Spec.slotMinutes l1 + Spec.slotMinutes l2.
Proof.
  unfold Spec.slotMinutes. induction l1 as [|a l1 IH]; [done|].
  cbn [app foldr]. rewrite IH. lia.
Qed.

(** The rounds for the locations from position [length before] on. *)
Lemma walk_rounds (before todo : list Location) (w : TimeAgent.Walk) :
  length (TimeAgent.w_slots w) = length before ->
  exists new,
    let w' := walk (before ++ todo) (length before) todo w in
    TimeAgent.w_slots w' = TimeAgent.w_slots w ++ new
    /\ Forall2 (fun l slot =>
                  exists travel clock,
                    slot = slotAt l travel clock
                    /\ (TimeAgent.w_currentTime w = None -> clock = None))
         todo new
    /\ (forall k slot, new !! k = Some slot ->
          if decide ((length before + k)%nat = 0%nat) then TimeAgent.travelTime slot = 0
          else 10 <= TimeAgent.travelTime slot)
    /\ TimeAgent.w_restBreaks w'
       = TimeAgent.w_restBreaks w
         + Z.of_nat ((length (before ++ todo) - 1) / 3) - Z.of_nat ((length before - 1) / 3)
    /\ (TimeAgent.w_currentTime w = None -> TimeAgent.w_currentTime w' = None)
    /\ (forall t, TimeAgent.w_currentTime w = Some t ->
          exists t', TimeAgent.w_currentTime w' = Some t'
                     /\ t + Spec.slotMinutes new
                        + 20 * (Z.of_nat ((length (before ++ todo) - 1) / 3)
                                - Z.of_nat ((length before - 1) / 3)) <= t').
Proof.
  revert before w. induction todo as [|l todo IH]; intros before w Hlen.
  - exists []. cbn. rewrite !app_nil_r. split; [done|]. split; [constructor|].
    split; [intros k slot Hk; by rewrite lookup_nil in Hk|].
    split; [lia|]. split; [done|]. intros t Ht. exists t. split; [done|]. lia.
  - cbn [TimeAgent.walk].
    destruct (placeLocation_round (before ++ l :: todo) (length before) l w Hlen)
      as (travel & clock & Hstep & Htravel & Hnan & Hclock).
    { destruct before as [|b before] using rev_ind; [by left|]. right.
      rewrite length_app. cbn [length]. replace (length before + 1 - 1)%nat with (length before) by lia.
      rewrite <- !app_assoc. rewrite lookup_app_r by lia.
      replace (length before - length before)%nat with 0%nat by lia. by eexists. }
    rewrite Hstep. clear Hstep.
    match goal with
    | |- context [walk _ _ todo ?w1] =>
        destruct (IH (before ++ [l]) w1) as (new & H1 & H2 & H3 & H4 & H5 & H6)
    end.
    { cbn. rewrite !length_app. cbn. lia. }
    cbv zeta in *. rewrite <- app_assoc in H1, H4, H5, H6. cbn [app] in H1, H4, H5, H6.
    replace (S (length before)) with (length (before ++ [l])) by (rewrite length_app; cbn; lia).
    cbn [TimeAgent.w_slots TimeAgent.w_currentTime TimeAgent.w_restBreaks] in *.
    assert (Hlen' : (length (before ++ [l]) - 1)%nat = length before)
      by (rewrite length_app; cbn; lia).
    rewrite Hlen' in H4, H6.
    exists (slotAt l travel clock :: new).
    split; [by rewrite H1, <- app_assoc|].
    split.
    { constructor; [by exists travel, clock|].
      eapply Forall2_impl; [exact H2|]. intros l' slot (tr & cl & -> & Hn).
      exists tr, cl. split; [done|]. intros Hw. apply Hn. by rewrite (Hnan Hw). }
    split.
    { intros k slot Hk. destruct k as [|k].
      - injection Hk as <-. cbn [TimeAgent.travelTime]. by rewrite Nat.add_0_r.
      - cbn in Hk. specialize (H3 k slot Hk). rewrite length_app in H3. cbn in H3.
        replace (length before + S k)%nat with (length before + 1 + k)%nat by lia. done. }
    split; [rewrite H4; lia|].
    split; [intros Hw; apply H5; by rewrite (Hnan Hw)|].
    intros t Ht. destruct (Hclock t Ht) as (c & -> & Hc).
    destruct (H6 (TimeAgent.estimateVisitDuration l + c) eq_refl) as (t' & Ht' & Hle).
    exists t'. split; [done|]. unfold Spec.slotMinutes in *. cbn [foldr TimeAgent.duration
      TimeAgent.travelTime]. lia.
Qed.

(** A day schedule, when the date is there: its slots, its total
    duration and its rest breaks come from the walk through the sorted
    locations. *)
Lemma createDaySchedule_walk locs day p s :
  createDaySchedule locs day p = Some s ->
  let sorted := TimeAgent.sortByOptimalTime locs in
  let start := Z.mul 60 <$> TimeAgent.startHourOf p in
  exists new,
    TimeAgent.slots s = new
    /\ Forall2 (fun l slot =>
                  exists travel clock,
                    slot = slotAt l travel clock /\ (start = None -> clock = None))
         sorted new
    /\ (forall k slot, new !! k = Some slot ->
          if decide (k = 0%nat) then TimeAgent.travelTime slot = 0
          else 10 <= TimeAgent.travelTime slot)
    /\ TimeAgent.restBreaks s = Z.of_nat ((length locs - 1) / 3)
    /\ (start = None -> TimeAgent.totalDuration s = None)
    /\ (forall t0, start = Some t0 ->
          exists t, TimeAgent.totalDuration s = Some t
                    /\ Spec.slotMinutes new + 20 * TimeAgent.restBreaks s <= t).
Proof.
  intros Hs. cbv zeta. unfold TimeAgent.createDaySchedule in Hs.
  destruct (isoDate _ _); [|done]. injection Hs as <-.
  destruct (walk_rounds [] (TimeAgent.sortByOptimalTime locs)
              {| TimeAgent.w_slots := [];
                 TimeAgent.w_currentTime := Z.mul 60 <$> TimeAgent.startHourOf p;
                 TimeAgent.w_restBreaks := 0 |} eq_refl)
    as (new & H1 & H2 & H3 & H4 & H5 & H6).
  cbv zeta in *. cbn [app length TimeAgent.w_slots TimeAgent.w_currentTime
    TimeAgent.w_restBreaks] in *.
  cbn [TimeAgent.slots TimeAgent.restBreaks TimeAgent.totalDuration].
  assert (Hn : length (TimeAgent.sortByOptimalTime locs) = length locs) by apply sort_length.
  rewrite Hn in H4, H6. replace ((0 - 1) / 3)%nat with 0%nat in H4, H6 by done.
  exists new. split; [done|]. split; [done|]. split; [done|].
  split; [rewrite H4; lia|]. split.
  - intros Hs. by rewrite (H5 Hs).
  - intros t0 Ht0. destruct (H6 t0 Ht0) as (t' & -> & Hle). rewrite H4, Ht0.
    eexists. split; [done|]. lia.
Qed.

End WalkFacts.

(** X20: the clock of a day schedule, with distances that are numbers
    (a [NaN] distance is outside the model).  The first slot has no
    travel time and every later slot at least 10 minutes; there is a
    rest break before every third location after the first, (n - 1) / 3
    of them for n locations; and when the start hour is an hour of the
    day, 0 to 23, the total duration covers the visits and the travel
    of all slots and 20 minutes for every rest break. *)
Theorem day_accounts_for_travel_and_breaks (hav : Coordinates -> Coordinates -> Qc)
    (iso : option string -> Z -> option string) (locs : list Location) (day : Z)
    (p : TripPreferences) (s : TimeAgent.DaySchedule) :
  TimeAgent.createDaySchedule hav iso locs day p = Some s ->
  TimeAgent.restBreaks s = Z.of_nat ((length locs - 1) / 3)
  /\ (forall k slot, TimeAgent.slots s !! k = Some slot ->
        if decide (k = 0%nat) then TimeAgent.travelTime slot = 0
        else 10 <= TimeAgent.travelTime slot)
  /\ (forall h, TimeAgent.startHourOf p = Some h -> 0 <= h < 24 ->
        exists t, TimeAgent.totalDuration s = Some t
                  /\ Spec.slotMinutes (TimeAgent.slots s) + 20 * TimeAgent.restBreaks s <= t).
Proof.
  intros Hs. destruct (createDaySchedule_walk hav iso locs day p s Hs)
    as (new & -> & _ & Htravel & Hbreaks & _ & Htotal).
  split; [done|]. split; [done|]. intros h Hh _. apply (Htotal (60 * h)). by rewrite Hh.
Qed.

Lemma day_accounts_for_travel_and_breaks_witness :
  exists s,
    TimeAgent.createDaySchedule Spec.equatorKm Spec.dayLabel Spec.sixAttractions 0
      (Spec.tripPreferences 100 None) = Some s
    /\ TimeAgent.restBreaks s = 1.
Proof.
  destruct (TimeAgent.createDaySchedule Spec.equatorKm Spec.dayLabel Spec.sixAttractions 0
              (Spec.tripPreferences 100 None)) as [s|] eqn:Hs; [|discriminate Hs].
  exists s. split; [reflexivity|].
  by destruct (day_accounts_for_travel_and_breaks Spec.equatorKm Spec.dayLabel
                 Spec.sixAttractions 0 (Spec.tripPreferences 100 None) s Hs) as (-> & _).
Defined.

(** X21: a start time whose hour cannot be read makes the clock [NaN]
    for the whole day: the schedule still has a slot for every
    location, every slot starts and ends at "NaN:NaN", and the total
    duration is [NaN]. *)
Theorem unreadable_start_time (hav : Coordinates -> Coordinates -> Qc)
    (iso : option string -> Z -> option string) (locs : list Location) (day : Z)
    (p : TripPreferences) (s : TimeAgent.DaySchedule) :
  TimeAgent.startHourOf p = None ->
  TimeAgent.createDaySchedule hav iso locs day p = Some s ->
  length (TimeAgent.slots s) = length locs
  /\ Forall (fun slot => TimeAgent.startTime slot = "NaN:NaN"
                         /\ TimeAgent.endTime slot = "NaN:NaN")
       (TimeAgent.slots s)
  /\ TimeAgent.totalDuration s = None.
Proof.
  intros Hstart Hs. split; [by eapply createDaySchedule_slots_length|].
  destruct (createDaySchedule_walk hav iso locs day p s Hs)
    as (new & -> & Hslots & _ & _ & Hnan & _).
  rewrite Hstart in Hslots, Hnan. split; [|by apply Hnan].
  apply Forall_forall. intros slot [k Hk]%list_elem_of_lookup.
  destruct (Forall2_lookup_r _ _ _ _ _ Hslots Hk) as (l & _ & travel & clock & -> & Hclock).
  by rewrite (Hclock eq_refl).
Qed.

Lemma unreadable_start_time_witness :
  exists s,
    TimeAgent.createDaySchedule Spec.equatorKm Spec.dayLabel
      [Spec.poi "museum" attraction (Spec.onEquator 0) None] 0
      (Spec.tripPreferences 100 (Some "noon")) = Some s
    /\ TimeAgent.totalDuration s = None.
Proof.
  destruct (TimeAgent.createDaySchedule Spec.equatorKm Spec.dayLabel
              [Spec.poi "museum" attraction (Spec.onEquator 0) None] 0
              (Spec.tripPreferences 100 (Some "noon"))) as [s|] eqn:Hs; [|discriminate Hs].
  exists s. split; [reflexivity|].
  apply (unreadable_start_time Spec.equatorKm Spec.dayLabel
           [Spec.poi "museum" attraction (Spec.onEquator 0) None] 0
           (Spec.tripPreferences 100 (Some "noon")) s); [reflexivity|exact Hs].
Defined.

(** A note other than the one on reservations is written only at a time
    that counts as optimal; the note on reservations is written for the
    restaurants that got no other note, that is for all of them. *)
Lemma generateTimeNotes_optimal (l : Location) (clock : option Z) :
  (type l = restaurant <-> TimeAgent.generateTimeNotes l clock
                           = Some TimeAgent.ConsiderReservation)
  /\ (forall n, TimeAgent.generateTimeNotes l clock = Some n ->
                n <> TimeAgent.ConsiderReservation ->
                TimeAgent.isOptimalVisitTime l clock = true).
Proof.
  unfold TimeAgent.generateTimeNotes, TimeAgent.isOptimalVisitTime, TimeAgent.hourWithin,
    TimeAgent.hourOf.
  destruct (type l) eqn:Ht; destruct clock as [t|];
    repeat first
      [ rewrite bool_decide_false by discriminate
      | rewrite bool_decide_true by reflexivity
      | progress cbn
      | match goal with
        | |- context [?a <=? ?b] => destruct (Z.leb_spec a b)
        end ];
    (split; [split; intros; congruence|]); intros n Hn Hne;
    try congruence; try done; try (exfalso; lia).
Qed.

(** X22: the notes and the optimal flag of a slot agree.  A slot with
    the note on sunset views, on fewer crowds or on fresh produce is
    flagged as at the optimal time, and the slots with the note on
    reservations are exactly those of the restaurants. *)
Theorem best_time_note_means_optimal (hav : Coordinates -> Coordinates -> Qc)
    (iso : option string -> Z -> option string) (locs : list Location) (day : Z)
    (p : TripPreferences) (s : TimeAgent.DaySchedule) :
  TimeAgent.createDaySchedule hav iso locs day p = Some s ->
  Forall2 (fun l slot =>
             TimeAgent.locationId slot = id l
             /\ (type l = restaurant
                 <-> TimeAgent.notes slot = Some TimeAgent.ConsiderReservation)
             /\ (forall n, TimeAgent.notes slot = Some n ->
                           n <> TimeAgent.ConsiderReservation ->
                           TimeAgent.isOptimalTime slot = true))
    (TimeAgent.sortByOptimalTime locs) (TimeAgent.slots s).
Proof.
  intros Hs. destruct (createDaySchedule_walk hav iso locs day p s Hs) as (new & -> & Hslots & _).
  eapply Forall2_impl; [exact Hslots|].
  intros l slot (travel & clock & -> & _). split; [done|]. apply generateTimeNotes_optimal.
Qed.

Lemma best_time_note_means_optimal_witness :
  exists s slot,
    TimeAgent.createDaySchedule Spec.equatorKm Spec.dayLabel
      [Spec.poi "museum" attraction (Spec.onEquator 0) None] 0
      (Spec.tripPreferences 100 (Some "09:00")) = Some s
    /\ TimeAgent.slots s = [slot]
    /\ TimeAgent.notes slot = Some TimeAgent.FewerCrowds
    /\ TimeAgent.isOptimalTime slot = true.
Proof.
  destruct (TimeAgent.createDaySchedule Spec.equatorKm Spec.dayLabel
              [Spec.poi "museum" attraction (Spec.onEquator 0) None] 0
              (Spec.tripPreferences 100 (Some "09:00"))) as [s|] eqn:Hs; [|discriminate Hs].
  pose proof (best_time_note_means_optimal Spec.equatorKm Spec.dayLabel
                [Spec.poi "museum" attraction (Spec.onEquator 0) None] 0
                (Spec.tripPreferences 100 (Some "09:00")) s Hs) as Hall.
  assert (Hslot : exists slot, TimeAgent.slots s = [slot]
                               /\ TimeAgent.notes slot = Some TimeAgent.FewerCrowds).
  { vm_compute in Hs. injection Hs as <-. eexists. split; reflexivity. }
  destruct Hslot as (slot & Hslots & Hnote). exists s, slot.
  split; [reflexivity|]. split; [exact Hslots|]. split; [exact Hnote|].
  rewrite Hslots in Hall. apply Forall2_cons_inv_r in Hall as (l & ls & (_ & _ & Hopt) & _ & _).
  by apply (Hopt _ Hnote).
Defined.

Lemma ofZ_le_0 (z : Z) : (JS.ofZ z <= 0)%Qc <-> z <= 0.
Proof.
  unfold JS.ofZ, Qcle. cbn [this Q2Qc]. rewrite !Qred_correct.
  unfold Qle, inject_Z. cbn [Qnum Qden]. lia.
Qed.

(** X23: a day visits its locations in the order of their optimal
    start times: attractions (9:00) before markets (10:00), those
    before the rest (11:00), restaurants (8:00, 12:00 or 19:00 by their
    name) and viewpoints (17:00) where their time puts them.  The order
    is that of a stable sort: locations of the same optimal start time
    keep their input order. *)
Theorem day_follows_optimal_times (hav : Coordinates -> Coordinates -> Qc)
    (iso : option string -> Z -> option string) (locs : list Location) (day : Z)
    (p : TripPreferences) (s : TimeAgent.DaySchedule) :
  TimeAgent.createDaySchedule hav iso locs day p = Some s ->
  let sorted := TimeAgent.sortByOptimalTime locs in
  TimeAgent.locationId <$> TimeAgent.slots s = id <$> sorted
  /\ sorted ≡ₚ locs
  /\ Sorted (fun a b => TimeAgent.getOptimalStartTime a <= TimeAgent.getOptimalStartTime b)
       sorted
  /\ forall t,
       filter (fun l => TimeAgent.getOptimalStartTime l = t) sorted
       = filter (fun l => TimeAgent.getOptimalStartTime l = t) locs.
Proof.
  intros Hs sorted. subst sorted. split; [by eapply createDaySchedule_locationIds|].
  split; [apply sort_Permutation|]. split.
  - apply (Sorted_weaken
             (fun a b => (JS.ofZ (TimeAgent.getOptimalStartTime a
                                  - TimeAgent.getOptimalStartTime b) <= 0)%Qc));
      [|apply sort_Sorted].
    + intros a b Hab. apply (proj1 (ofZ_le_0 _)) in Hab. lia.
    + intros a b.
      destruct (Z.le_ge_cases (TimeAgent.getOptimalStartTime a) (TimeAgent.getOptimalStartTime b));
        [left|right]; apply ofZ_le_0; lia.
  - intros t. apply filter_sort. intros a b -> ->. apply ofZ_le_0. lia.
Qed.

Lemma day_follows_optimal_times_witness :
  exists s,
    TimeAgent.createDaySchedule Spec.equatorKm Spec.dayLabel
      [Spec.poi "view" viewpoint (Spec.onEquator 0) None;
       Spec.poi "museum" attraction (Spec.onEquator 1) None] 0
      (Spec.tripPreferences 100 None) = Some s
    /\ TimeAgent.locationId <$> TimeAgent.slots s = ["museum"; "view"].
Proof.
  destruct (TimeAgent.createDaySchedule Spec.equatorKm Spec.dayLabel
              [Spec.poi "view" viewpoint (Spec.onEquator 0) None;
               Spec.poi "museum" attraction (Spec.onEquator 1) None] 0
              (Spec.tripPreferences 100 None)) as [s|] eqn:Hs; [|discriminate Hs].
  exists s. split; [reflexivity|].
  by destruct (day_follows_optimal_times Spec.equatorKm Spec.dayLabel
                 [Spec.poi "view" viewpoint (Spec.onEquator 0) None;
                  Spec.poi "museum" attraction (Spec.onEquator 1) None] 0
                 (Spec.tripPreferences 100 None) s Hs) as (-> & _).
Defined.

Lemma minutesToTime_days (r : Z) (n : nat) :
  0 <= r ->
  TimeAgent.minutesToTime (Some (r + 1440 * Z.of_nat n)) = TimeAgent.minutesToTime (Some r).
Proof.
  intros Hr. induction n as [|n IH]; [by rewrite Z.mul_0_r, Z.add_0_r|].
  replace (r + 1440 * Z.of_nat (S n)) with (r + 1440 * Z.of_nat n + 1440) by lia.
  rewrite minutesToTime_next_day by lia. exact IH.
Qed.

(** X24: the rendering of the clock as "HH:MM" keeps the minute of the
    day and loses the day: read back, the text of a clock value that is
    not negative gives the value modulo 24 hours. *)
Theorem minutesToTime_round_trip (m : Z) :
  0 <= m ->
  Spec.minutesOfTime (TimeAgent.minutesToTime (Some m)) = Some (m mod 1440).
Proof.
  intros Hm. rewrite (Z.div_mod m 1440) at 1 by lia.
  rewrite <- (Z2Nat.id (m / 1440)) by (apply Z.div_pos; lia).
  rewrite Z.add_comm, minutesToTime_days by (apply Z.mod_pos_bound; lia).
  apply minutesOfTime_minutesToTime. apply Z.mod_pos_bound. lia.
Qed.

Lemma minutesToTime_round_trip_witness :
  Spec.minutesOfTime (TimeAgent.minutesToTime (Some 1500)) = Some 60.
Proof. apply (minutesToTime_round_trip 1500). lia. Defined.

Section WarningFacts.
Variable haversineDistance : Coordinates -> Coordinates -> Qc.
Variable isoDate : option string -> Z -> option string.

Local Abbreviation packed :=
  (fun s : TimeAgent.DaySchedule => 10 * 60 < default 0 (TimeAgent.totalDuration s)).

Lemma planDay_warnings ordered perDay p st day st' :
  TimeAgent.planDay haversineDistance isoDate ordered perDay p st day = Some st' ->
  length (snd st) = length (filter packed (fst st)) ->
  length (snd st') = length (filter packed (fst st')).
Proof.
  unfold TimeAgent.planDay. destruct st as [schedules warnings].
  case_bool_decide; [by intros [= <-]|].
  destruct (TimeAgent.createDaySchedule _ _ _ _ _) as [s|]; [|done].
  intros [= <-]. cbn [fst snd]. intros Hlen.
  rewrite filter_app, length_app, filter_cons, filter_nil.
  destruct (TimeAgent.totalDuration s) as [t|] eqn:Ht; cbn [default].
  - case_bool_decide.
    + rewrite decide_True by done. rewrite length_app. cbn. lia.
    + rewrite decide_False by done. cbn. lia.
  - rewrite decide_False by lia. cbn. lia.
Qed.

Lemma planDays_warnings ordered perDay p days st st' :
  TimeAgent.planDays haversineDistance isoDate ordered perDay p days st = Some st' ->
  length (snd st) = length (filter packed (fst st)) ->
  length (snd st') = length (filter packed (fst st')).
Proof.
  revert st. induction days as [|day days IH]; intros st; [by intros [= <-]|].
  cbn [TimeAgent.planDays].
  destruct (TimeAgent.planDay _ _ _ _ _ st day) as [st1|] eqn:Hday; [|done].
  intros Hdays Hlen. apply (IH st1 Hdays). by eapply planDay_warnings.
Qed.

End WarningFacts.

(** X25: [TimeAgent.process] warns once for every day whose total
    duration is over ten hours, and for no other: there are as many
    warnings as there are such day schedules.  A day whose total
    duration is [NaN] gets no warning. *)
Theorem one_warning_per_packed_day (hav : Coordinates -> Coordinates -> Qc)
    (iso : option string -> Z -> option string) (clusters : list ClusterGroup)
    (locs : list Location) (p : TripPreferences) (numDays : Z)
    (out : TimeAgent.TimeOrchestratorOutput) :
  TimeAgent.process hav iso clusters locs p numDays = Some out ->
  length (TimeAgent.warnings out)
  = length (filter (fun s => 10 * 60 < default 0 (TimeAgent.totalDuration s))
              (TimeAgent.schedules out)).
Proof.
  unfold TimeAgent.process.
  destruct (TimeAgent.planDays _ _ _ _ _ _ _) as [[schedules warnings]|] eqn:Hdays; [|done].
  intros [= <-]. cbn [TimeAgent.warnings TimeAgent.schedules].
  by apply (planDays_warnings hav iso _ _ _ _ _ _ Hdays).
Qed.

Lemma one_warning_per_packed_day_witness :
  exists out,
    TimeAgent.process Spec.equatorKm Spec.dayLabel
      (ClusteringAgent.clusterByProximity Spec.equatorKm Spec.sixAttractions)
      Spec.sixAttractions (Spec.tripPreferences 100 None) 1 = Some out
    /\ length (TimeAgent.warnings out) = 1%nat.
Proof.
  destruct (TimeAgent.process Spec.equatorKm Spec.dayLabel
              (ClusteringAgent.clusterByProximity Spec.equatorKm Spec.sixAttractions)
              Spec.sixAttractions (Spec.tripPreferences 100 None) 1) as [out|] eqn:Hout;
    [|vm_compute in Hout; discriminate Hout].
  exists out. split; [reflexivity|].
  rewrite (one_warning_per_packed_day _ _ _ _ _ _ _ Hout).
  vm_compute in Hout. injection Hout as <-. reflexivity.
Defined.

(** ** The budget *)

Lemma addCost_comm (numDays : Z) (b : BudgetAgent.BudgetBreakdown) (x y : Location) :
  BudgetAgent.addCost numDays (BudgetAgent.addCost numDays b x) y
  = BudgetAgent.addCost numDays (BudgetAgent.addCost numDays b y) x.
Proof.
  unfold BudgetAgent.addCost.
  destruct (type x), (type y);
    cbn [BudgetAgent.food BudgetAgent.activities BudgetAgent.transport
         BudgetAgent.accommodationCost BudgetAgent.misc BudgetAgent.total];
    f_equal; ring.
Qed.

Lemma fold_addCost_Permutation (numDays : Z) (l1 l2 : list Location) :
  l1 ≡ₚ l2 ->
  forall b, fold_left (BudgetAgent.addCost numDays) l1 b
            = fold_left (BudgetAgent.addCost numDays) l2 b.
Proof.
  induction 1 as [|x l1 l2 _ IH|x y l|l1 l2 l3 _ IH1 _ IH2]; intros b; cbn [fold_left].
  - done.
  - apply IH.
  - by rewrite addCost_comm.
  - by rewrite IH1, IH2.
Qed.

Lemma ofZ_1 : JS.ofZ 1 = 1%Qc.
Proof. apply Qc_is_canon. reflexivity. Qed.

(** The number of days enters the sums through the accommodation only. *)
Lemma fold_addCost_days (numDays : Z) (locs : list Location)
    (b b1 : BudgetAgent.BudgetBreakdown) :
  BudgetAgent.food b = BudgetAgent.food b1 ->
  BudgetAgent.activities b = BudgetAgent.activities b1 ->
  BudgetAgent.misc b = BudgetAgent.misc b1 ->
  BudgetAgent.accommodationCost b = (BudgetAgent.accommodationCost b1 * JS.ofZ numDays)%Qc ->
  let out := fold_left (BudgetAgent.addCost numDays) locs b in
  let out1 := fold_left (BudgetAgent.addCost 1) locs b1 in
  BudgetAgent.food out = BudgetAgent.food out1
  /\ BudgetAgent.activities out = BudgetAgent.activities out1
  /\ BudgetAgent.misc out = BudgetAgent.misc out1
  /\ BudgetAgent.accommodationCost out
     = (BudgetAgent.accommodationCost out1 * JS.ofZ numDays)%Qc.
Proof.
  revert b b1. induction locs as [|l locs IH]; intros b b1 Hf Ha Hm Hacc; [done|].
  cbn [fold_left]. apply IH; unfold BudgetAgent.addCost; destruct (type l);
    cbn [BudgetAgent.food BudgetAgent.activities BudgetAgent.accommodationCost BudgetAgent.misc];
    rewrite ?Hf, ?Ha, ?Hm, ?Hacc, ?ofZ_1; try done; ring.
Qed.

(** X26: on costs that the doubles of the engine add without rounding
    (multiples of one half, below 2^50 in all), the cost breakdown does
    not depend on the order of the locations, and the number of days
    enters it through the accommodation only: food, activities,
    transport and the miscellaneous costs are those of a one-day trip,
    the accommodation is that of one day times the number of days, and
    so the total grows by one day's accommodation for every further
    day. *)
Theorem breakdown_order_and_days (locs locs' : list Location) (numDays : Z) :
  Spec.exactCosts locs numDays ->
  locs ≡ₚ locs' ->
  let b := BudgetAgent.calculateBreakdown locs numDays in
  let b1 := BudgetAgent.calculateBreakdown locs 1 in
  BudgetAgent.calculateBreakdown locs' numDays = b
  /\ BudgetAgent.food b = BudgetAgent.food b1
  /\ BudgetAgent.activities b = BudgetAgent.activities b1
  /\ BudgetAgent.transport b = BudgetAgent.transport b1
  /\ BudgetAgent.misc b = BudgetAgent.misc b1
  /\ BudgetAgent.accommodationCost b
     = (BudgetAgent.accommodationCost b1 * JS.ofZ numDays)%Qc
  /\ BudgetAgent.total b
     = (BudgetAgent.total b1 + BudgetAgent.accommodationCost b1 * (JS.ofZ numDays - 1))%Qc.
Proof.
  intros _ Hperm. cbv zeta. split.
  { unfold BudgetAgent.calculateBreakdown.
    by rewrite (fold_addCost_Permutation numDays locs locs' Hperm). }
  unfold BudgetAgent.calculateBreakdown.
  destruct (fold_addCost_days numDays locs
              {| BudgetAgent.food := 0; BudgetAgent.activities := 0; BudgetAgent.transport := 0;
                 BudgetAgent.accommodationCost := 0; BudgetAgent.misc := 0;
                 BudgetAgent.total := 0 |}
              {| BudgetAgent.food := 0; BudgetAgent.activities := 0; BudgetAgent.transport := 0;
                 BudgetAgent.accommodationCost := 0; BudgetAgent.misc := 0;
                 BudgetAgent.total := 0 |}) as (Hf & Ha & Hm & Hacc); try done.
  { cbn. ring. }
  cbv zeta in *.
  cbn [BudgetAgent.food BudgetAgent.activities BudgetAgent.transport
       BudgetAgent.accommodationCost BudgetAgent.misc BudgetAgent.total].
  rewrite Hf, Ha, Hm, Hacc. repeat split; ring.
Qed.

Lemma breakdown_order_and_days_witness :
  BudgetAgent.calculateBreakdown (rev Spec.sixAttractions) 2
  = BudgetAgent.calculateBreakdown Spec.sixAttractions 2.
Proof.
  apply (breakdown_order_and_days Spec.sixAttractions (rev Spec.sixAttractions) 2).
  - split; [|split; [lia|]].
    + unfold Spec.sixAttractions.
      repeat (constructor; [exists 30; split; [lia|]; apply Qc_is_canon; reflexivity|]).
      constructor.
    + refine (bool_decide_unpack _ _). vm_compute. exact I.
  - apply Permutation_rev.
Defined.

Section FallbackFacts.
Variable count : nat.
Variable overage : Qc.

(** What the fallback says of a location it replaces or removes. *)
Local Abbreviation replaceable :=
  (fun r : BudgetAgent.Replacement =>
     (type (BudgetAgent.original r) = restaurant
      /\ 3 <= JS.orInt (priceLevel (BudgetAgent.original r)) 0
      /\ BudgetAgent.savings r
         = JS.Math_round (Spec.cost (BudgetAgent.original r) * Q2Qc (1 # 2))%Qc)
     \/ (type (BudgetAgent.original r) = activity
         /\ (JS.ofZ 50 < Spec.cost (BudgetAgent.original r))%Qc)).
Local Abbreviation removable :=
  (fun v : BudgetAgent.Verdict =>
     (JS.ofZ 30 < Spec.cost (BudgetAgent.location v))%Qc /\ (5 < count)%nat).

Lemma decide_one_thresholds (todo : list Location) (opt : BudgetAgent.BudgetOptimization)
    (saved : Qc) :
  Forall replaceable (BudgetAgent.replace opt) -> Forall removable (BudgetAgent.remove opt) ->
  let out := fst (fold_left (BudgetAgent.decide_one count overage) todo (opt, saved)) in
  Forall replaceable (BudgetAgent.replace out) /\ Forall removable (BudgetAgent.remove out).
Proof.
  revert opt saved. induction todo as [|l todo IH]; intros opt saved Hr Hm; [done|].
  cbn [fold_left].
  destruct (BudgetAgent.decide_one count overage (opt, saved) l) as [opt' saved'] eqn:Hstep.
  unfold BudgetAgent.decide_one in Hstep.
  repeat match type of Hstep with
         | (if ?c then _ else _) = _ => let E := fresh "E" in destruct c eqn:E
         end;
    injection Hstep as <- <-; apply IH;
    cbn [BudgetAgent.keep BudgetAgent.replace BudgetAgent.remove]; try done.
  - apply Forall_app. split; [done|]. constructor; [|done]. left.
    apply andb_prop in E0 as [H3 Ht].
    apply bool_decide_eq_true in H3. apply bool_decide_eq_true in Ht. by cbn.
  - apply Forall_app. split; [done|]. constructor; [|done]. right.
    apply andb_prop in E1 as [Ht H50].
    apply bool_decide_eq_true in H50. apply bool_decide_eq_true in Ht. by cbn.
  - apply Forall_app. split; [done|]. constructor; [|done].
    apply andb_prop in E2 as [H30 H5].
    apply bool_decide_eq_true in H30. apply bool_decide_eq_true in H5. by cbn.
Qed.

(** With the target met from the start, every location is kept. *)
Lemma decide_one_within (todo : list Location) (opt : BudgetAgent.BudgetOptimization)
    (saved : Qc) :
  (overage <= saved)%Qc ->
  let out := fst (fold_left (BudgetAgent.decide_one count overage) todo (opt, saved)) in
  BudgetAgent.location <$> BudgetAgent.keep out
  = (BudgetAgent.location <$> BudgetAgent.keep opt) ++ todo
  /\ BudgetAgent.replace out = BudgetAgent.replace opt
  /\ BudgetAgent.remove out = BudgetAgent.remove opt.
Proof.
  intros Hle. revert opt. induction todo as [|l todo IH]; intros opt.
  - cbn. by rewrite app_nil_r.
  - cbn [fold_left].
    destruct (BudgetAgent.decide_one count overage (opt, saved) l) as [opt' saved'] eqn:Hstep.
    unfold BudgetAgent.decide_one in Hstep. rewrite bool_decide_true in Hstep by done.
    injection Hstep as <- <-.
    match goal with
    | |- context [fold_left _ todo (?o, saved)] => destruct (IH o) as (H1 & H2 & H3)
    end.
    cbv zeta in *. rewrite H1, H2, H3. cbn [BudgetAgent.keep BudgetAgent.replace BudgetAgent.remove].
    rewrite fmap_app, <- app_assoc. done.
Qed.

End FallbackFacts.

(** The fallback removes nothing from a trip of at most five locations. *)
Lemma simpleOptimization_small (locs : list Location) (currentTotal targetBudget : Qc) :
  (length locs <= 5)%nat ->
  BudgetAgent.remove (BudgetAgent.simpleOptimization locs currentTotal targetBudget) = [].
Proof.
  intros Hlen. unfold BudgetAgent.simpleOptimization.
  destruct (decide_one_thresholds (length locs) (currentTotal - targetBudget)
              (JS.sort BudgetAgent.byCostDescending locs)
              {| BudgetAgent.keep := []; BudgetAgent.replace := []; BudgetAgent.remove := [] |}
              0%Qc) as [_ Hm]; [constructor..|].
  cbv zeta in *. destruct (BudgetAgent.remove _) as [|v vs]; [done|].
  apply Forall_cons in Hm as [[_ H5] _]. lia.
Qed.

(** X27: the fallback optimization replaces only restaurants of price
    level 3 or more, at a saving of half their cost, rounded, and
    activities that cost more than 50; it removes only locations that
    cost more than 30, and none at all from a trip of at most five
    locations.  With a total within the target it keeps every
    location. *)
Theorem simpleOptimization_thresholds (locs : list Location) (currentTotal targetBudget : Qc) :
  let out := BudgetAgent.simpleOptimization locs currentTotal targetBudget in
  Forall (fun r =>
            (type (BudgetAgent.original r) = restaurant
             /\ 3 <= JS.orInt (priceLevel (BudgetAgent.original r)) 0
             /\ BudgetAgent.savings r
                = JS.Math_round (Spec.cost (BudgetAgent.original r) * Q2Qc (1 # 2))%Qc)
            \/ (type (BudgetAgent.original r) = activity
                /\ (JS.ofZ 50 < Spec.cost (BudgetAgent.original r))%Qc))
    (BudgetAgent.replace out)
  /\ Forall (fun v => (JS.ofZ 30 < Spec.cost (BudgetAgent.location v))%Qc
                      /\ (5 < length locs)%nat)
       (BudgetAgent.remove out)
  /\ ((length locs <= 5)%nat -> BudgetAgent.remove out = [])
  /\ ((currentTotal <= targetBudget)%Qc ->
      BudgetAgent.location <$> BudgetAgent.keep out = JS.sort BudgetAgent.byCostDescending locs
      /\ BudgetAgent.replace out = [] /\ BudgetAgent.remove out = []).
Proof.
  cbv zeta. unfold BudgetAgent.simpleOptimization.
  destruct (decide_one_thresholds (length locs) (currentTotal - targetBudget)
              (JS.sort BudgetAgent.byCostDescending locs)
              {| BudgetAgent.keep := []; BudgetAgent.replace := []; BudgetAgent.remove := [] |}
              0%Qc) as [Hr Hm]; [constructor..|].
  cbv zeta in *. split; [exact Hr|]. split; [exact Hm|]. split.
  - intros Hlen. destruct (BudgetAgent.remove _) as [|v vs]; [done|].
    apply Forall_cons in Hm as [[_ H5] _]. lia.
  - intros Hle.
    destruct (decide_one_within (length locs) (currentTotal - targetBudget)
                (JS.sort BudgetAgent.byCostDescending locs)
                {| BudgetAgent.keep := []; BudgetAgent.replace := []; BudgetAgent.remove := [] |}
                0%Qc) as (H1 & H2 & H3); [by apply Qc_minus_le_0|].
    done.
Qed.

Lemma filter_none {A} (P : A -> Prop) `{!forall x, Decision (P x)} (l : list A) :
  (forall x, x ∈ l -> ~ P x) -> filter P l = [].
Proof.
  induction l as [|a l IH]; intros Hnone; [done|].
  rewrite filter_cons, decide_False by (apply Hnone; by left).
  apply IH. intros x Hx. apply Hnone. by right.
Qed.

Lemma applyOptimization_elem (locs : list Location) (opt : BudgetAgent.BudgetOptimization)
    (l : Location) :
  l ∈ BudgetAgent.applyOptimization locs opt
  <-> l ∈ locs /\ id l ∉ id <$> (BudgetAgent.location <$> BudgetAgent.remove opt).
Proof.
  unfold BudgetAgent.applyOptimization. rewrite list_elem_of_filter, elem_of_list_to_set.
  replace (id <$> (BudgetAgent.location <$> BudgetAgent.remove opt))
    with ((fun r => id (BudgetAgent.location r)) <$> BudgetAgent.remove opt)
    by (by rewrite <- list_fmap_compose).
  tauto.
Qed.

(** Without a removal nothing is filtered. *)
Lemma applyOptimization_nothing (locs : list Location) (opt : BudgetAgent.BudgetOptimization) :
  BudgetAgent.remove opt = [] -> BudgetAgent.applyOptimization locs opt = locs.
Proof.
  intros Hnil. unfold BudgetAgent.applyOptimization. rewrite Hnil. apply filter_all.
  intros l _. cbn. set_solver.
Qed.

(** On locations with distinct ids, the fallback's adjustment leaves
    what the fallback keeps and what it replaces. *)
Lemma applyOptimization_fallback (locs : list Location) (currentTotal targetBudget : Qc) :
  NoDup (id <$> locs) ->
  let opt := BudgetAgent.simpleOptimization locs currentTotal targetBudget in
  BudgetAgent.applyOptimization locs opt
  ≡ₚ (BudgetAgent.location <$> BudgetAgent.keep opt)
     ++ (BudgetAgent.original <$> BudgetAgent.replace opt).
Proof.
  intros Hnd opt. subst opt. unfold BudgetAgent.simpleOptimization.
  destruct (decide_one_fold (length locs) (currentTotal - targetBudget)
              (JS.sort BudgetAgent.byCostDescending locs)
              {| BudgetAgent.keep := []; BudgetAgent.replace := []; BudgetAgent.remove := [] |}
              0%Qc) as (k & r & m & Hk & Hr & Hm & _ & _ & _ & Hp).
  cbv zeta in *. cbn [BudgetAgent.keep BudgetAgent.replace BudgetAgent.remove fmap list_fmap app]
    in Hk, Hr, Hm.
  rewrite Hk, Hr. unfold BudgetAgent.applyOptimization.
  match goal with
  | |- context [(fun r => id (BudgetAgent.location r)) <$> ?rm] =>
      replace ((fun r => id (BudgetAgent.location r)) <$> rm)
        with (id <$> (BudgetAgent.location <$> rm)) by (by rewrite <- list_fmap_compose)
  end.
  rewrite Hm.
  rewrite sort_Permutation in Hp.
  rewrite <- Hp in Hnd. rewrite <- Hp.
  rewrite !fmap_app in Hnd. apply NoDup_app in Hnd as (_ & Hk_out & Hnd).
  apply NoDup_app in Hnd as (_ & Hr_out & _).
  rewrite !filter_app.
  rewrite (filter_all _ k), (filter_all _ r), (filter_none _ m); [by rewrite app_nil_r|..].
  - intros l Hl Hout. apply Hout. apply elem_of_list_to_set. by apply list_elem_of_fmap_2.
  - intros l Hl [l' [Hid Hl']]%elem_of_list_to_set%list_elem_of_fmap.
    apply (Hr_out (id l)); [by apply list_elem_of_fmap_2|].
    rewrite Hid. by apply list_elem_of_fmap_2.
  - intros l Hl [l' [Hid Hl']]%elem_of_list_to_set%list_elem_of_fmap.
    apply (Hk_out (id l)); [by apply list_elem_of_fmap_2|].
    apply elem_of_app. right. rewrite Hid. by apply list_elem_of_fmap_2.
Qed.

(** X28: the adjustment after the fallback optimization.  The adjusted
    locations are the input locations whose id is not the id of a
    removed one, in their order; a trip of at most five locations keeps
    them all; and on locations with pairwise distinct ids the adjusted
    locations are those the fallback keeps and those it replaces: a
    location to be replaced stays in the plan. *)
Theorem adjusted_locations_after_removal (locs : list Location)
    (currentTotal targetBudget : Qc) :
  let opt := BudgetAgent.simpleOptimization locs currentTotal targetBudget in
  let adjusted := BudgetAgent.applyOptimization locs opt in
  sublist adjusted locs
  /\ (forall l, l ∈ adjusted
                <-> l ∈ locs /\ id l ∉ id <$> (BudgetAgent.location <$> BudgetAgent.remove opt))
  /\ ((length locs <= 5)%nat -> adjusted = locs)
  /\ (NoDup (id <$> locs) ->
      adjusted ≡ₚ (BudgetAgent.location <$> BudgetAgent.keep opt)
                  ++ (BudgetAgent.original <$> BudgetAgent.replace opt)).
Proof.
  cbv zeta. split; [apply sublist_filter|]. split; [apply applyOptimization_elem|]. split.
  - intros Hlen. apply applyOptimization_nothing. by apply simpleOptimization_small.
  - intros Hnd. by apply applyOptimization_fallback.
Qed.

(** ** The itinerary of a day *)

(** The map of the locations by id holds, for an id, a location of
    that id, and it holds one for every id of the list. *)
Lemma locationMap_fold (locs : list Location) (m : gmap string Location) (i : string) :
  let m' := fold_left (fun m l => <[id l := l]> m) locs m in
  (forall l, m' !! i = Some l -> (l ∈ locs /\ id l = i) \/ m !! i = Some l)
  /\ (i ∈ id <$> locs -> is_Some (m' !! i)).
Proof.
  revert m. induction locs as [|a locs IH]; intros m; cbn [fold_left].
  - split; [by right|]. intros Hi. by apply elem_of_nil in Hi.
  - destruct (IH (<[id a := a]> m)) as [H1 H2]. cbv zeta in *. split.
    + intros l Hl. destruct (H1 l Hl) as [[Hin Hid]|Hm]; [left; split; [by right|done]|].
      destruct (decide (id a = i)) as [<-|Hne].
      * rewrite lookup_insert_eq in Hm. injection Hm as <-. left. split; [by left|done].
      * rewrite lookup_insert_ne in Hm by done. by right.
    + rewrite fmap_cons. intros [->|Hi]%elem_of_cons; [|by apply H2].
      destruct (decide (id a ∈ id <$> locs)) as [Hin|Hout]; [by apply H2|].
      destruct (fold_left _ locs (<[id a:=a]> m) !! id a) as [l|] eqn:Hl; [done|].
      exfalso. clear -Hl Hout.
      revert m Hl. induction locs as [|b locs IH]; intros m Hl; cbn [fold_left] in Hl.
      * by rewrite lookup_insert_eq in Hl.
      * rewrite fmap_cons in Hout. apply not_elem_of_cons in Hout as [Hne Hout].
        rewrite insert_insert_ne in Hl by done. by apply (IH Hout (<[id b := b]> m)).
Qed.

Lemma locationMap_lookup (locs : list Location) (i : string) :
  (forall l, ItineraryAgent.locationMap locs !! i = Some l -> l ∈ locs /\ id l = i)
  /\ (i ∈ id <$> locs -> is_Some (ItineraryAgent.locationMap locs !! i)).
Proof.
  destruct (locationMap_fold locs ∅ i) as [H1 H2]. split; [|done].
  intros l Hl. by destruct (H1 l Hl) as [?|?].
Qed.

(** The locations found for the slots of a day: each is a location of
    the list; when the id of every slot is an id of the list, there is
    one for every slot, with the id of the slot. *)
Lemma getLocationsForDay_found (locs : list Location) (slots : list TimeAgent.TimeSlot) :
  let found := ItineraryAgent.getLocationsForDay locs slots in
  Forall (fun l => l ∈ locs) found
  /\ (length found <= length slots)%nat
  /\ ((forall slot, slot ∈ slots -> TimeAgent.locationId slot ∈ id <$> locs) ->
      Forall2 (fun l slot => id l = TimeAgent.locationId slot) found slots).
Proof.
  unfold ItineraryAgent.getLocationsForDay. induction slots as [|slot slots (IH1 & IH2 & IH3)].
  - split; [constructor|]. split; [done|]. constructor.
  - cbn [omap list_omap length].
    destruct (locationMap_lookup locs (TimeAgent.locationId slot)) as [Hsome Hin].
    destruct (ItineraryAgent.locationMap locs !! TimeAgent.locationId slot) as [l|] eqn:Hl.
    + destruct (Hsome l eq_refl) as [Hlocs Hid]. cbv zeta in *.
      split; [by constructor|]. split; [cbn; lia|].
      intros Hall. constructor; [done|]. apply IH3. intros s Hs. apply Hall. by right.
    + cbv zeta in *. split; [done|]. split; [lia|].
      intros Hall. destruct Hin as [? [=]]. apply Hall. by left.
Qed.

Section ItineraryFacts.
Variable calculateDistance : Coordinates -> Coordinates -> Qc.

Local Abbreviation writeItem := (ItineraryAgent.writeItem calculateDistance).

(** The loop of [createDayItinerary] pairs the slot at position [i] with
    the location at position [i], as long as there is one. *)
Lemma writeItem_fold (found : list Location) (i : nat) (slots : list TimeAgent.TimeSlot)
    (w : ItineraryAgent.Written) :
  exists new,
    let w' := fold_left (writeItem found) (zip (seq i (length slots)) slots) w in
    ItineraryAgent.w_items w' = ItineraryAgent.w_items w ++ new
    /\ ItineraryAgent.location <$> new = take (length slots) (drop i found)
    /\ Forall2 (fun item slot =>
                  ItineraryAgent.startTime item = TimeAgent.startTime slot
                  /\ ItineraryAgent.endTime item = TimeAgent.endTime slot
                  /\ ItineraryAgent.duration item = TimeAgent.duration slot
                  /\ ItineraryAgent.travelTime item = TimeAgent.travelTime slot
                  /\ ItineraryAgent.notes item = TimeAgent.notes slot)
         new (take (length (drop i found)) slots)
    /\ ItineraryAgent.w_totalCost w'
       = (ItineraryAgent.w_totalCost w
          + Spec.sumQc (Spec.cost <$> take (length slots) (drop i found)))%Qc.
Proof.
  revert i w. induction slots as [|slot slots IH]; intros i w.
  - exists []. cbn [length seq zip zip_with fold_left take fmap list_fmap].
    rewrite app_nil_r, take_nil, take_0. split; [done|]. split; [done|].
    split; [constructor|]. unfold Spec.sumQc. cbn [fmap list_fmap foldr]. ring.
  - cbn [length seq zip zip_with fold_left].
    destruct (IH (S i) (writeItem found w (i, slot))) as (new & H1 & H2 & H3 & H4).
    cbv zeta in *. destruct (found !! i) as [l|] eqn:Hl.
    + eexists. rewrite H1, H4. unfold ItineraryAgent.writeItem. rewrite Hl.
      cbn [ItineraryAgent.w_items ItineraryAgent.w_totalCost].
      rewrite (drop_S _ _ _ Hl). cbn [length take fmap list_fmap].
      rewrite <- app_assoc. split; [reflexivity|]. cbn [app fmap list_fmap ItineraryAgent.location].
      split; [by rewrite H2|]. split; [constructor; [by repeat split|exact H3]|].
      unfold Spec.sumQc, Spec.cost. cbn [foldr]. ring.
    + exists new. rewrite H1, H4. unfold ItineraryAgent.writeItem. rewrite Hl.
      apply lookup_ge_None in Hl.
      rewrite (drop_ge found i) by done. rewrite (drop_ge found (S i)) in H2, H3 |- * by lia.
      rewrite ?take_nil in *. cbn [length take] in *. rewrite ?take_0 in *. done.
Qed.

End ItineraryFacts.

(** X29: the itinerary of a day pairs slots and locations by position.
    Its items are the locations found for the slots, in their order,
    each an entry of the location list; the k-th item carries the times
    of the k-th slot of the schedule, so the items take the first slots,
    as many as there are locations found; the cost of the day is the sum
    of the costs of its items.  When the id of every slot is the id of a
    location of the list, every slot has its item and the item's
    location has the id of the slot. *)
Theorem itinerary_pairs_by_position (calculateDistance : Coordinates -> Coordinates -> Qc)
    (schedule : TimeAgent.DaySchedule) (locs : list Location) (dayNumber : Z) :
  let slots := TimeAgent.slots schedule in
  let found := ItineraryAgent.getLocationsForDay locs slots in
  let day := ItineraryAgent.createDayItinerary calculateDistance schedule found dayNumber in
  ItineraryAgent.location <$> ItineraryAgent.items day = found
  /\ Forall (fun l => l ∈ locs) found
  /\ Forall2 (fun item slot =>
                ItineraryAgent.startTime item = TimeAgent.startTime slot
                /\ ItineraryAgent.endTime item = TimeAgent.endTime slot
                /\ ItineraryAgent.duration item = TimeAgent.duration slot
                /\ ItineraryAgent.travelTime item = TimeAgent.travelTime slot
                /\ ItineraryAgent.notes item = TimeAgent.notes slot)
       (ItineraryAgent.items day) (take (length found) slots)
  /\ ItineraryAgent.totalCost day = Spec.sumQc (Spec.cost <$> found)
  /\ ((forall slot, slot ∈ slots -> TimeAgent.locationId slot ∈ id <$> locs) ->
      Forall2 (fun item slot =>
                 id (ItineraryAgent.location item) = TimeAgent.locationId slot
                 /\ ItineraryAgent.startTime item = TimeAgent.startTime slot
                 /\ ItineraryAgent.endTime item = TimeAgent.endTime slot)
        (ItineraryAgent.items day) slots).
Proof.
  cbv zeta.
  destruct (getLocationsForDay_found locs (TimeAgent.slots schedule)) as (Hin & Hlen & Hall).
  cbv zeta in *.
  set (found := ItineraryAgent.getLocationsForDay locs (TimeAgent.slots schedule)) in *.
  unfold ItineraryAgent.createDayItinerary.
  destruct (writeItem_fold calculateDistance found 0 (TimeAgent.slots schedule)
              {| ItineraryAgent.w_items := []; ItineraryAgent.w_totalCost := 0;
                 ItineraryAgent.w_totalDistance := 0 |}) as (new & H1 & H2 & H3 & H4).
  cbv zeta in *. cbn [ItineraryAgent.items ItineraryAgent.totalCost].
  cbn [ItineraryAgent.w_items ItineraryAgent.w_totalCost app drop] in H1, H2, H3, H4.
  rewrite (take_ge found) in H2, H4 by done.
  rewrite H1, H4. split; [done|]. split; [done|]. split; [done|]. split; [ring|].
  intros Hknown. specialize (Hall Hknown).
  assert (Hsame : length found = length (TimeAgent.slots schedule)) by (by eapply Forall2_length).
  change (drop 0 found) with found in H3. rewrite Hsame, firstn_all in H3.
  rewrite <- H2 in Hall. clear -Hall H3.
  revert Hall H3. generalize (TimeAgent.slots schedule). induction new as [|item new IH];
    intros slots Hall H3.
  - apply Forall2_nil_inv_l in H3 as ->. constructor.
  - destruct slots as [|slot slots]; [by apply Forall2_nil_inv_r in H3|].
    rewrite fmap_cons in Hall.
    apply Forall2_cons in Hall as [Hid Hall]. apply Forall2_cons in H3 as [(Hs & He & _) H3].
    constructor; [done|]. by apply IH.
Qed.
